(** * node-red-contrib-plex-ws: the notification transport and the playing node

    A shallow embedding of [PlexSocket] (the WebSocket transport) and of
    [PlayingNode] (src/nodes/playing.js), with the properties of their
    specification stated and proved over it.

    Layout:
    - [JS]: the fragment of JavaScript values and coercions the two files
      rely on (property reads, [String]/[Number]/[Boolean], [==], [===],
      the relational operators);
    - [FilterEngine]: [PlayingNode.matchesFilters] and the constructor's sort;
    - [Processor]: the [playing] listener installed by [PlayingNode.begin];
    - [Transport]: [PlexSocket], its timers, sockets and emitted events. *)

From Stdlib Require Import ZArith List String Ascii Bool Lia SpecFloat.
From stdpp Require Import base option list sorting gmap strings pretty.

Local Open Scope Z_scope.
Local Open Scope string_scope.
Local Open Scope list_scope.
Local Set Warnings "-register-all".

(** ** JavaScript values *)

Module JS.

(** A JS Number is an IEEE 754 binary64; [spec_float] is the Standard
    Library's inductive description of those, with its comparison
    [SFcompare] that answers [None] as soon as one side is NaN. *)
Definition number : Type := spec_float.
Definition prec : Z := 53.
Definition emax : Z := 1024.
Definition NaN : number := S754_nan.

Definition number_of_Z (z : Z) : number := binary_normalize prec emax z 0 false.

Definition is_nan (n : number) : bool :=
  match n with S754_nan => true | _ => false end.

Definition is_zero (n : number) : bool :=
  match n with S754_zero _ => true | _ => false end.

(** Values as [JSON.parse] builds them: the data of the program (frames,
    notifications, session records, the literals of the filters).  Objects
    keep their properties in insertion order; a property read takes the
    first binding of the key.  A string is the sequence of its code units,
    one [ascii] each. *)
Inductive jsval : Type :=
| JUndefined
| JNull
| JBool (b : bool)
| JNum (n : number)
| JStr (s : string)
| JArr (xs : list jsval)
| JObj (fields : list (string * jsval)).

(** What a property read can give: a value of the data, or an object of
    the language's library met on a prototype chain (a method, a
    constructor, a prototype), known by its name in the library. *)
Inductive jsany : Type :=
| Data (v : jsval)
| Builtin (name : string).

(** The primitive values, which the conversions end in. *)
Inductive prim : Type :=
| PUndefined
| PNull
| PBool (b : bool)
| PNum (n : number)
| PStr (s : string).

(** What a [throw] carries. *)
Inductive exn : Type :=
| SyntaxError (data : string)      (* JSON.parse on an unparsable frame *)
| TypeError (msg : string)         (* property read on undefined/null, call of a non-function *)
| Error (msg : string)             (* new Error(msg) *)
| Rejected (reason : jsval).       (* any other thrown or rejected value *)

Inductive result (A : Type) : Type :=
| Ok (a : A)
| Throw (e : exn).
Arguments Ok {A} a.
Arguments Throw {A} e.

Definition rbind {A B} (r : result A) (k : A -> result B) : result B :=
  match r with Ok a => k a | Throw e => Throw e end.

(** The prototype a value of the data has: [Object.prototype] for a plain
    object, [Array.prototype], [String.prototype], [Number.prototype] or
    [Boolean.prototype]. *)
Inductive kind : Type := KObject | KArray | KString | KNumber | KBoolean.

(** The built-ins of the language and of its library that the transport and
    the filter evaluation call or reach but do not define: the numeric
    reading of a string ([Number("12")]), the printing of a number
    ([String(12)]), [JSON.parse], which either returns a value or throws,
    and the library's objects: what the prototype chain of a kind of value
    holds under a name ([inherited]), what a built-in object holds under a
    name, own or inherited, where a getter may throw ([builtin_get]), and
    what a built-in object converts to ([builtin_primitive] for
    [ToPrimitive] with the hint number, the default of [==] as well for
    these objects; [builtin_text] for [String]). *)
Class Builtins : Type := {
  StringToNumber : string -> number;
  NumberToString : number -> string;
  JSON_parse : string -> option jsval;
  inherited : kind -> string -> option jsany;
  builtin_get : string -> string -> result jsany;
  builtin_primitive : string -> result prim;
  builtin_text : string -> result string
}.

Section Coercions.
Context `{Builtins}.

(** *** Property reads *)

Fixpoint lookup_field (k : string) (fs : list (string * jsval)) : option jsval :=
  match fs with
  | [] => None
  | (k', v) :: fs' => if (k' =? k)%string then Some v else lookup_field k fs'
  end.

Definition has_field (k : string) (fs : list (string * jsval)) : bool :=
  match lookup_field k fs with Some _ => true | None => false end.

(** [o[k] = v] on a plain object: overwrite in place, or append. *)
Fixpoint set_field (k : string) (v : jsval) (fs : list (string * jsval))
  : list (string * jsval) :=
  match fs with
  | [] => [(k, v)]
  | (k', v') :: fs' =>
      if (k' =? k)%string then (k, v) :: fs' else (k', v') :: set_field k v fs'
  end.

Definition digit_of (c : ascii) : option nat :=
  let n := nat_of_ascii c in
  if ((48 <=? n) && (n <=? 57))%nat then Some (n - 48)%nat else None.

Fixpoint digits_value (s : string) (acc : nat) : option nat :=
  match s with
  | EmptyString => Some acc
  | String c s' =>
      match digit_of c with
      | Some d => digits_value s' (10 * acc + d)%nat
      | None => None
      end
  end.

(** A property key is an array index when it is the canonical decimal
    spelling of a natural number: ["0"], or digits without a leading zero. *)
Definition index_of_key (k : string) : option nat :=
  match k with
  | EmptyString => None
  | String "0" EmptyString => Some 0%nat
  | String "0" _ => None
  | _ => digits_value k 0
  end.

Definition string_at (s : string) (i : nat) : jsval :=
  match String.get i s with
  | Some c => JStr (String c EmptyString)
  | None => JUndefined
  end.

(** [v[k]] for a key [k] that no prototype of the library holds.  Reading a
    property of [undefined] or [null] throws; own properties of objects,
    and the indices and [length] of arrays and strings, are read; nothing
    else is there, and the read gives [undefined].  The transport and the
    listener read in this way the keys written in their text:
    [NotificationContainer], [type], [PlaySessionStateNotification],
    [length], [state], [statusCode], [sessionKey] and [prevState], of which
    the library has none on the chain of a value without it as an own
    property.  For a key of any other origin, see [js_get]. *)
Definition js_field (v : jsval) (k : string) : result jsval :=
  match v with
  | JUndefined =>
      Throw (TypeError ("Cannot read properties of undefined (reading '" ++ k ++ "')"))
  | JNull =>
      Throw (TypeError ("Cannot read properties of null (reading '" ++ k ++ "')"))
  | JObj fs => Ok (default JUndefined (lookup_field k fs))
  | JArr xs =>
      if (k =? "length")%string then Ok (JNum (number_of_Z (Z.of_nat (length xs))))
      else match index_of_key k with
           | Some i => Ok (nth i xs JUndefined)
           | None => Ok JUndefined
           end
  | JStr s =>
      if (k =? "length")%string then Ok (JNum (number_of_Z (Z.of_nat (String.length s))))
      else match index_of_key k with
           | Some i => Ok (string_at s i)
           | None => Ok JUndefined
           end
  | JBool _ | JNum _ => Ok JUndefined
  end.

(** The own properties of a value of the data: the fields of an object, the
    elements and the [length] of an array, the characters and the [length]
    of a string. *)
Definition own_property (v : jsval) (k : string) : option jsval :=
  match v with
  | JObj fs => lookup_field k fs
  | JArr xs =>
      if (k =? "length")%string then Some (JNum (number_of_Z (Z.of_nat (length xs))))
      else match index_of_key k with
           | Some i => xs !! i
           | None => None
           end
  | JStr s =>
      if (k =? "length")%string then Some (JNum (number_of_Z (Z.of_nat (String.length s))))
      else match index_of_key k with
           | Some i =>
               match String.get i s with
               | Some c => Some (JStr (String c EmptyString))
               | None => None
               end
           | None => None
           end
  | _ => None
  end.

Definition kind_of (v : jsval) : option kind :=
  match v with
  | JUndefined | JNull => None
  | JBool _ => Some KBoolean
  | JNum _ => Some KNumber
  | JStr _ => Some KString
  | JArr _ => Some KArray
  | JObj _ => Some KObject
  end.

(** [v[k]] for any key: the own property if there is one, else what the
    prototype chain holds under the key ([constructor], [toString],
    [__proto__], ...), else [undefined].  Reading a property of [undefined]
    or [null] throws. *)
Definition js_get (v : jsany) (k : string) : result jsany :=
  match v with
  | Builtin b => builtin_get b k
  | Data JUndefined =>
      Throw (TypeError ("Cannot read properties of undefined (reading '" ++ k ++ "')"))
  | Data JNull =>
      Throw (TypeError ("Cannot read properties of null (reading '" ++ k ++ "')"))
  | Data d =>
      match own_property d k with
      | Some x => Ok (Data x)
      | None =>
          match kind_of d with
          | Some kd => Ok (default (Data JUndefined) (inherited kd k))
          | None => Ok (Data JUndefined)
          end
      end
  end.

(** *** Conversions *)

Definition prim_text (p : prim) : string :=
  match p with
  | PUndefined => "undefined"
  | PNull => "null"
  | PBool true => "true"
  | PBool false => "false"
  | PNum n => NumberToString n
  | PStr s => s
  end.

Definition prim_number (p : prim) : number :=
  match p with
  | PUndefined => NaN
  | PNull => S754_zero false
  | PBool true => number_of_Z 1
  | PBool false => S754_zero false
  | PNum n => n
  | PStr s => StringToNumber s
  end.

Definition array_element_text (to_string : jsval -> result string) (x : jsval)
  : result string :=
  match x with
  | JUndefined | JNull => Ok ""
  | _ => to_string x
  end.

(** [String(v)] on the data.  An array prints as its elements joined by
    commas, each printed in turn.  A plain object prints through the
    [toString] it finds: the inherited one gives [[object Object]]; an own
    field of that name, which holds data and cannot be called, is passed
    over, [valueOf] (own or inherited) gives no primitive either, and the
    conversion throws. *)
Fixpoint ToString (v : jsval) : result string :=
  match v with
  | JUndefined => Ok "undefined"
  | JNull => Ok "null"
  | JBool true => Ok "true"
  | JBool false => Ok "false"
  | JNum n => Ok (NumberToString n)
  | JStr s => Ok s
  | JArr xs =>
      (fix join (l : list jsval) : result string :=
         match l with
         | [] => Ok ""
         | [x] => array_element_text ToString x
         | x :: l' =>
             rbind (array_element_text ToString x) (fun a =>
             rbind (join l') (fun b => Ok (a ++ "," ++ b)%string))
         end) xs
  | JObj fs =>
      if has_field "toString" fs
      then Throw (TypeError "Cannot convert object to primitive value")
      else Ok "[object Object]"
  end.

(** [ToPrimitive]: arrays and objects have no primitive [valueOf], so with
    either hint they become their string, or throw as [String] does. *)
Definition ToPrimitive (v : jsval) : result prim :=
  match v with
  | JUndefined => Ok PUndefined
  | JNull => Ok PNull
  | JBool b => Ok (PBool b)
  | JNum n => Ok (PNum n)
  | JStr s => Ok (PStr s)
  | JArr _ | JObj _ => rbind (ToString v) (fun s => Ok (PStr s))
  end.

(** [Number(v)] on the data. *)
Definition ToNumber (v : jsval) : result number :=
  rbind (ToPrimitive v) (fun p => Ok (prim_number p)).

(** [Boolean(v)], the truthiness that [if], [&&] and [!!] test. *)
Definition ToBoolean (v : jsval) : bool :=
  match v with
  | JUndefined | JNull => false
  | JBool b => b
  | JNum n => negb (is_nan n || is_zero n)
  | JStr s => negb (s =? "")%string
  | JArr _ | JObj _ => true
  end.

(** [a && b] on values: the left operand when it is falsy, else the right. *)
Definition js_and (a b : jsval) : jsval := if ToBoolean a then b else a.

(** The same three on anything a read can give. *)
Definition any_primitive (v : jsany) : result prim :=
  match v with
  | Data d => ToPrimitive d
  | Builtin b => builtin_primitive b
  end.

Definition js_String (v : jsany) : result string :=
  match v with
  | Data d => ToString d
  | Builtin b => builtin_text b
  end.

Definition js_Number (v : jsany) : result number :=
  rbind (any_primitive v) (fun p => Ok (prim_number p)).

Definition js_Boolean (v : jsany) : bool :=
  match v with
  | Data d => ToBoolean d
  | Builtin _ => true
  end.

(** *** Equality and order *)

(** [a === b].  Two objects (or arrays) are equal only when they are the
    same allocation; the operands compared by this program come from
    different allocations (a freshly parsed frame, a stored record, the
    node's configuration), so the model answers [false] for them. *)
Definition js_strict_eq (a b : jsval) : bool :=
  match a, b with
  | JUndefined, JUndefined => true
  | JNull, JNull => true
  | JBool x, JBool y => Bool.eqb x y
  | JNum x, JNum y => SFeqb x y
  | JStr x, JStr y => (x =? y)%string
  | _, _ => false
  end.

(** [a == b] between two primitives: [null] and [undefined] equal each
    other and nothing else; two strings compare as strings; anything else
    as numbers. *)
Definition prim_loose_eq (a b : prim) : bool :=
  match a, b with
  | (PUndefined | PNull), (PUndefined | PNull) => true
  | (PUndefined | PNull), _ | _, (PUndefined | PNull) => false
  | PStr x, PStr y => (x =? y)%string
  | _, _ => SFeqb (prim_number a) (prim_number b)
  end.

Definition is_object (v : jsany) : bool :=
  match v with
  | Data (JArr _) | Data (JObj _) | Builtin _ => true
  | _ => false
  end.

Definition is_nullish (v : jsany) : bool :=
  match v with
  | Data JUndefined | Data JNull => true
  | _ => false
  end.

(** [a == b]: two objects are equal when they are the same object (two
    built-ins of the same name; an object of the data is never the other
    operand itself); an object equals neither [null] nor [undefined]; an
    object facing another primitive is first made primitive, which can
    throw; two primitives compare as above. *)
Definition js_loose_eq (a b : jsany) : result bool :=
  match a, b with
  | Builtin x, Builtin y => Ok (x =? y)%string
  | _, _ =>
      if is_object a && (is_object b || is_nullish b) then Ok false
      else if is_nullish a && is_object b then Ok false
      else rbind (any_primitive a) (fun p =>
           rbind (any_primitive b) (fun q => Ok (prim_loose_eq p q)))
  end.

(** [p < q] on primitives: two strings compare by code units, anything
    else as numbers, and a NaN on either side makes the answer [false]. *)
Definition prim_lt (p q : prim) : bool :=
  match p, q with
  | PStr x, PStr y => String.ltb x y
  | _, _ => SFltb (prim_number p) (prim_number q)
  end.

(** [p <= q] is "not [q < p]", except that it is [false] on NaN. *)
Definition prim_le (p q : prim) : bool :=
  match p, q with
  | PStr x, PStr y => negb (String.ltb y x)
  | _, _ => SFleb (prim_number p) (prim_number q)
  end.

(** The four relational operators: the left operand is made primitive
    first, then the right one, and either conversion can throw. *)
Definition js_lt (a b : jsany) : result bool :=
  rbind (any_primitive a) (fun p => rbind (any_primitive b) (fun q => Ok (prim_lt p q))).

Definition js_le (a b : jsany) : result bool :=
  rbind (any_primitive a) (fun p => rbind (any_primitive b) (fun q => Ok (prim_le p q))).

Definition js_gt (a b : jsany) : result bool :=
  rbind (any_primitive a) (fun p => rbind (any_primitive b) (fun q => Ok (prim_lt q p))).

Definition js_ge (a b : jsany) : result bool :=
  rbind (any_primitive a) (fun p => rbind (any_primitive b) (fun q => Ok (prim_le q p))).

End Coercions.

(** Splitting a key on a separator character, as [key.split('.')] does:
    ["a.b"] gives [["a"; "b"]], the empty string gives [[""]]. *)
Fixpoint split_on (sep : ascii) (s : string) : list string :=
  match s with
  | EmptyString => [EmptyString]
  | String c s' =>
      if Ascii.eqb c sep then EmptyString :: split_on sep s'
      else match split_on sep s' with
           | [] => [String c EmptyString]
           | part :: parts => String c part :: parts
           end
  end.

End JS.

(** ** The filter evaluation of the playing node *)

Module FilterEngine.
Import JS.

(** One entry of [config.filters]. *)
Record Filter : Type := {
  key : string;
  value : jsval;
  valueType : string;
  operator : string;
  idx : Z
}.

(** The comparator handed to [sort] in the constructor:
    [(a, b) => a.idx > b.idx ? 1 : a.idx < b.idx ? -1 : 0]. *)
Definition compareIdx (a b : Filter) : Z :=
  if (idx a >? idx b)%Z then 1 else if (idx a <? idx b)%Z then -1 else 0.

(** [Array.prototype.sort] with a comparator.  The language requires the
    sort to be stable, which fixes its result for a consistent comparator;
    it is written here as an insertion sort that moves an element past
    another only when the comparator is positive. *)
Section ArraySort.
Context {A : Type} (cmp : A -> A -> Z).

Fixpoint sort_insert (x : A) (l : list A) : list A :=
  match l with
  | [] => [x]
  | y :: l' => if (cmp x y >? 0)%Z then y :: sort_insert x l' else x :: y :: l'
  end.

Definition Array_sort (l : list A) : list A := fold_right sort_insert [] l.

End ArraySort.

Record PlayingNode : Type := { filters : list Filter }.

(** Ascending [idx]. *)
Definition idx_le (a b : Filter) : Prop := (idx a <= idx b)%Z.

(** The part of the constructor that prepares the filters:
    [this.filters = config.filters || []], then the sort by [idx]. *)
Definition new_PlayingNode (config_filters : option (list Filter)) : PlayingNode :=
  {| filters := Array_sort compareIdx (default [] config_filters) |}.

Section Matching.
Context `{Builtins}.

(** [keyParts.forEach((key) => { sessionValue = sessionValue[key]; })] *)
Fixpoint walk (sessionValue : jsany) (keyParts : list string) : result jsany :=
  match keyParts with
  | [] => Ok sessionValue
  | k :: ks => rbind (js_get sessionValue k) (fun v => walk v ks)
  end.

(** The first [switch], on one operand: [String], [Number] or [Boolean] of
    it; any other [valueType] leaves it as it is. *)
Definition coerce (vt : string) (v : jsany) : result jsany :=
  if (vt =? "str")%string then rbind (js_String v) (fun s => Ok (Data (JStr s)))
  else if (vt =? "num")%string then rbind (js_Number v) (fun n => Ok (Data (JNum n)))
  else if (vt =? "bool")%string then Ok (Data (JBool (js_Boolean v)))
  else Ok v.

(** The second [switch]; it has no default, so [comparison] stays
    [undefined] for any other operator. *)
Definition compare (op : string) (filterValue sessionValue : jsany) : result jsval :=
  if (op =? "eq")%string
  then rbind (js_loose_eq filterValue sessionValue) (fun b => Ok (JBool b))
  else if (op =? "neq")%string
  then rbind (js_loose_eq filterValue sessionValue) (fun b => Ok (JBool (negb b)))
  else if (op =? "lt")%string
  then rbind (js_lt filterValue sessionValue) (fun b => Ok (JBool b))
  else if (op =? "lte")%string
  then rbind (js_le filterValue sessionValue) (fun b => Ok (JBool b))
  else if (op =? "gt")%string
  then rbind (js_gt filterValue sessionValue) (fun b => Ok (JBool b))
  else if (op =? "gte")%string
  then rbind (js_ge filterValue sessionValue) (fun b => Ok (JBool b))
  else Ok JUndefined.

(** The body of the outer [forEach] up to [comparison]: the walk, the
    conversion of the session's value and then of the literal, the
    comparison, and the template of [console.log], which prints the literal
    and then the session's value. *)
Definition evalFilter (session : jsval) (filter : Filter) : result jsval :=
  rbind (walk (Data session) (split_on "." (key filter))) (fun sessionValue =>
  rbind (coerce (valueType filter) sessionValue) (fun sessionValue =>
  rbind (coerce (valueType filter) (Data (value filter))) (fun filterValue =>
  rbind (compare (operator filter) filterValue sessionValue) (fun comparison =>
  rbind (js_String filterValue) (fun _ =>
  rbind (js_String sessionValue) (fun _ =>
  Ok comparison)))))).

(** The outer [forEach], threading [match]; an exception leaves it. *)
Fixpoint forEachFilter (fs : list Filter) (session : jsval) (match_ : jsval)
  : result jsval :=
  match fs with
  | [] => Ok match_
  | filter :: fs' =>
      rbind (evalFilter session filter) (fun comparison =>
        forEachFilter fs' session (js_and match_ comparison))
  end.

Definition matchesFilters (node : PlayingNode) (session : jsval) : result jsval :=
  forEachFilter (filters node) session (JBool true).

(** The evaluation of a filter returns. *)
Definition evaluates (session : jsval) (f : Filter) : Prop :=
  exists comparison, evalFilter session f = Ok comparison.

(** *** The evaluation as the specification words it *)

Inductive Operator : Type := OpEq | OpNeq | OpLt | OpLte | OpGt | OpGte.

Definition operator_of (op : string) : option Operator :=
  if (op =? "eq")%string then Some OpEq
  else if (op =? "neq")%string then Some OpNeq
  else if (op =? "lt")%string then Some OpLt
  else if (op =? "lte")%string then Some OpLte
  else if (op =? "gt")%string then Some OpGt
  else if (op =? "gte")%string then Some OpGte
  else None.

(** A filter of the data model carries one of the six operators. *)
Definition known_operator (f : Filter) : Prop := is_Some (operator_of (operator f)).

(** Step 1: walk the dot-separated path through the fields of the record;
    a missing field gives an absent value and the walk goes on from it. *)
Definition spec_field (v : jsval) (k : string) : jsval :=
  default JUndefined (own_property v k).

Definition spec_resolve (session : jsval) (path : string) : jsval :=
  fold_left spec_field (split_on "." path) session.

(** Step 2: both values are coerced according to [valueType]: [str] gives
    the string representation, [num] the numeric one, [bool] the
    truthiness, anything else leaves the value as it is.  The two
    representations are those of the language, where they exist. *)
Inductive ValueType : Type := VStr | VNum | VBool | VDefault.

Definition valueType_of (vt : string) : ValueType :=
  if (vt =? "str")%string then VStr
  else if (vt =? "num")%string then VNum
  else if (vt =? "bool")%string then VBool
  else VDefault.

Definition spec_coerce (vt : ValueType) (v : jsval) : result jsval :=
  match vt with
  | VStr => rbind (ToString v) (fun s => Ok (JStr s))
  | VNum => rbind (ToNumber v) (fun n => Ok (JNum n))
  | VBool => Ok (JBool (ToBoolean v))
  | VDefault => Ok v
  end.

(** Step 3: loose equality for [eq]/[neq], the ordering for the others, the
    literal on the left and the session's value on the right. *)
Definition spec_apply (op : Operator) (literal resolved : jsval) : result bool :=
  match op with
  | OpEq => js_loose_eq (Data literal) (Data resolved)
  | OpNeq => rbind (js_loose_eq (Data literal) (Data resolved)) (fun b => Ok (negb b))
  | OpLt => js_lt (Data literal) (Data resolved)
  | OpLte => js_le (Data literal) (Data resolved)
  | OpGt => js_gt (Data literal) (Data resolved)
  | OpGte => js_ge (Data literal) (Data resolved)
  end.

Definition spec_comparison (session : jsval) (f : Filter) : result bool :=
  match operator_of (operator f) with
  | Some op =>
      let vt := valueType_of (valueType f) in
      rbind (spec_coerce vt (value f)) (fun literal =>
      rbind (spec_coerce vt (spec_resolve session (key f))) (fun resolved =>
      spec_apply op literal resolved))
  | None => Ok false
  end.

(** Step 4 and the result: true only if every comparison holds. *)
Fixpoint spec_matches (session : jsval) (fs : list Filter) : result bool :=
  match fs with
  | [] => Ok true
  | f :: fs' =>
      rbind (spec_comparison session f) (fun b =>
      rbind (spec_matches session fs') (fun bs => Ok (b && bs)))
  end.

(** *** Where the two agree *)

Definition nullish (v : jsval) : bool :=
  match v with JUndefined | JNull => true | _ => false end.

(** A read that stays in the data: the value read from is neither
    [undefined] nor [null], and the key names one of its own properties or
    nothing at all, not a property that its prototype chain holds. *)
Definition plain_read (v : jsval) (k : string) : Prop :=
  nullish v = false /\
  (is_Some (own_property v k) \/
   forall kd, kind_of v = Some kd -> inherited kd k = None).

Fixpoint plain_along (v : jsval) (keyParts : list string) : Prop :=
  match keyParts with
  | [] => True
  | k :: ks => plain_read v k /\ plain_along (spec_field v k) ks
  end.

(** The key path of a filter resolves in the data of the session. *)
Definition path_resolves (session : jsval) (f : Filter) : Prop :=
  plain_along session (split_on "." (key f)).

(** A value has a string representation. *)
Definition prints (v : jsval) : Prop := exists s, ToString v = Ok s.

(** A value can be coerced as a [valueType] says and printed afterwards:
    [Boolean] takes any value and gives a boolean; in every other case the
    value must have a string representation. *)
Definition coercible (vt : ValueType) (v : jsval) : Prop := vt = VBool \/ prints v.

(** Both operands of a filter can. *)
Definition operands_print (session : jsval) (f : Filter) : Prop :=
  coercible (valueType_of (valueType f)) (value f) /\
  coercible (valueType_of (valueType f)) (spec_resolve session (key f)).

End Matching.

End FilterEngine.

(** ** Handlers: state threaded through, exceptions leaving early *)

Module Eff.
Import JS.

(** A handler runs on a state and either completes with a result or throws;
    what it wrote before throwing stays written. *)
Definition M (S A : Type) : Type := S -> S * result A.

Definition ret {S A} (a : A) : M S A := fun st => (st, Ok a).

Definition bind {S A B} (m : M S A) (k : A -> M S B) : M S B :=
  fun st =>
    match m st with
    | (st', Ok a) => k a st'
    | (st', Throw e) => (st', Throw e)
    end.

Definition throw {S A} (e : exn) : M S A := fun st => (st, Throw e).
Definition lift {S A} (r : result A) : M S A := fun st => (st, r).
Definition get {S} : M S S := fun st => (st, Ok st).
Definition gets {S A} (f : S -> A) : M S A := fun st => (st, Ok (f st)).
Definition modify {S} (f : S -> S) : M S unit := fun st => (f st, Ok tt).

(** [try { m } catch (e) { h(e) }] *)
Definition catch {S A} (m : M S A) (h : exn -> M S A) : M S A :=
  fun st =>
    match m st with
    | (st', Ok a) => (st', Ok a)
    | (st', Throw e) => h e st'
    end.

Definition when {S} (b : bool) (m : M S unit) : M S unit :=
  if b then m else ret tt.

Fixpoint forEach {S A} (f : A -> M S unit) (l : list A) : M S unit :=
  match l with
  | [] => ret tt
  | x :: l' => bind (f x) (fun _ => forEach f l')
  end.

Definition exec {S A} (m : M S A) (st : S) : S := fst (m st).
Definition outcome {S A} (m : M S A) (st : S) : result A := snd (m st).

End Eff.

Declare Scope eff_scope.
Delimit Scope eff_scope with eff.
Notation "x <- c1 ;; c2" := (Eff.bind c1 (fun x => c2))
  (at level 100, c1 at next level, right associativity) : eff_scope.
Notation "c1 ;; c2" := (Eff.bind c1 (fun _ => c2))
  (at level 100, right associativity) : eff_scope.

(** ** The playing listener of the node *)

Module Processor.
Import JS Eff FilterEngine.
Local Open Scope eff_scope.

(** Session records are objects handed out by reference: the listener
    writes [prevState] into the very record the store holds. *)
Definition loc : Type := nat.

(** The message built for [this.send]; [session] is the reference the fetch
    resolved to. *)
Record Msg : Type := {
  payload : jsval;
  plex : jsval;
  session : option loc
}.

(** How [sessions.fetch(sessionKey)] settles: it resolves to a session
    record or to no session, or it rejects. *)
Inductive Fetched : Type :=
| Resolved (session : option loc)
| FetchRejected (reason : exn).

Record World : Type := {
  heap : gmap loc (list (string * jsval));   (* the session records *)
  sessions : gmap string loc;                (* the store of this.server.sessions *)
  deleted : list jsval;                      (* the calls sessions.delete(k), in order *)
  sent : list Msg;                           (* the calls this.send(msg), in order *)
  warnings : list string                     (* the calls this.warn(text), in order *)
}.

Section Listener.
Context `{Builtins}.

(** Modelled from the spec: the session store [this.server.sessions], whose
    code is not part of the sources: a cache keyed by session identifier
    with delete-by-key, whose [delete] returns.  A key stands for the name
    it prints as; a key that has no such name (it cannot be printed) is the
    identifier of no session. *)
Definition key_name (sessionKey : jsval) : option string :=
  match ToString sessionKey with
  | Ok name => Some name
  | Throw _ => None
  end.

Definition store_delete (sessionKey : jsval) (w : World) : World :=
  {| heap := heap w;
     sessions := match key_name sessionKey with
                 | Some name => delete name (sessions w)
                 | None => sessions w
                 end;
     deleted := deleted w ++ [sessionKey];
     sent := sent w;
     warnings := warnings w |}.

Definition stored (sessionKey : jsval) (w : World) : option loc :=
  match key_name sessionKey with
  | Some name => sessions w !! name
  | None => None
  end.

Definition send (msg : Msg) (w : World) : World :=
  {| heap := heap w; sessions := sessions w; deleted := deleted w;
     sent := sent w ++ [msg]; warnings := warnings w |}.

Definition warn (text : string) (w : World) : World :=
  {| heap := heap w; sessions := sessions w; deleted := deleted w;
     sent := sent w; warnings := warnings w ++ [text] |}.

(** The record behind a reference, as the object it is. *)
Definition record_at (l : loc) (w : World) : list (string * jsval) :=
  default [] (heap w !! l).

(** [session[k] = v] *)
Definition write_field (l : loc) (k : string) (v : jsval) (w : World) : World :=
  {| heap := <[l := set_field k v (record_at l w)]> (heap w);
     sessions := sessions w; deleted := deleted w;
     sent := sent w; warnings := warnings w |}.

(** How a thrown or rejected value prints inside a template string; the
    printing of a value that is no error can itself throw. *)
Definition exn_text (e : exn) : result string :=
  match e with
  | SyntaxError data => Ok "SyntaxError: Unexpected token in JSON"
  | TypeError msg => Ok ("TypeError: " ++ msg)%string
  | Error msg => Ok ("Error: " ++ msg)%string
  | Rejected v => ToString v
  end.

(** The callback given to [then]. *)
Definition onFetched (node : PlayingNode) (state notification sessionKey : jsval)
    (session : option loc) : M World unit :=
  let msg := {| payload := state; plex := notification; session := session |} in
  match session with
  | Some l =>
      fields <- gets (record_at l) ;;
      prevState <- lift (js_field (JObj fields) "prevState") ;;
      when (negb (js_strict_eq prevState state))
        (matched <- lift (matchesFilters node (JObj fields)) ;;
         when (ToBoolean matched) (modify (send msg)) ;;
         modify (write_field l "prevState" state))
  | None => ret tt
  end ;;
  when (js_strict_eq state (JStr "stopped")) (modify (store_delete sessionKey)).

(** The callback given to [catch]: the template is printed, then handed to
    [this.warn]. *)
Definition onRejected (reason : exn) : M World unit :=
  text <- lift (exn_text reason) ;;
  modify (warn ("failed to fetch session details from Plex: " ++ text)%string).

(** The listener [(state, notification) => ...] installed by [begin], run
    with the way the fetch settles.  The world it starts from is the one the
    promise callbacks find. *)
Definition onPlaying (node : PlayingNode) (state notification : jsval)
    (fetched : Fetched) : M World unit :=
  sessionKey <- lift (js_field notification "sessionKey") ;;
  match fetched with
  | Resolved session =>
      catch (onFetched node state notification sessionKey session) onRejected
  | FetchRejected reason => onRejected reason
  end.

(** [session['prevState']] of a record. *)
Definition prevState_of (fields : list (string * jsval)) : jsval :=
  default JUndefined (lookup_field "prevState" fields).

(** Whenever the listener runs the filters for an event with this state
    (the fetch resolved to a session whose [prevState] differs from it),
    [matchesFilters] returns. *)
Definition evaluation_returns (node : PlayingNode) (state : jsval)
    (session : option loc) (w : World) : Prop :=
  match session with
  | Some l =>
      js_strict_eq (prevState_of (record_at l w)) state = false ->
      exists matched, matchesFilters node (JObj (record_at l w)) = Ok matched
  | None => True
  end.

(** The filters can be evaluated on the session the fetch resolved to:
    [matchesFilters] returns on it. *)
Definition filters_evaluate (node : PlayingNode) (session : option loc) (w : World)
  : Prop :=
  match session with
  | Some l => exists matched, matchesFilters node (JObj (record_at l w)) = Ok matched
  | None => True
  end.

End Listener.

End Processor.

(** ** The notification transport *)

Module Transport.
Import JS Eff.
Local Open Scope eff_scope.

Definition socket_id : Type := nat.
Definition timer_id : Type := nat.

(** [readyState] of a WebSocket. *)
Inductive ReadyState : Type := CONNECTING | OPEN | CLOSING | CLOSED.

Definition is_open (r : ReadyState) : bool :=
  match r with OPEN => true | _ => false end.
Definition is_connecting (r : ReadyState) : bool :=
  match r with CONNECTING => true | _ => false end.
Definition is_live (r : ReadyState) : bool :=
  match r with CLOSED => false | _ => true end.

(** The three functions this class hands to [setTimeout]. *)
Inductive Callback : Type :=
| PingCallback           (* this.ping.bind(this)                                  *)
| PongTimeoutCallback    (* () => { emit('pong-timeout'); socket.terminate(); }   *)
| ConnectCallback.       (* () => this.connect()                                  *)

(** [reconnectMaxRetries]: a count, or the default [Infinity]. *)
Inductive Limit : Type := Finite (n : Z) | Infinity.

(** An argument of [onClose]: the code and reason of the socket, or the
    error caught around the WebSocket constructor. *)
Inductive CloseArg : Type := CloseVal (v : jsval) | CloseErr (e : exn).

(** The calls of [this.emit], by event. *)
Inductive Event : Type :=
| EvOpen (data : jsval)
| EvClose (code reason : CloseArg)
| EvError (err : exn)
| EvMessage (payload : jsval)
| EvNotification (notif : jsval)
| EvPlaying (state playingNotif : jsval)
| EvPong
| EvPongTimeout
| EvReconnectMaxRetries (max : Limit)
| EvUnauthorized
| EvUnexpectedResponse (req res : jsval).

Definition event_name (ev : Event) : string :=
  match ev with
  | EvOpen _ => "open"
  | EvClose _ _ => "close"
  | EvError _ => "error"
  | EvMessage _ => "message"
  | EvNotification _ => "notification"
  | EvPlaying _ _ => "playing"
  | EvPong => "pong"
  | EvPongTimeout => "pong-timeout"
  | EvReconnectMaxRetries _ => "reconnect-max-retries"
  | EvUnauthorized => "unauthorized"
  | EvUnexpectedResponse _ _ => "unexpected-response"
  end.

(** The calls into the socket library and the timer API. *)
Inductive Call : Type :=
| NewWebSocket (address : string) (token : jsval)
| SocketPing (s : socket_id) (data : string)
| SocketPong (s : socket_id) (data : string)
| SocketClose (s : socket_id)
| SocketTerminate (s : socket_id)
| SetTimeout (cb : Callback) (delay : Z) (t : timer_id)
| ClearTimeout (t : timer_id).

(** The constructor's options, defaults filled in. *)
Record Options : Type := {
  hostname : jsval;
  port : jsval;
  token : jsval;
  secure : bool;
  pingInterval : Z;
  pingTimeout : Z;
  reconnectInterval : Z;
  reconnectMaxRetries : Limit;
  autoConnect : bool
}.

(** The object together with the run-time it lives in.  The counter
    [retries] holds whole numbers, which a JS number counts exactly far
    beyond any number of connection attempts; it is an integer here. *)
Record PlexSocket : Type := {
  options : Options;
  (* fields of the object *)
  shouldClose : bool;
  retries : Z;
  socket : option socket_id;
  pinger : option timer_id;
  awaitPong : option timer_id;
  (* the run-time *)
  listeners : list string;                          (* events that have a listener *)
  sockets : list ReadyState;                        (* every WebSocket built so far, by id *)
  timers : list (timer_id * (Callback * Z));        (* the pending timers *)
  next_timer : timer_id;
  (* what the object has done *)
  emitted : list Event;
  calls : list Call
}.

(** Field updates. *)
Definition with_shouldClose (b : bool) (st : PlexSocket) : PlexSocket :=
  {| options := options st; shouldClose := b; retries := retries st;
     socket := socket st; pinger := pinger st; awaitPong := awaitPong st;
     listeners := listeners st; sockets := sockets st; timers := timers st;
     next_timer := next_timer st; emitted := emitted st; calls := calls st |}.

Definition with_retries (r : Z) (st : PlexSocket) : PlexSocket :=
  {| options := options st; shouldClose := shouldClose st; retries := r;
     socket := socket st; pinger := pinger st; awaitPong := awaitPong st;
     listeners := listeners st; sockets := sockets st; timers := timers st;
     next_timer := next_timer st; emitted := emitted st; calls := calls st |}.

Definition with_socket (s : option socket_id) (st : PlexSocket) : PlexSocket :=
  {| options := options st; shouldClose := shouldClose st; retries := retries st;
     socket := s; pinger := pinger st; awaitPong := awaitPong st;
     listeners := listeners st; sockets := sockets st; timers := timers st;
     next_timer := next_timer st; emitted := emitted st; calls := calls st |}.

Definition with_pinger (t : option timer_id) (st : PlexSocket) : PlexSocket :=
  {| options := options st; shouldClose := shouldClose st; retries := retries st;
     socket := socket st; pinger := t; awaitPong := awaitPong st;
     listeners := listeners st; sockets := sockets st; timers := timers st;
     next_timer := next_timer st; emitted := emitted st; calls := calls st |}.

Definition with_awaitPong (t : option timer_id) (st : PlexSocket) : PlexSocket :=
  {| options := options st; shouldClose := shouldClose st; retries := retries st;
     socket := socket st; pinger := pinger st; awaitPong := t;
     listeners := listeners st; sockets := sockets st; timers := timers st;
     next_timer := next_timer st; emitted := emitted st; calls := calls st |}.

Definition with_listeners (ls : list string) (st : PlexSocket) : PlexSocket :=
  {| options := options st; shouldClose := shouldClose st; retries := retries st;
     socket := socket st; pinger := pinger st; awaitPong := awaitPong st;
     listeners := ls; sockets := sockets st; timers := timers st;
     next_timer := next_timer st; emitted := emitted st; calls := calls st |}.

Definition with_sockets (ss : list ReadyState) (st : PlexSocket) : PlexSocket :=
  {| options := options st; shouldClose := shouldClose st; retries := retries st;
     socket := socket st; pinger := pinger st; awaitPong := awaitPong st;
     listeners := listeners st; sockets := ss; timers := timers st;
     next_timer := next_timer st; emitted := emitted st; calls := calls st |}.

Definition with_timers (ts : list (timer_id * (Callback * Z))) (n : timer_id)
    (st : PlexSocket) : PlexSocket :=
  {| options := options st; shouldClose := shouldClose st; retries := retries st;
     socket := socket st; pinger := pinger st; awaitPong := awaitPong st;
     listeners := listeners st; sockets := sockets st; timers := ts;
     next_timer := n; emitted := emitted st; calls := calls st |}.

Definition log_event (ev : Event) (st : PlexSocket) : PlexSocket :=
  {| options := options st; shouldClose := shouldClose st; retries := retries st;
     socket := socket st; pinger := pinger st; awaitPong := awaitPong st;
     listeners := listeners st; sockets := sockets st; timers := timers st;
     next_timer := next_timer st; emitted := emitted st ++ [ev]; calls := calls st |}.

Definition log_call (c : Call) (st : PlexSocket) : PlexSocket :=
  {| options := options st; shouldClose := shouldClose st; retries := retries st;
     socket := socket st; pinger := pinger st; awaitPong := awaitPong st;
     listeners := listeners st; sockets := sockets st; timers := timers st;
     next_timer := next_timer st; emitted := emitted st; calls := calls st ++ [c] |}.

(** The fields of the object and the tables of the run-time, without the
    two logs and the listeners. *)
Definition core (st : PlexSocket)
  : bool * Z * option socket_id * option timer_id * option timer_id
    * list ReadyState * list (timer_id * (Callback * Z)) * timer_id :=
  (shouldClose st, retries st, socket st, pinger st, awaitPong st,
   sockets st, timers st, next_timer st).

(** [stable f m]: running [m] does not change the view [f] of the state,
    whether [m] returns or throws. *)
Definition stable {A B} (f : PlexSocket -> B) (m : M PlexSocket A) : Prop :=
  forall st, f (exec m st) = f st.

(** [keeps P m]: running [m] from a state in [P] ends in [P], whether [m]
    returns or throws. *)
Definition keeps {A} (P : PlexSocket -> Prop) (m : M PlexSocket A) : Prop :=
  forall st, P st -> P (exec m st).

(** *** The run-time: events, timers, sockets *)

Definition has_listener (name : string) (st : PlexSocket) : bool :=
  existsb (String.eqb name) (listeners st).

(** [EventEmitter.prototype.emit]: it answers whether the event had a
    listener, and an ['error'] event without a listener is thrown instead. *)
Definition emit (ev : Event) : M PlexSocket bool :=
  modify (log_event ev) ;;
  heard <- gets (has_listener (event_name ev)) ;;
  match ev with
  | EvError err => if heard : bool then ret true else throw err
  | _ => ret heard
  end.

Definition drop_timer (t : timer_id) (ts : list (timer_id * (Callback * Z)))
  : list (timer_id * (Callback * Z)) :=
  filter (fun e => fst e <> t) ts.

Definition setTimeout (cb : Callback) (delay : Z) : M PlexSocket timer_id :=
  t <- gets next_timer ;;
  ts <- gets timers ;;
  modify (with_timers (ts ++ [(t, (cb, delay))]) (S t)) ;;
  modify (log_call (SetTimeout cb delay t)) ;;
  ret t.

Definition clearTimeout (t : timer_id) : M PlexSocket unit :=
  ts <- gets timers ;;
  n <- gets next_timer ;;
  modify (with_timers (drop_timer t ts) n) ;;
  modify (log_call (ClearTimeout t)).

Definition set_readyState (s : socket_id) (r : ReadyState) : M PlexSocket unit :=
  ss <- gets sockets ;;
  modify (with_sockets (<[s := r]> ss)).

(** [socket.close()] and [socket.terminate()] start the closing of a socket
    that is not closed yet; its ['close'] event comes later. *)
Definition begin_closing (s : socket_id) : M PlexSocket unit :=
  ss <- gets sockets ;;
  match ss !! s with
  | Some CLOSED | None => ret tt
  | Some _ => set_readyState s CLOSING
  end.

(** [this.socket.m()] for a method [m]: a [TypeError] when [this.socket] is
    [null]. *)
Definition on_socket (method : string) (k : socket_id -> M PlexSocket unit)
  : M PlexSocket unit :=
  cur <- gets socket ;;
  match cur with
  | Some s => k s
  | None =>
      throw (TypeError ("Cannot read properties of null (reading '" ++ method ++ "')"))
  end.

(** *** The shape of the heartbeat *)

Definition is_heartbeat (e : timer_id * (Callback * Z)) : bool :=
  match e with
  | (_, (ConnectCallback, _)) => false
  | _ => true
  end.

Definition is_reconnect (e : timer_id * (Callback * Z)) : bool :=
  match e with
  | (_, (ConnectCallback, _)) => true
  | _ => false
  end.

Definition closing_or_open (r : ReadyState) : bool :=
  match r with OPEN | CLOSING => true | _ => false end.

(** What orderly runs maintain, on the timer table [ts], the next timer id
    [n], the two handles [p] and [a], and the sockets [ss]. *)
Record heartbeat_inv (ts : list (timer_id * (Callback * Z))) (n : timer_id)
    (p a : option timer_id) (ss : list ReadyState) : Prop := {
  (* at most one heartbeat timer is pending *)
  one_heartbeat : forall e1 e2,
    e1 ∈ ts -> e2 ∈ ts -> is_heartbeat e1 = true -> is_heartbeat e2 = true -> e1 = e2;
  (* and its handle is in the matching field *)
  ping_referenced : forall t d, (t, (PingCallback, d)) ∈ ts -> p = Some t;
  pong_referenced : forall t d, (t, (PongTimeoutCallback, d)) ∈ ts -> a = Some t;
  (* a handle whose timer is pending refers to a timer of its kind *)
  pinger_kind : forall t cb d, (t, (cb, d)) ∈ ts -> p = Some t -> cb = PingCallback;
  awaitPong_kind : forall t cb d,
    (t, (cb, d)) ∈ ts -> a = Some t -> cb = PongTimeoutCallback;
  (* timer ids are handed out in increasing order *)
  timers_fresh : forall t x, (t, x) ∈ ts -> (t < n)%nat;
  pinger_fresh : forall t, p = Some t -> (t < n)%nat;
  awaitPong_fresh : forall t, a = Some t -> (t < n)%nat;
  (* one live socket at most, none while a reconnect is pending *)
  one_live : forall s1 s2 r1 r2,
    ss !! s1 = Some r1 -> ss !! s2 = Some r2 ->
    is_live r1 = true -> is_live r2 = true -> s1 = s2;
  reconnect_alone : forall e s r,
    e ∈ ts -> is_reconnect e = true -> ss !! s = Some r -> is_live r = false;
  one_reconnect : forall e1 e2,
    e1 ∈ ts -> e2 ∈ ts -> is_reconnect e1 = true -> is_reconnect e2 = true -> e1 = e2;
  (* the heartbeat runs on an established socket *)
  heartbeat_socket : forall e,
    e ∈ ts -> is_heartbeat e = true ->
    exists s r, ss !! s = Some r /\ closing_or_open r = true
}.

Definition Inv (st : PlexSocket) : Prop :=
  heartbeat_inv (timers st) (next_timer st) (pinger st) (awaitPong st) (sockets st).

(** *** The methods of the class *)

Section Methods.
Context `{Builtins}.

(** [this.https] is never set, so the protocol is always [ws].  The
    template prints the hostname, then the port; either printing can
    throw. *)
Definition buildAddress (st : PlexSocket) : result string :=
  rbind (ToString (hostname (options st))) (fun host =>
  rbind (ToString (port (options st))) (fun port =>
  Ok ("ws://" ++ host ++ ":" ++ port ++ "/:/websockets/notifications")%string)).

Definition isReady (st : PlexSocket) : bool :=
  match socket st with
  | Some s =>
      match sockets st !! s with
      | Some OPEN => negb (shouldClose st)
      | _ => false
      end
  | None => false
  end.

Definition ping : M PlexSocket unit :=
  ready <- gets isReady ;;
  when ready
    (on_socket "ping" (fun s => modify (log_call (SocketPing s "Hi?"))) ;;
     delay <- gets (fun st => pingTimeout (options st)) ;;
     t <- setTimeout PongTimeoutCallback delay ;;
     modify (with_awaitPong (Some t))).

Definition onClose (code reason : CloseArg) : M PlexSocket unit :=
  p <- gets pinger ;;
  match p with
  | Some t => clearTimeout t ;; modify (with_pinger None)
  | None => ret tt
  end ;;
  a <- gets awaitPong ;;
  match a with
  | Some t => clearTimeout t ;; modify (with_awaitPong None)
  | None => ret tt
  end ;;
  closing <- gets shouldClose ;;
  if negb closing then
    delay <- gets (fun st => reconnectInterval (options st)) ;;
    _ <- setTimeout ConnectCallback delay ;;
    ret tt
  else
    _ <- emit (EvClose code reason) ;;
    ret tt.

Definition limit_reached (r : Z) (max : Limit) : bool :=
  match max with
  | Finite n => (n <=? r)%Z
  | Infinity => false
  end.

(** [connect()].  Whether [new WebSocket(...)] returns or throws is decided
    outside this class: [ctor] is [None] when it returns, [Some err] when it
    throws [err].  Its first argument, [this.buildAddress()], is evaluated
    inside the [try] as well: when that throws, the constructor is not
    called and the [catch] block runs on what was thrown. *)
Definition connect (ctor : option exn) : M PlexSocket unit :=
  r <- gets retries ;;
  modify (with_retries (r + 1)) ;;
  max <- gets (fun st => reconnectMaxRetries (options st)) ;;
  when (limit_reached r max) (_ <- emit (EvReconnectMaxRetries max) ;; ret tt) ;;
  built <- gets buildAddress ;;
  match built with
  | Throw err => onClose (CloseErr err) (CloseVal JUndefined) ;; throw err
  | Ok address =>
      tok <- gets (fun st => token (options st)) ;;
      modify (log_call (NewWebSocket address tok)) ;;
      match ctor with
      | Some err => onClose (CloseErr err) (CloseVal JUndefined) ;; throw err
      | None =>
          ss <- gets sockets ;;
          modify (with_sockets (ss ++ [CONNECTING])) ;;
          modify (with_socket (Some (length ss)))
          (* the seven [this.socket.on(...)] route the events of this socket
             to the handlers below: see [step] *)
      end
  end.

Definition close : M PlexSocket unit :=
  modify (with_shouldClose true) ;;
  on_socket "close" (fun s => modify (log_call (SocketClose s)) ;; begin_closing s) ;;
  modify (with_socket None).

Definition parseData (data : string) : M PlexSocket jsval :=
  match JSON_parse data with
  | Some v => ret v
  | None => heard <- emit (EvError (SyntaxError data)) ;; ret (JBool heard)
  end.

Definition onOpen (data : jsval) : M PlexSocket unit :=
  modify (with_retries 0) ;;
  _ <- emit (EvOpen data) ;;
  ping.

Definition onPing : M PlexSocket unit :=
  ready <- gets isReady ;;
  when ready (on_socket "pong" (fun s => modify (log_call (SocketPong s "Hi!")))).

Definition onPong : M PlexSocket unit :=
  a <- gets awaitPong ;;
  match a with
  | Some t => clearTimeout t
  | None => ret tt
  end ;;
  delay <- gets (fun st => pingInterval (options st)) ;;
  t <- setTimeout PingCallback delay ;;
  modify (with_pinger (Some t)) ;;
  _ <- emit EvPong ;;
  ret tt.

(** [notification(payload)]: [!!payload && payload['NotificationContainer']] *)
Definition notification (payload : jsval) : result jsval :=
  if ToBoolean payload then js_field payload "NotificationContainer"
  else Ok (JBool false).

Definition onPlaying (notif : jsval) : M PlexSocket unit :=
  payload <- lift (js_field notif "PlaySessionStateNotification") ;;
  nonempty <- lift (if ToBoolean payload
                    then rbind (js_field payload "length") (fun n => Ok (ToBoolean n))
                    else Ok false) ;;
  if nonempty : bool then
    match payload with
    | JArr entries =>
        forEach (fun playingNotif =>
                   state <- lift (js_field playingNotif "state") ;;
                   _ <- emit (EvPlaying state playingNotif) ;;
                   ret tt) entries
    | _ => throw (TypeError "payload.forEach is not a function")
    end
  else
    _ <- emit (EvError (Error
           "expected playing notification to have PlaySessionStateNotification")) ;;
    ret tt.

Definition onNotification (notif : jsval) : M PlexSocket unit :=
  _ <- emit (EvNotification notif) ;;
  type <- lift (js_field notif "type") ;;
  when (js_strict_eq type (JStr "playing")) (onPlaying notif).

Definition onMessage (data : string) : M PlexSocket unit :=
  payload <- parseData data ;;
  when (ToBoolean payload)
    (_ <- emit (EvMessage payload) ;;
     notif <- lift (notification payload) ;;
     when (ToBoolean notif) (onNotification notif)).

Definition onUnexpectedResponse (req res : jsval) : M PlexSocket unit :=
  unauthorized <- lift (if ToBoolean res
                        then rbind (js_field res "statusCode") (fun c =>
                               js_loose_eq (Data c) (Data (JNum (number_of_Z 401))))
                        else Ok false) ;;
  if unauthorized : bool then _ <- emit EvUnauthorized ;; ret tt
  else _ <- emit (EvUnexpectedResponse req res) ;; ret tt.

Definition onError (err : exn) : M PlexSocket unit :=
  _ <- emit (EvError err) ;; ret tt.

(** The body of the pong-timeout callback. *)
Definition pongTimeout : M PlexSocket unit :=
  _ <- emit EvPongTimeout ;;
  on_socket "terminate" (fun s => modify (log_call (SocketTerminate s)) ;; begin_closing s).

(** The constructor. *)
Definition new_PlexSocket (o : Options) (ctor : option exn) : PlexSocket * result unit :=
  let this :=
    {| options := o; shouldClose := false; retries := 0; socket := None;
       pinger := None; awaitPong := None;
       listeners := []; sockets := []; timers := []; next_timer := 0%nat;
       emitted := []; calls := [] |} in
  when (autoConnect o) (connect ctor) this.

(** *** What happens to the object *)

Inductive Input : Type :=
| CallConnect (ctor : option exn)               (* plex.connect()                *)
| CallClose                                     (* plex.close()                  *)
| CallOn (name : string)                        (* plex.on(name, listener)       *)
| SocketOpens (s : socket_id) (data : jsval)
| SocketPinged (s : socket_id)
| SocketPonged (s : socket_id)
| SocketMessage (s : socket_id) (data : string)
| SocketError (s : socket_id) (err : exn)
| SocketUnexpected (s : socket_id) (req res : jsval)
| SocketCloses (s : socket_id) (code reason : jsval)
| TimerFires (t : timer_id) (ctor : option exn).

Definition run_callback (cb : Callback) (ctor : option exn) : M PlexSocket unit :=
  match cb with
  | PingCallback => ping
  | PongTimeoutCallback => pongTimeout
  | ConnectCallback => connect ctor
  end.

(** A pending timer fires: it leaves the table and its callback runs. *)
Definition fire (t : timer_id) (ctor : option exn) : M PlexSocket unit :=
  ts <- gets timers ;;
  n <- gets next_timer ;;
  match list_find (fun e => fst e = t) ts with
  | Some (_, (_, (cb, _))) =>
      modify (with_timers (drop_timer t ts) n) ;;
      run_callback cb ctor
  | None => ret tt
  end.

Definition handle (i : Input) : M PlexSocket unit :=
  match i with
  | CallConnect ctor => connect ctor
  | CallClose => close
  | CallOn name =>
      ls <- gets listeners ;;
      modify (with_listeners (name :: ls))
  | SocketOpens s data => set_readyState s OPEN ;; onOpen data
  | SocketPinged _ => onPing
  | SocketPonged _ => onPong
  | SocketMessage _ data => onMessage data
  | SocketError _ err => onError err
  | SocketUnexpected _ req res => onUnexpectedResponse req res
  | SocketCloses s code reason =>
      set_readyState s CLOSED ;; onClose (CloseVal code) (CloseVal reason)
  | TimerFires t ctor => fire t ctor
  end.

(** One step: the state the handler leaves, thrown or not. *)
Definition step (i : Input) (st : PlexSocket) : PlexSocket := exec (handle i) st.

Definition run (inputs : list Input) (st : PlexSocket) : PlexSocket :=
  fold_left (fun st i => step i st) inputs st.

Definition timer_pending (t : timer_id) (st : PlexSocket) : bool :=
  existsb (Nat.eqb t) (map fst (timers st)).

Definition readyState_is (s : socket_id) (r : ReadyState -> bool) (st : PlexSocket) : bool :=
  match sockets st !! s with
  | Some x => r x
  | None => false
  end.

(** What the sockets and the timer queue can do in a state: a socket opens
    while connecting, speaks while open, closes once; only a pending timer
    fires. *)
Definition enabled (i : Input) (st : PlexSocket) : bool :=
  match i with
  | CallConnect _ | CallClose | CallOn _ => true
  | SocketOpens s _ => readyState_is s is_connecting st
  | SocketPinged s | SocketPonged s | SocketMessage s _ => readyState_is s is_open st
  | SocketError s _ => readyState_is s is_live st
  | SocketUnexpected s _ _ => readyState_is s is_connecting st
  | SocketCloses s _ _ => readyState_is s is_live st
  | TimerFires t _ => timer_pending t st
  end.

(** The states a transport built with options [o] can be in. *)
Inductive reachable (o : Options) : PlexSocket -> Prop :=
| reachable_new ctor : reachable o (fst (new_PlexSocket o ctor))
| reachable_step st i :
    reachable o st -> enabled i st = true -> reachable o (step i st).

(** A ['playing'] event carries an entry of the list and the [state] read
    from that entry. *)
Definition well_formed_event (ev : Event) : Prop :=
  match ev with
  | EvPlaying state playingNotif => js_field playingNotif "state" = Ok state
  | _ => True
  end.

Definition events_well_formed (st : PlexSocket) : Prop :=
  Forall well_formed_event (emitted st).

(** The timer a handle refers to is still pending. *)
Definition handle_pending (h : option timer_id) (st : PlexSocket) : bool :=
  match h with
  | Some t => timer_pending t st
  | None => false
  end.

Definition pinger_active (st : PlexSocket) : bool := handle_pending (pinger st) st.
Definition awaitPong_active (st : PlexSocket) : bool := handle_pending (awaitPong st) st.

Definition both_active (st : PlexSocket) : bool :=
  pinger_active st && awaitPong_active st.

(** A run is orderly when the peer and the caller keep to the protocol: a
    pong arrives only while the pong-timeout timer is pending (it answers
    an outstanding ping), and [connect()] is called from outside only when
    no socket is live and no reconnect is pending. *)
Definition expected (i : Input) (st : PlexSocket) : bool :=
  match i with
  | SocketPonged _ => awaitPong_active st
  | CallConnect _ =>
      forallb (fun r => negb (is_live r)) (sockets st)
      && forallb (fun e => negb (is_reconnect e)) (timers st)
  | _ => true
  end.

Inductive orderly (o : Options) : PlexSocket -> Prop :=
| orderly_new ctor : orderly o (fst (new_PlexSocket o ctor))
| orderly_step st i :
    orderly o st -> enabled i st = true -> expected i st = true ->
    orderly o (step i st).

(** [if (h) clearTimeout(h)] on the timer table. *)
Definition drop_handle (h : option timer_id) (ts : list (timer_id * (Callback * Z)))
  : list (timer_id * (Callback * Z)) :=
  match h with
  | Some t => drop_timer t ts
  | None => ts
  end.

(** The timers a sequence of calls has set, in order. *)
Definition timeouts_set (cs : list Call) : list (Callback * Z) :=
  omap (fun c => match c with
                 | SetTimeout cb delay _ => Some (cb, delay)
                 | _ => None
                 end) cs.

End Methods.

End Transport.

(** ** Views of the states, for the statements below *)

Module Views.
Import JS Eff.

Section ProcessorViews.
Context `{Builtins}.

(** The last statement of the [then] callback:
    [if (state === 'stopped') sessions.delete(sessionKey)]. *)
Definition finish (state sessionKey : jsval) (w : Processor.World) : Processor.World :=
  if js_strict_eq state (JStr "stopped") then Processor.store_delete sessionKey w else w.

End ProcessorViews.

Section TransportViews.
Context `{Builtins}.
Import Transport.

(** A sequence of [emit] calls, as it shows in the state. *)
Definition log_events (evs : list Event) (st : PlexSocket) : PlexSocket :=
  fold_left (fun st ev => log_event ev st) evs st.

(** [playingNotif.state] of an entry that is not [null]. *)
Definition entry_state (entry : jsval) : jsval :=
  match js_field entry "state" with
  | Ok state => state
  | Throw _ => JUndefined
  end.

(** One ['playing'] event per entry, in the order of the list. *)
Definition playing_events (entries : list jsval) : list Event :=
  map (fun entry => EvPlaying (entry_state entry) entry) entries.

Definition absent (v : jsval) : bool :=
  match v with JUndefined | JNull => true | _ => false end.

(** The frames this class sends: [socket.ping] and [socket.pong]. *)
Definition is_frame (c : Call) : bool :=
  match c with
  | SocketPing _ _ | SocketPong _ _ => true
  | _ => false
  end.

Definition frames_sent (cs : list Call) : list Call := List.filter is_frame cs.

(** The address every socket is built with. *)
Definition address_of (o : Options) : result string :=
  rbind (ToString (hostname o)) (fun host =>
  rbind (ToString (port o)) (fun port =>
  Ok ("ws://" ++ host ++ ":" ++ port ++ "/:/websockets/notifications")%string)).

(** A call that uses the options as configured: the socket goes to the
    address above with the configured token, and each timer is set with
    the delay its callback belongs to. *)
Definition call_configured (o : Options) (c : Call) : Prop :=
  match c with
  | NewWebSocket address tok => address_of o = Ok address /\ tok = token o
  | SetTimeout PingCallback delay _ => delay = pingInterval o
  | SetTimeout PongTimeoutCallback delay _ => delay = pingTimeout o
  | SetTimeout ConnectCallback delay _ => delay = reconnectInterval o
  | _ => True
  end.

(** ['reconnect-max-retries'] carries the configured ceiling, which is then
    a number. *)
Definition event_configured (o : Options) (ev : Event) : Prop :=
  match ev with
  | EvReconnectMaxRetries max =>
      max = reconnectMaxRetries o /\ exists n, max = Finite n
  | _ => True
  end.

Definition configured (o : Options) (st : PlexSocket) : Prop :=
  options st = o /\
  Forall (call_configured o) (calls st) /\
  Forall (event_configured o) (emitted st).

(** [options] with another [secure]. *)
Definition with_secure (b : bool) (o : Options) : Options :=
  {| hostname := hostname o; port := port o; token := token o; secure := b;
     pingInterval := pingInterval o; pingTimeout := pingTimeout o;
     reconnectInterval := reconnectInterval o;
     reconnectMaxRetries := reconnectMaxRetries o; autoConnect := autoConnect o |}.

End TransportViews.

Section PipelineViews.
Context `{Builtins}.

(** [this.plex.on('playing', listener)] in [begin]: of the events of the
    transport, the node's listener hears the ['playing'] ones, with the two
    arguments of the event. *)
Definition hears (node : FilterEngine.PlayingNode) (ev : Transport.Event)
    (fetched : Processor.Fetched) : M Processor.World unit :=
  match ev with
  | Transport.EvPlaying state notification =>
      Processor.onPlaying node state notification fetched
  | _ => ret tt
  end.

End PipelineViews.

End Views.

(** ** A concrete run-time for the examples *)

Module Samples.
Import JS.

(** The integer a number denotes, when it denotes one. *)
Definition Z_of_number (n : number) : option Z :=
  match n with
  | S754_zero _ => Some 0
  | S754_finite s m e =>
      if (0 <=? e)%Z then Some (cond_Zopp s (Zpos m * 2 ^ e))
      else if (Zpos m mod 2 ^ (- e) =? 0)%Z then Some (cond_Zopp s (Zpos m / 2 ^ (- e)))
      else None
  | _ => None
  end.

Definition print_number (n : number) : string :=
  match n with
  | S754_nan => "NaN"
  | S754_infinity false => "Infinity"
  | S754_infinity true => "-Infinity"
  | _ => match Z_of_number n with
         | Some z => pretty z
         | None => "NaN"
         end
  end.

Definition read_number (s : string) : number :=
  match s with
  | EmptyString => S754_zero false
  | String "-" s' =>
      match s' with
      | EmptyString => NaN
      | _ => match digits_value s' 0 with
             | Some n => SFopp (number_of_Z (Z.of_nat n))
             | None => NaN
             end
      end
  | _ => match digits_value s 0 with
         | Some n => number_of_Z (Z.of_nat n)
         | None => NaN
         end
  end.

Definition parse_scalar (s : string) : option jsval :=
  if (s =? "true")%string then Some (JBool true)
  else if (s =? "false")%string then Some (JBool false)
  else if (s =? "null")%string then Some JNull
  else match s with
       | EmptyString => None
       | _ => match digits_value s 0 with
              | Some n => Some (JNum (number_of_Z (Z.of_nat n)))
              | None => None
              end
       end.

(** The part of the library that the examples reach: the members of
    [Object.prototype], on which every chain ends, with the [toString],
    [valueOf] and [toLocaleString] that the other prototypes put before
    them; the constructor and the prototype of each kind; and what a
    function of the library holds under [name], [length], [prototype],
    [constructor] and the like, its [caller] and [arguments] being getters
    that throw.  An object is known by its path from the global object. *)
Definition constructor_name (kd : kind) : string :=
  match kd with
  | KObject => "Object"
  | KArray => "Array"
  | KString => "String"
  | KNumber => "Number"
  | KBoolean => "Boolean"
  end.

Definition object_prototype_methods : list string :=
  ["__defineGetter__"; "__defineSetter__"; "hasOwnProperty"; "__lookupGetter__";
   "__lookupSetter__"; "isPrototypeOf"; "propertyIsEnumerable"; "toString"; "valueOf";
   "toLocaleString"].

(** The conversions a prototype defines for itself. *)
Definition own_conversions (kd : kind) : list string :=
  match kd with
  | KObject => ["toString"; "valueOf"; "toLocaleString"]
  | KArray => ["toString"; "toLocaleString"]
  | KString => ["toString"; "valueOf"]
  | KNumber => ["toString"; "valueOf"; "toLocaleString"]
  | KBoolean => ["toString"; "valueOf"]
  end.

Definition member (k : string) (names : list string) : bool :=
  existsb (String.eqb k) names.

Definition sample_inherited (kd : kind) (k : string) : option jsany :=
  if (k =? "constructor")%string then Some (Builtin (constructor_name kd))
  else if (k =? "__proto__")%string
  then Some (Builtin (constructor_name kd ++ ".prototype"))
  else if member k (own_conversions kd)
  then Some (Builtin (constructor_name kd ++ ".prototype." ++ k))
  else if member k object_prototype_methods
  then Some (Builtin ("Object.prototype." ++ k))
  else None.

Definition last_part (path : string) : string :=
  List.last (split_on "." path) EmptyString.

Definition kind_named (name : string) : option kind :=
  if (name =? "Object")%string then Some KObject
  else if (name =? "Array")%string then Some KArray
  else if (name =? "String")%string then Some KString
  else if (name =? "Number")%string then Some KNumber
  else if (name =? "Boolean")%string then Some KBoolean
  else None.

(** The prototype a path names, if it names one. *)
Definition prototype_named (b : string) : option kind :=
  match split_on "." b with
  | [name; "prototype"] => kind_named name
  | _ => None
  end.

Definition arity (name : string) : Z :=
  if member name ["toString"; "valueOf"; "toLocaleString"] then 0
  else if member name ["__defineGetter__"; "__defineSetter__"; "apply"] then 2
  else 1.

Definition function_member (b k : string) : result jsany :=
  if member k ["caller"; "arguments"]
  then Throw (TypeError "'caller', 'callee', and 'arguments' properties may not be accessed on strict mode functions or the arguments objects for calls to them")
  else if (k =? "name")%string then Ok (Data (JStr (last_part b)))
  else if (k =? "length")%string then Ok (Data (JNum (number_of_Z (arity (last_part b)))))
  else if (k =? "prototype")%string
  then Ok (match kind_named b with
           | Some _ => Builtin (b ++ ".prototype")
           | None => Data JUndefined
           end)
  else if (k =? "constructor")%string then Ok (Builtin "Function")
  else if (k =? "__proto__")%string then Ok (Builtin "Function.prototype")
  else if member k ["call"; "apply"; "bind"; "toString"]
  then Ok (Builtin ("Function.prototype." ++ k))
  else if member k object_prototype_methods then Ok (Builtin ("Object.prototype." ++ k))
  else Ok (Data JUndefined).

Definition sample_builtin_get (b k : string) : result jsany :=
  match prototype_named b with
  | Some kd =>
      if (k =? "__proto__")%string
      then Ok (match kd with
               | KObject => Data JNull
               | _ => Builtin "Object.prototype"
               end)
      else Ok (default (Data JUndefined) (sample_inherited kd k))
  | None => function_member b k
  end.

Definition sample_builtin_primitive (b : string) : result prim :=
  match prototype_named b with
  | Some KObject => Ok (PStr "[object Object]")
  | Some KArray | Some KString => Ok (PStr "")
  | Some KNumber => Ok (PNum (S754_zero false))
  | Some KBoolean => Ok (PBool false)
  | None => Ok (PStr ("function " ++ last_part b ++ "() { [native code] }")%string)
  end.

Definition sample_builtin_text (b : string) : result string :=
  match prototype_named b with
  | Some KObject => Ok "[object Object]"
  | Some KArray | Some KString => Ok ""
  | Some KNumber => Ok "0"
  | Some KBoolean => Ok "false"
  | None => Ok ("function " ++ last_part b ++ "() { [native code] }")%string
  end.

(** Built-ins for the closed examples of this file.  They agree with the
    language on what the examples feed them: integers are read and printed
    in decimal, a text that is no number reads as NaN, and of all frames
    only the scalar literals parse (every other text, the truncated frame
    ["{"] included, is a syntax error). *)
#[export] Instance sample_builtins : Builtins := {|
  StringToNumber := read_number;
  NumberToString := print_number;
  JSON_parse := parse_scalar;
  inherited := sample_inherited;
  builtin_get := sample_builtin_get;
  builtin_primitive := sample_builtin_primitive;
  builtin_text := sample_builtin_text
|}.

(** Filters and sessions of the examples. *)
Definition by_player_state : FilterEngine.Filter :=
  {| FilterEngine.key := "Player.state"; FilterEngine.value := JStr "playing";
     FilterEngine.valueType := "str"; FilterEngine.operator := "eq";
     FilterEngine.idx := 1 |}.

Definition by_offset : FilterEngine.Filter :=
  {| FilterEngine.key := "viewOffset"; FilterEngine.value := JStr "3";
     FilterEngine.valueType := "num"; FilterEngine.operator := "lt";
     FilterEngine.idx := 0 |}.

Definition by_bitrate : FilterEngine.Filter :=
  {| FilterEngine.key := "bitrate"; FilterEngine.value := JNum (number_of_Z 3);
     FilterEngine.valueType := "num"; FilterEngine.operator := "lte";
     FilterEngine.idx := 0 |}.

Definition session_playing : jsval :=
  JObj [("Player", JObj [("state", JStr "playing")]); ("viewOffset", JStr "12")].

Definition session_without_player : list (string * jsval) :=
  [("prevState", JStr "paused")].

Definition session_odd_bitrate : jsval := JObj [("bitrate", JStr "n/a")].

(** A filter on a nested field under [num], one on a name that every
    object inherits, and one on a title; a session whose title is an
    object with a field [toString] of its own. *)
Definition by_player_bitrate : FilterEngine.Filter :=
  {| FilterEngine.key := "Player.bitrate"; FilterEngine.value := JNum (number_of_Z 3);
     FilterEngine.valueType := "num"; FilterEngine.operator := "lt";
     FilterEngine.idx := 0 |}.

Definition by_constructor : FilterEngine.Filter :=
  {| FilterEngine.key := "constructor"; FilterEngine.value := JStr "undefined";
     FilterEngine.valueType := "str"; FilterEngine.operator := "eq";
     FilterEngine.idx := 0 |}.

Definition by_title : FilterEngine.Filter :=
  {| FilterEngine.key := "title"; FilterEngine.value := JStr "Alien";
     FilterEngine.valueType := "str"; FilterEngine.operator := "eq";
     FilterEngine.idx := 0 |}.

Definition session_odd_title : jsval :=
  JObj [("title", JObj [("toString", JNum (number_of_Z 1))])].

(** A filter whose key leaves the data on its first part and comes back to
    it on the second: the name of the constructor of the session. *)
Definition by_constructor_name : FilterEngine.Filter :=
  {| FilterEngine.key := "constructor.name"; FilterEngine.value := JStr "Object";
     FilterEngine.valueType := "str"; FilterEngine.operator := "eq";
     FilterEngine.idx := 0 |}.

Definition record_playing : list (string * jsval) :=
  [("Player", JObj [("state", JStr "playing")]); ("prevState", JStr "playing")].

Definition record_paused : list (string * jsval) :=
  [("Player", JObj [("state", JStr "playing")]); ("prevState", JStr "paused")].

Definition record_buffering : list (string * jsval) :=
  [("Player", JObj [("state", JStr "buffering")])].

(** A record that says [stopped] already and has no [Player] field: the
    filter on [Player.state] would throw on it. *)
Definition record_stopped_without_player : list (string * jsval) :=
  [("prevState", JStr "stopped")].

Definition sample_options : Transport.Options :=
  {| Transport.hostname := JStr "plex.local";
     Transport.port := JNum (number_of_Z 32400);
     Transport.token := JStr "secret";
     Transport.secure := false;
     Transport.pingInterval := 10000;
     Transport.pingTimeout := 5000;
     Transport.reconnectInterval := 10000;
     Transport.reconnectMaxRetries := Transport.Finite 3;
     Transport.autoConnect := true |}.

(** A transport just built, its first socket still connecting. *)
Definition fresh_transport : Transport.PlexSocket :=
  fst (Transport.new_PlexSocket sample_options None).

(** The same with an ['error'] listener and the socket open. *)
Definition listening_transport : Transport.PlexSocket :=
  Transport.run [Transport.CallOn "error"; Transport.SocketOpens 0%nat JUndefined]
    fresh_transport.



(** Two responses to the upgrade request: one refused, one that asks for
    the token, with its status code as a text. *)
Definition response_forbidden : jsval :=
  JObj [("statusCode", JNum (number_of_Z 403))].

Definition response_unauthorized : jsval := JObj [("statusCode", JStr "401")].


(** A heartbeat round: the socket opens, the ping is answered, the ping
    timer fires. *)
Definition beating_transport : Transport.PlexSocket :=
  Transport.run [Transport.SocketOpens 0%nat JUndefined; Transport.SocketPonged 0%nat;
                 Transport.TimerFires 1%nat None]
    fresh_transport.

(** The same with a second pong that answers no ping. *)
Definition overlapping_transport : Transport.PlexSocket :=
  Transport.run [Transport.SocketOpens 0%nat JUndefined; Transport.SocketPonged 0%nat;
                 Transport.SocketPonged 0%nat; Transport.TimerFires 1%nat None]
    fresh_transport.

(** A caller that connects again while a socket is open, twice; each pong
    answers a ping. *)
Definition reconnected_transport : Transport.PlexSocket :=
  Transport.run [Transport.SocketOpens 0%nat JUndefined; Transport.CallConnect None;
                 Transport.SocketOpens 1%nat JUndefined; Transport.SocketPonged 1%nat;
                 Transport.CallConnect None; Transport.SocketOpens 2%nat JUndefined]
    fresh_transport.

Definition notification_of (state : string) : jsval :=
  JObj [("sessionKey", JStr "7"); ("state", JStr state)].

(** A store that holds one session, under the key ["7"]. *)
Definition world_of (record : list (string * jsval)) : Processor.World :=
  {| Processor.heap := {[ 0%nat := record ]};
     Processor.sessions := {[ "7" := 0%nat ]};
     Processor.deleted := [];
     Processor.sent := [];
     Processor.warnings := [] |}.

(** A playing notification as the server sends it, and its frame. *)
Definition playing_entry : jsval :=
  JObj [("sessionKey", JStr "7"); ("state", JStr "playing")].

Definition playing_container : jsval :=
  JObj [("type", JStr "playing"); ("PlaySessionStateNotification", JArr [playing_entry])].

Definition playing_payload : jsval := JObj [("NotificationContainer", playing_container)].

Definition quoted (s : string) : string :=
  String "034" EmptyString ++ s ++ String "034" EmptyString.

Definition playing_frame : string :=
  "{" ++ quoted "NotificationContainer" ++ ":{"
      ++ quoted "type" ++ ":" ++ quoted "playing" ++ ","
      ++ quoted "PlaySessionStateNotification" ++ ":[{"
      ++ quoted "sessionKey" ++ ":" ++ quoted "7" ++ ","
      ++ quoted "state" ++ ":" ++ quoted "playing" ++ "}]}}".

(** A notification of another type, and its frame. *)
Definition status_container : jsval :=
  JObj [("type", JStr "status"); ("size", JNum (number_of_Z 1))].

Definition status_payload : jsval := JObj [("NotificationContainer", status_container)].

Definition status_frame : string :=
  "{" ++ quoted "NotificationContainer" ++ ":{"
      ++ quoted "type" ++ ":" ++ quoted "status" ++ ","
      ++ quoted "size" ++ ":1}}".

(** The built-ins above, with a [JSON.parse] that also reads these two
    frames. *)
Definition parse_frames (s : string) : option jsval :=
  if (s =? playing_frame)%string then Some playing_payload
  else if (s =? status_frame)%string then Some status_payload
  else parse_scalar s.

Definition frames_builtins : Builtins :=
  {| StringToNumber := read_number;
     NumberToString := print_number;
     JSON_parse := parse_frames;
     inherited := sample_inherited;
     builtin_get := sample_builtin_get;
     builtin_primitive := sample_builtin_primitive;
     builtin_text := sample_builtin_text |}.

(** The transport after that frame came in. *)
Definition notified_transport : Transport.PlexSocket :=
  Transport.run (H := frames_builtins)
    [Transport.SocketOpens 0%nat JUndefined; Transport.SocketMessage 0%nat playing_frame]
    fresh_transport.

(** A filter whose operator is none of the six, and one on a top-level
    field. *)
Definition by_title_contains : FilterEngine.Filter :=
  {| FilterEngine.key := "title"; FilterEngine.value := JStr "Alien";
     FilterEngine.valueType := "str"; FilterEngine.operator := "contains";
     FilterEngine.idx := 2 |}.

Definition by_user_name : FilterEngine.Filter :=
  {| FilterEngine.key := "user"; FilterEngine.value := JStr "undefined";
     FilterEngine.valueType := "str"; FilterEngine.operator := "eq";
     FilterEngine.idx := 3 |}.

Definition session_titled : jsval :=
  JObj [("title", JStr "Alien"); ("Player", JObj [("state", JStr "playing")])].

End Samples.

(** * Properties *)

(** ** Facts about values *)

Module JSFacts.
Import JS.

Lemma SFcompare_nan_r (x : number) : SFcompare x NaN = None.
Proof. destruct x; reflexivity. Qed.

Lemma SFcompare_nan_l (x : number) : SFcompare NaN x = None.
Proof. reflexivity. Qed.

Lemma is_nan_eq (n : number) : is_nan n = true -> n = NaN.
Proof. destruct n; simpl; intros; try discriminate; reflexivity. Qed.

Lemma js_and_bool (a b : bool) `{Builtins} :
  js_and (JBool a) (JBool b) = JBool (a && b).
Proof. destruct a; reflexivity. Qed.

Section Reads.
Context `{Builtins}.

Lemma own_property_field (v : jsval) (k : string) :
  FilterEngine.nullish v = false ->
  js_field v k = Ok (default JUndefined (own_property v k)).
Proof.
  destruct v; try discriminate; intros _; simpl; try reflexivity.
  - destruct (k =? "length")%string; [reflexivity |].
    destruct (index_of_key k) as [i |]; [| reflexivity].
    unfold string_at. by destruct (String.get i s).
  - destruct (k =? "length")%string; [reflexivity |].
    destruct (index_of_key k) as [i |]; [| reflexivity].
    by rewrite nth_lookup.
Qed.

(** A read that stays in the data gives the own property, or
    [undefined]. *)
Lemma js_get_plain (v : jsval) (k : string) :
  FilterEngine.plain_read v k ->
  js_get (Data v) k = Ok (Data (FilterEngine.spec_field v k)).
Proof.
  intros [Hv Hk]. unfold FilterEngine.spec_field.
  destruct (own_property v k) as [x |] eqn:Hown.
  - destruct v; try discriminate; unfold js_get; by rewrite Hown.
  - destruct Hk as [[x Hx] | Hk]; [congruence |].
    destruct v; try discriminate; unfold js_get; rewrite Hown; simpl;
      by rewrite (Hk _ eq_refl).
Qed.

(** For a key that the library does not have, the general read is the read
    of the data. *)
Lemma js_get_field (v : jsval) (k : string) :
  (forall kd, inherited kd k = None) ->
  js_get (Data v) k = rbind (js_field v k) (fun x => Ok (Data x)).
Proof.
  intros Hk. destruct (FilterEngine.nullish v) eqn:Hv.
  - by destruct v.
  - rewrite (js_get_plain v k), (own_property_field _ _ Hv); [reflexivity |].
    split; [exact Hv |]. right. intros kd _. apply Hk.
Qed.

Lemma prints_primitive (v : jsval) :
  FilterEngine.prints v -> exists p, ToPrimitive v = Ok p.
Proof.
  intros [s Hs]. destruct v; unfold ToPrimitive; eauto; rewrite Hs; simpl; eauto.
Qed.

End Reads.

(** The keys written in the text of the transport and of the listener are
    no names of the library's prototypes: on them the general read is the
    read of the data. *)
Lemma written_keys_read_data (v : jsval) (k : string) :
  k ∈ ["NotificationContainer"; "type"; "PlaySessionStateNotification"; "length";
       "state"; "statusCode"; "sessionKey"; "prevState"] ->
  js_get (H := Samples.sample_builtins) (Data v) k
  = rbind (js_field v k) (fun x => Ok (Data x)).
Proof.
  intros Hk. apply js_get_field. intros kd.
  apply list_elem_of_In in Hk. simpl in Hk.
  repeat (destruct Hk as [<- | Hk]; [destruct kd; reflexivity |]).
  destruct Hk.
Qed.

End JSFacts.

(** ** The filter evaluation *)

Module FilterEngineProps.
Import JS FilterEngine JSFacts Samples.

(** *** The constructor's sort *)

Lemma compareIdx_pos (a b : Filter) :
  (compareIdx a b >? 0)%Z = true <-> (idx b < idx a)%Z.
Proof.
  unfold compareIdx.
  destruct (Z.gtb_spec (idx a) (idx b)) as [Hgt | Hle].
  - split; [lia | reflexivity].
  - destruct (Z.ltb_spec (idx a) (idx b)); split; simpl; intros; try discriminate; lia.
Qed.

Section SortFacts.
Context {A : Type} (cmp : A -> A -> Z).

Lemma sort_insert_perm (x : A) (l : list A) : sort_insert cmp x l ≡ₚ x :: l.
Proof.
  induction l as [| y l IH]; simpl; [reflexivity |].
  destruct (cmp x y >? 0)%Z; [| reflexivity].
  rewrite IH. apply Permutation_swap.
Qed.

Lemma Array_sort_perm (l : list A) : Array_sort cmp l ≡ₚ l.
Proof.
  induction l as [| x l IH]; simpl; [reflexivity |].
  rewrite sort_insert_perm. by rewrite IH.
Qed.

End SortFacts.

Lemma sort_insert_sorted (f : Filter) (l : list Filter) :
  StronglySorted idx_le l -> StronglySorted idx_le (sort_insert compareIdx f l).
Proof.
  induction 1 as [| g l Hl IH Hg]; simpl.
  - repeat constructor.
  - destruct (compareIdx f g >? 0)%Z eqn:Hc.
    + apply compareIdx_pos in Hc.
      constructor; [exact IH |].
      rewrite (sort_insert_perm compareIdx f l).
      constructor; [unfold idx_le; lia | exact Hg].
    + assert (idx f <= idx g)%Z as Hfg.
      { destruct (Z.le_gt_cases (idx f) (idx g)) as [| Hlt]; [assumption |].
        apply compareIdx_pos in Hlt. congruence. }
      constructor; [by constructor |].
      constructor; [exact Hfg |].
      eapply Forall_impl; [exact Hg |]. unfold idx_le. intros; simpl in *; lia.
Qed.

Lemma Array_sort_sorted (l : list Filter) :
  StronglySorted idx_le (Array_sort compareIdx l).
Proof.
  induction l as [| f l IH]; simpl; [constructor | by apply sort_insert_sorted].
Qed.

(** The sort is stable: filters with the same [idx] keep their order. *)
Lemma sort_insert_stable (i : Z) (f : Filter) (l : list Filter) :
  filter (fun g => idx g = i) (sort_insert compareIdx f l)
  = filter (fun g => idx g = i) (f :: l).
Proof.
  induction l as [| g l IH]; [reflexivity |].
  simpl. destruct (compareIdx f g >? 0)%Z eqn:Hc; [| reflexivity].
  apply compareIdx_pos in Hc.
  rewrite filter_cons, IH, !filter_cons.
  repeat case_decide; try reflexivity; lia.
Qed.

Lemma Array_sort_stable (i : Z) (l : list Filter) :
  filter (fun g => idx g = i) (Array_sort compareIdx l)
  = filter (fun g => idx g = i) l.
Proof.
  induction l as [| f l IH]; [reflexivity |].
  simpl. rewrite sort_insert_stable, !filter_cons, IH. reflexivity.
Qed.

(** *** The walk along the key *)

Section MatchFacts.
Context `{Builtins}.

Lemma walk_plain (v : jsval) (ks : list string) :
  plain_along v ks -> walk (Data v) ks = Ok (Data (fold_left spec_field ks v)).
Proof.
  revert v. induction ks as [| k ks IH]; intros v Hp; [reflexivity |].
  destruct Hp as [Hread Hp]. cbn [walk fold_left].
  rewrite (js_get_plain _ _ Hread). cbn [rbind]. by apply IH.
Qed.

Lemma compare_known (op : string) (o : Operator) (l r : jsval) :
  operator_of op = Some o ->
  compare op (Data l) (Data r) = rbind (spec_apply o l r) (fun b => Ok (JBool b)).
Proof.
  unfold operator_of, compare.
  repeat match goal with
         | |- context [String.eqb op ?s] => destruct (String.eqb op s)
         end; intros [= <-]; try reflexivity.
  unfold spec_apply. by destruct (js_loose_eq (Data l) (Data r)).
Qed.

Lemma coerce_spec (vt : string) (v : jsval) :
  coerce vt (Data v) = rbind (spec_coerce (valueType_of vt) v) (fun x => Ok (Data x)).
Proof.
  unfold coerce, valueType_of.
  repeat match goal with
         | |- context [String.eqb vt ?s] => destruct (String.eqb vt s)
         end; simpl; try reflexivity.
  - by destruct (ToString v).
  - unfold js_Number, ToNumber. simpl. by destruct (ToPrimitive v).
Qed.

(** What a value is coerced to has a string representation, and is made
    primitive without throwing. *)
Lemma spec_coerce_prints (vt : ValueType) (v : jsval) :
  coercible vt v ->
  exists v', spec_coerce vt v = Ok v' /\ prints v'.
Proof.
  intros [-> | Hv].
  { eexists. split; [reflexivity |]. destruct (ToBoolean v); by eexists. }
  destruct vt; simpl.
  - destruct Hv as [s ->]. simpl. eexists. split; [reflexivity |]. by eexists.
  - unfold ToNumber. destruct (prints_primitive _ Hv) as [p ->]. simpl.
    eexists. split; [reflexivity |]. by eexists.
  - eexists. split; [reflexivity |]. destruct (ToBoolean v); by eexists.
  - eauto.
Qed.

Lemma spec_apply_returns (o : Operator) (l r : jsval) :
  prints l -> prints r -> exists b, spec_apply o l r = Ok b.
Proof.
  intros [p Hp]%prints_primitive [q Hq]%prints_primitive.
  assert (exists b, js_loose_eq (Data l) (Data r) = Ok b) as [b Heq].
  { unfold js_loose_eq, any_primitive. rewrite Hp, Hq. cbn [rbind].
    destruct (is_object (Data l) && (is_object (Data r) || is_nullish (Data r)));
      [eauto |].
    destruct (is_nullish (Data l) && is_object (Data r)); eauto. }
  destruct o; unfold spec_apply, js_lt, js_le, js_gt, js_ge, any_primitive;
    rewrite ?Heq, ?Hp, ?Hq; cbn [rbind]; eauto.
Qed.

Lemma evalFilter_spec (session : jsval) (f : Filter) :
  known_operator f -> path_resolves session f -> operands_print session f ->
  exists b, spec_comparison session f = Ok b /\ evalFilter session f = Ok (JBool b).
Proof.
  intros [o Ho] Hp [Hl Hr].
  destruct (spec_coerce_prints (valueType_of (valueType f)) _ Hl) as (l' & Hl' & Hpl).
  destruct (spec_coerce_prints (valueType_of (valueType f)) _ Hr) as (r' & Hr' & Hpr).
  destruct (spec_apply_returns o l' r' Hpl Hpr) as [b Hb].
  exists b. split.
  - unfold spec_comparison. rewrite Ho. simpl. rewrite Hl'. simpl. rewrite Hr'. exact Hb.
  - unfold evalFilter. rewrite (walk_plain _ _ Hp). simpl.
    fold (spec_resolve session (key f)).
    rewrite !coerce_spec, Hr'. simpl. rewrite Hl'. simpl.
    rewrite (compare_known _ o) by exact Ho. rewrite Hb. simpl.
    destruct Hpl as [s1 ->], Hpr as [s2 ->]. reflexivity.
Qed.

Lemma forEachFilter_spec (session : jsval) (fs : list Filter) :
  Forall known_operator fs -> Forall (path_resolves session) fs ->
  Forall (operands_print session) fs ->
  exists bs, spec_matches session fs = Ok bs /\
             forall b, forEachFilter fs session (JBool b) = Ok (JBool (b && bs)).
Proof.
  induction fs as [| f fs IH]; intros Hk Hp Ho; simpl.
  - exists true. split; [reflexivity |]. intros b. by rewrite andb_true_r.
  - apply Forall_cons in Hk as [Hkf Hk], Hp as [Hpf Hp], Ho as [Hof Ho].
    destruct (evalFilter_spec session f Hkf Hpf Hof) as (b0 & Hs0 & He0).
    destruct (IH Hk Hp Ho) as (bs & Hs & He).
    exists (b0 && bs). split.
    + by rewrite Hs0, Hs.
    + intros b. rewrite He0. simpl. rewrite (js_and_bool b b0), He.
      by rewrite andb_assoc.
Qed.

End MatchFacts.

(** C3 (as amended).  With no filter (an empty or an absent list in the
    configuration) the answer is [true] for any session.
    For filters that carry one of the six operators, whose key paths
    resolve in the data of the session (no property of [undefined] or
    [null] is read, and no key part names a property that the value it is
    read from only inherits from its prototype) and whose operands can be
    coerced and printed (each has a string representation, or the
    [valueType] is [bool]), the node holds the configured filters in
    ascending [idx] order and [matchesFilters] answers the conjunction,
    over them, of the operator applied to the coerced literal on the left
    and the coerced resolved value on the right. *)
Theorem matchesFilters_conjunction `{Builtins} (session : jsval) :
  matchesFilters (new_PlayingNode None) session = Ok (JBool true) /\
  matchesFilters (new_PlayingNode (Some [])) session = Ok (JBool true) /\
  forall cfg : list Filter,
    Forall known_operator cfg ->
    Forall (path_resolves session) cfg ->
    Forall (operands_print session) cfg ->
    let node := new_PlayingNode (Some cfg) in
    StronglySorted idx_le (filters node) /\
    filters node ≡ₚ cfg /\
    exists matched,
      spec_matches session (filters node) = Ok matched /\
      matchesFilters node session = Ok (JBool matched).
Proof.
  split; [reflexivity |]. split; [reflexivity |].
  intros cfg Hk Hp Ho node.
  assert (filters node ≡ₚ cfg) as Hperm by apply Array_sort_perm.
  split; [apply Array_sort_sorted |].
  split; [exact Hperm |].
  destruct (forEachFilter_spec session (filters node)) as (bs & Hs & He);
    try (by rewrite Hperm).
  exists bs. split; [exact Hs |]. unfold matchesFilters. by rewrite He.
Qed.

Lemma matchesFilters_conjunction_witness :
  Forall known_operator [by_player_state; by_offset] /\
  Forall (path_resolves session_playing) [by_player_state; by_offset] /\
  Forall (operands_print session_playing) [by_player_state; by_offset] /\
  filters (new_PlayingNode (Some [by_player_state; by_offset]))
  = [by_offset; by_player_state] /\
  spec_matches session_playing [by_offset; by_player_state] = Ok true /\
  matchesFilters (new_PlayingNode (Some [by_player_state; by_offset])) session_playing
  = Ok (JBool true).
Proof.
  assert (Forall known_operator [by_player_state; by_offset]) as Hk
    by (repeat constructor; eexists; reflexivity).
  assert (Forall (path_resolves session_playing) [by_player_state; by_offset]) as Hp
    by (repeat (apply Forall_cons; split); try (by constructor);
        repeat split; left; eexists; reflexivity).
  assert (Forall (operands_print session_playing) [by_player_state; by_offset]) as Ho
    by (repeat (apply Forall_cons; split); try (by constructor);
        split; right; eexists; reflexivity).
  split; [exact Hk |]. split; [exact Hp |]. split; [exact Ho |].
  split; [reflexivity |]. split; [reflexivity |].
  destruct (proj2 (proj2 (matchesFilters_conjunction session_playing)) _ Hk Hp Ho)
    as (_ & _ & matched & Hs & ->).
  assert (Ok matched = Ok true) as [= ->] by (rewrite <- Hs; reflexivity).
  reflexivity.
Defined.

(** C3 as stated fails.  On a session that lacks the [Player] field the
    walk along [Player.state] reads a property of [undefined] and
    [matchesFilters] throws, where the conjunction of the specification
    (an absent value, compared) is [false].  On a key that names an
    inherited property, [constructor], the walk leaves the data: the
    session's value is the function [Object], which prints as its source
    text, where the specification finds no such field and compares the
    absent value.  And a field that holds an object with a field
    [toString] of its own has no string representation: [String] throws on
    it, and so does [matchesFilters]. *)
Lemma matchesFilters_throws_on_missing_field :
  (Forall known_operator [by_player_state] /\
   matchesFilters (new_PlayingNode (Some [by_player_state])) (JObj session_without_player)
   = Throw (TypeError "Cannot read properties of undefined (reading 'state')") /\
   spec_matches (JObj session_without_player) [by_player_state] = Ok false) /\
  (Forall known_operator [by_constructor] /\
   matchesFilters (new_PlayingNode (Some [by_constructor])) (JObj session_without_player)
   = Ok (JBool false) /\
   spec_matches (JObj session_without_player) [by_constructor] = Ok true) /\
  (Forall known_operator [by_title] /\
   Forall (path_resolves session_odd_title) [by_title] /\
   matchesFilters (new_PlayingNode (Some [by_title])) session_odd_title
   = Throw (TypeError "Cannot convert object to primitive value")).
Proof.
  split; [| split].
  - split; [repeat constructor; eexists; reflexivity |]. split; reflexivity.
  - split; [repeat constructor; eexists; reflexivity |]. split; reflexivity.
  - split; [repeat constructor; eexists; reflexivity |].
    split; [| reflexivity].
    apply Forall_cons; split; [| constructor].
    split; [| exact I]. split; [reflexivity |]. left. eexists. reflexivity.
Qed.

(** C6 (as amended).  A [num] filter with a numeric literal, evaluated on a
    session on which the walk along its key returns a value that coerces
    to NaN, compares [false] under [eq], [lt], [lte], [gt] and [gte], and
    [true] under [neq]. *)
Theorem num_filter_against_NaN `{Builtins}
    (session : jsval) (f : Filter) (sessionValue : jsany) (literal n : number)
    (o : Operator) :
  valueType f = "num" ->
  ToNumber (value f) = Ok literal ->
  is_nan literal = false ->
  walk (Data session) (split_on "." (key f)) = Ok sessionValue ->
  js_Number sessionValue = Ok n ->
  is_nan n = true ->
  operator_of (operator f) = Some o ->
  evalFilter session f
  = Ok (JBool match o with OpNeq => true | _ => false end).
Proof.
  intros Hvt Hlit _ Hwalk Hnum Hnan Ho.
  apply is_nan_eq in Hnan. subst n.
  assert (coerce "num" sessionValue = Ok (Data (JNum NaN))) as Hsv
    by (unfold coerce; simpl; by rewrite Hnum).
  assert (coerce "num" (Data (value f)) = Ok (Data (JNum literal))) as Hfv.
  { rewrite coerce_spec. simpl. by rewrite Hlit. }
  unfold evalFilter. rewrite Hwalk, Hvt. simpl. rewrite Hsv. simpl. rewrite Hfv. simpl.
  rewrite (compare_known _ o) by exact Ho.
  assert (spec_apply o (JNum literal) (JNum NaN)
          = Ok match o with OpNeq => true | _ => false end) as ->.
  { destruct o; simpl;
      unfold js_loose_eq, js_lt, js_le, js_gt, js_ge, prim_loose_eq, prim_lt, prim_le,
        SFeqb, SFltb, SFleb; simpl;
      rewrite ?SFcompare_nan_r, ?SFcompare_nan_l; reflexivity. }
  reflexivity.
Qed.

Lemma num_filter_against_NaN_witness :
  valueType by_bitrate = "num" /\
  ToNumber (value by_bitrate) = Ok (number_of_Z 3) /\
  walk (Data session_odd_bitrate) (split_on "." (key by_bitrate)) = Ok (Data (JStr "n/a")) /\
  js_Number (Data (JStr "n/a")) = Ok NaN /\
  operator_of (operator by_bitrate) = Some OpLte /\
  evalFilter session_odd_bitrate by_bitrate = Ok (JBool false).
Proof.
  repeat (split; [reflexivity |]).
  apply (num_filter_against_NaN session_odd_bitrate by_bitrate (Data (JStr "n/a"))
           (number_of_Z 3) NaN OpLte);
    reflexivity.
Defined.

(** C6 as stated fails: when an intermediate field of the key path is
    missing, the resolved value of the specification is absent, which
    coerces to NaN, and the comparison should be [false]; the walk reads a
    property of [undefined] instead and the evaluation throws. *)
Lemma num_filter_throws_on_missing_field :
  valueType by_player_bitrate = "num" /\
  ToNumber (value by_player_bitrate) = Ok (number_of_Z 3) /\
  operator_of (operator by_player_bitrate) = Some OpLt /\
  spec_resolve (JObj []) (key by_player_bitrate) = JUndefined /\
  ToNumber JUndefined = Ok NaN /\
  spec_comparison (JObj []) by_player_bitrate = Ok false /\
  evalFilter (JObj []) by_player_bitrate
  = Throw (TypeError "Cannot read properties of undefined (reading 'bitrate')").
Proof. repeat split; reflexivity. Qed.

End FilterEngineProps.

(** ** The playing listener *)

Module ProcessorProps.
Import JS Eff FilterEngine Processor Samples.

Section ListenerFacts.
Context `{Builtins}.

Lemma strict_eq_stopped (state : jsval) :
  js_strict_eq state (JStr "stopped") = true <-> state = JStr "stopped".
Proof.
  split; [| intros ->; reflexivity].
  destruct state; simpl; try discriminate.
  intros Heq. apply String.eqb_eq in Heq. by subst.
Qed.

Lemma lookup_set_field (k : string) (v : jsval) (fs : list (string * jsval)) :
  lookup_field k (set_field k v fs) = Some v.
Proof.
  induction fs as [| [k' v'] fs IH]; simpl.
  - by rewrite String.eqb_refl.
  - destruct (String.eqb k' k) eqn:Hk; simpl.
    + by rewrite String.eqb_refl.
    + by rewrite Hk.
Qed.

Lemma lookup_set_field_ne (k k' : string) (v : jsval) (fs : list (string * jsval)) :
  k <> k' -> lookup_field k' (set_field k v fs) = lookup_field k' fs.
Proof.
  intros Hne. induction fs as [| [k0 v0] fs IH]; simpl.
  - destruct (String.eqb_spec k k'); [contradiction | reflexivity].
  - destruct (String.eqb_spec k0 k) as [-> | Hk0]; simpl.
    + destruct (String.eqb_spec k k'); [contradiction | reflexivity].
    + by rewrite IH.
Qed.

(** The notification of a ['playing'] event is the entry whose [state] the
    transport could read: its [sessionKey] can be read as well. *)
Lemma playing_event_has_key (state notification : jsval) :
  js_field notification "state" = Ok state ->
  exists sessionKey, js_field notification "sessionKey" = Ok sessionKey.
Proof.
  destruct notification; simpl; try discriminate; intros _; eauto;
    repeat match goal with
           | |- context [if ?b then _ else _] => destruct b
           | |- context [match ?o with Some _ => _ | None => _ end] => destruct o
           end; eauto.
Qed.

(** What the [then] callback does, case by case. *)
Lemma onFetched_no_session node state notification sessionKey w :
  onFetched node state notification sessionKey None w
  = when (js_strict_eq state (JStr "stopped")) (modify (store_delete sessionKey)) w.
Proof. reflexivity. Qed.

Lemma onFetched_same_state node state notification sessionKey l w :
  js_strict_eq (prevState_of (record_at l w)) state = true ->
  onFetched node state notification sessionKey (Some l) w
  = when (js_strict_eq state (JStr "stopped")) (modify (store_delete sessionKey)) w.
Proof.
  intros Heq. unfold onFetched, bind, gets, lift, when. simpl.
  unfold prevState_of in Heq. rewrite Heq. reflexivity.
Qed.

Lemma onFetched_new_state node state notification sessionKey l w matched :
  js_strict_eq (prevState_of (record_at l w)) state = false ->
  matchesFilters node (JObj (record_at l w)) = Ok matched ->
  onFetched node state notification sessionKey (Some l) w
  = when (js_strict_eq state (JStr "stopped")) (modify (store_delete sessionKey))
      (write_field l "prevState" state
         (if ToBoolean matched
          then send {| payload := state; plex := notification; session := Some l |} w
          else w)).
Proof.
  intros Hne Hm. unfold onFetched, bind, gets, lift, when. simpl.
  unfold prevState_of in Hne. rewrite Hne. simpl. rewrite Hm.
  destruct (ToBoolean matched); reflexivity.
Qed.

Lemma onFetched_throws node state notification sessionKey l w e :
  js_strict_eq (prevState_of (record_at l w)) state = false ->
  matchesFilters node (JObj (record_at l w)) = Throw e ->
  onFetched node state notification sessionKey (Some l) w = (w, Throw e).
Proof.
  intros Hne Hm. unfold onFetched, bind, gets, lift, when. simpl.
  unfold prevState_of in Hne. rewrite Hne. simpl. rewrite Hm. reflexivity.
Qed.

Lemma onPlaying_resolved node state notification sessionKey session w :
  js_field notification "sessionKey" = Ok sessionKey ->
  onPlaying node state notification (Resolved session) w
  = catch (onFetched node state notification sessionKey session) onRejected w.
Proof. intros Hk. unfold onPlaying, bind, lift. by rewrite Hk. Qed.

(** C4.  When the resolved session's [prevState] equals ([===]) the state
    of the event, nothing is sent downstream, whatever the filters of the
    node are and whatever they would answer. *)
Theorem no_emission_when_state_unchanged
    (node : PlayingNode) (state notification : jsval) (l : loc)
    (fields : list (string * jsval)) (w : World) :
  heap w !! l = Some fields ->
  js_strict_eq (prevState_of fields) state = true ->
  sent (exec (onPlaying node state notification (Resolved (Some l))) w) = sent w.
Proof.
  intros Hl Heq. unfold exec.
  destruct (js_field notification "sessionKey") as [sessionKey | e] eqn:Hk.
  - rewrite (onPlaying_resolved _ _ _ sessionKey) by exact Hk.
    unfold catch. rewrite onFetched_same_state
      by (unfold record_at; rewrite Hl; exact Heq).
    unfold when, modify, ret. destruct (js_strict_eq state (JStr "stopped")); reflexivity.
  - unfold onPlaying, bind, lift. rewrite Hk. reflexivity.
Qed.

Lemma stored_store_delete (sessionKey : jsval) (w : World) :
  stored sessionKey (store_delete sessionKey w) = None.
Proof.
  unfold stored, store_delete. simpl.
  destruct (key_name sessionKey); [apply lookup_delete_eq | reflexivity].
Qed.

(** C5 (as amended).  For a [stopped] event whose fetch resolved, and with
    the filter evaluation returning whenever the listener runs it (the
    session exists and its [prevState] is not [stopped] yet), the store
    holds no session under the event's key afterwards, whether or not a
    message was sent.  ([sessionKey] is what the listener reads from the
    notification; by [playing_event_has_key] every event of the transport
    has one.) *)
Theorem stopped_session_removed
    (node : PlayingNode) (notification sessionKey : jsval)
    (session : option loc) (w : World) :
  js_field notification "sessionKey" = Ok sessionKey ->
  evaluation_returns node (JStr "stopped") session w ->
  stored sessionKey
    (exec (onPlaying node (JStr "stopped") notification (Resolved session)) w)
  = None.
Proof.
  intros Hk Hev. unfold exec.
  rewrite (onPlaying_resolved _ _ _ sessionKey) by exact Hk. unfold catch.
  destruct session as [l |].
  - destruct (js_strict_eq (prevState_of (record_at l w)) (JStr "stopped")) eqn:Heq.
    + rewrite onFetched_same_state by exact Heq.
      simpl. apply stored_store_delete.
    + destruct (Hev Heq) as [matched Hm].
      rewrite (onFetched_new_state _ _ _ _ _ _ matched) by assumption.
      simpl. apply stored_store_delete.
  - rewrite onFetched_no_session. simpl. apply stored_store_delete.
Qed.

(** C9 (as amended).  When the resolved session exists, its [prevState]
    differs ([!==]) from the state of the event and the filters can be
    evaluated on it, the record's [prevState] is the new state afterwards,
    whatever the filters answered ([matched] is any value). *)
Theorem prevState_updated
    (node : PlayingNode) (state notification sessionKey : jsval) (l : loc)
    (fields : list (string * jsval)) (matched : jsval) (w : World) :
  js_field notification "sessionKey" = Ok sessionKey ->
  heap w !! l = Some fields ->
  js_strict_eq (prevState_of fields) state = false ->
  matchesFilters node (JObj fields) = Ok matched ->
  heap (exec (onPlaying node state notification (Resolved (Some l))) w) !! l
  = Some (set_field "prevState" state fields) /\
  prevState_of (set_field "prevState" state fields) = state.
Proof.
  intros Hk Hl Hne Hm. unfold exec.
  assert (record_at l w = fields) as Hrec by (unfold record_at; by rewrite Hl).
  rewrite (onPlaying_resolved _ _ _ sessionKey) by exact Hk. unfold catch.
  rewrite (onFetched_new_state _ _ _ _ _ _ matched) by (rewrite Hrec; assumption).
  split.
  - unfold when, modify, ret.
    destruct (js_strict_eq state (JStr "stopped")), (ToBoolean matched); simpl;
      rewrite lookup_insert_eq; unfold record_at; simpl; by rewrite Hl.
  - unfold prevState_of. by rewrite lookup_set_field.
Qed.

(** C10 (as amended).  For a [stopped] event whose fetch resolved,
    [sessions.delete(sessionKey)] is called once: when the fetch resolved to
    no session, when the session's [prevState] is [stopped] already, and in
    general whenever the filters can be evaluated on the session. *)
Theorem stopped_always_deletes
    (node : PlayingNode) (notification sessionKey : jsval) (w : World) :
  js_field notification "sessionKey" = Ok sessionKey ->
  let after session :=
    exec (onPlaying node (JStr "stopped") notification (Resolved session)) w in
  deleted (after None) = deleted w ++ [sessionKey] /\
  (forall l, js_strict_eq (prevState_of (record_at l w)) (JStr "stopped") = true ->
             deleted (after (Some l)) = deleted w ++ [sessionKey]) /\
  (forall session, filters_evaluate node session w ->
                   deleted (after session) = deleted w ++ [sessionKey]).
Proof.
  intros Hk after. subst after. unfold exec.
  split; [| split].
  - rewrite (onPlaying_resolved _ _ _ sessionKey) by exact Hk. reflexivity.
  - intros l Heq.
    rewrite (onPlaying_resolved _ _ _ sessionKey) by exact Hk. unfold catch.
    rewrite onFetched_same_state by exact Heq. reflexivity.
  - intros [l |] Hev.
    + destruct Hev as [matched Hm].
      rewrite (onPlaying_resolved _ _ _ sessionKey) by exact Hk. unfold catch.
      destruct (js_strict_eq (prevState_of (record_at l w)) (JStr "stopped")) eqn:Heq.
      * rewrite onFetched_same_state by exact Heq. reflexivity.
      * rewrite (onFetched_new_state _ _ _ _ _ _ matched) by assumption.
        simpl. destruct (ToBoolean matched); reflexivity.
    + rewrite (onPlaying_resolved _ _ _ sessionKey) by exact Hk. reflexivity.
Qed.

End ListenerFacts.

(** The first scenario of the specification: the filter holds and the state
    is new, so one message goes out and [prevState] follows. *)
Example playing_after_paused :
  exec (onPlaying (new_PlayingNode (Some [by_player_state])) (JStr "playing")
          (notification_of "playing") (Resolved (Some 0%nat)))
       (world_of record_paused)
  = {| heap := {[ 0%nat := [("Player", JObj [("state", JStr "playing")]);
                            ("prevState", JStr "playing")] ]};
       sessions := {[ "7" := 0%nat ]};
       deleted := [];
       sent := [ {| payload := JStr "playing"; plex := notification_of "playing";
                    session := Some 0%nat |} ];
       warnings := [] |}.
Proof. reflexivity. Qed.

Lemma no_emission_when_state_unchanged_witness :
  heap (world_of record_playing) !! 0%nat = Some record_playing /\
  js_strict_eq (prevState_of record_playing) (JStr "playing") = true /\
  matchesFilters (new_PlayingNode (Some [by_player_state])) (JObj record_playing)
  = Ok (JBool true) /\
  sent (exec (onPlaying (new_PlayingNode (Some [by_player_state])) (JStr "playing")
                (notification_of "playing") (Resolved (Some 0%nat)))
             (world_of record_playing))
  = [].
Proof.
  repeat (split; [reflexivity |]).
  apply (no_emission_when_state_unchanged
           (new_PlayingNode (Some [by_player_state])) (JStr "playing")
           (notification_of "playing") 0%nat record_playing (world_of record_playing));
    reflexivity.
Defined.

(** C5 as stated fails twice over: when the fetch rejects, and when the
    filter evaluation throws inside the [then] callback, the [stopped]
    event ends in the [catch] callback and the session stays in the store. *)
Lemma stopped_session_kept :
  stored (JStr "7")
    (exec (onPlaying (new_PlayingNode None) (JStr "stopped") (notification_of "stopped")
             (FetchRejected (Error "request failed")))
          (world_of session_without_player))
  = Some 0%nat /\
  stored (JStr "7")
    (exec (onPlaying (new_PlayingNode (Some [by_player_state])) (JStr "stopped")
             (notification_of "stopped") (Resolved (Some 0%nat)))
          (world_of session_without_player))
  = Some 0%nat.
Proof. split; reflexivity. Qed.

Lemma stopped_session_removed_witness :
  js_field (notification_of "stopped") "sessionKey" = Ok (JStr "7") /\
  evaluation_returns (new_PlayingNode (Some [by_player_state])) (JStr "stopped")
    (Some 0%nat) (world_of record_playing) /\
  js_strict_eq (prevState_of record_playing) (JStr "stopped") = false /\
  stored (JStr "7") (world_of record_playing) = Some 0%nat /\
  stored (JStr "7")
    (exec (onPlaying (new_PlayingNode (Some [by_player_state])) (JStr "stopped")
             (notification_of "stopped") (Resolved (Some 0%nat)))
          (world_of record_playing))
  = None /\
  stored (JStr "7")
    (exec (onPlaying (new_PlayingNode (Some [by_player_state])) (JStr "stopped")
             (notification_of "stopped") (Resolved (Some 0%nat)))
          (world_of record_stopped_without_player))
  = None.
Proof.
  assert (evaluation_returns (new_PlayingNode (Some [by_player_state])) (JStr "stopped")
            (Some 0%nat) (world_of record_playing)) as Hev
    by (intros _; exists (JBool true); reflexivity).
  split; [reflexivity |]. split; [exact Hev |]. split; [reflexivity |].
  split; [reflexivity |]. split.
  - apply (stopped_session_removed _ _ (JStr "7")); [reflexivity | exact Hev].
  - apply (stopped_session_removed _ _ (JStr "7")); [reflexivity |].
    intros Hne. discriminate Hne.
Defined.

(** C9 as stated fails: the session exists and its [prevState], [paused],
    differs from the new state, but the filter on [Player.state] throws on
    this record, the [then] callback is left before the assignment and the
    record still says [paused]. *)
Lemma prevState_kept_when_filters_throw :
  heap (world_of session_without_player) !! 0%nat = Some session_without_player /\
  js_strict_eq (prevState_of session_without_player) (JStr "playing") = false /\
  heap (exec (onPlaying (new_PlayingNode (Some [by_player_state])) (JStr "playing")
                (notification_of "playing") (Resolved (Some 0%nat)))
             (world_of session_without_player)) !! 0%nat
  = Some [("prevState", JStr "paused")] /\
  warnings (exec (onPlaying (new_PlayingNode (Some [by_player_state])) (JStr "playing")
                    (notification_of "playing") (Resolved (Some 0%nat)))
                 (world_of session_without_player))
  = ["failed to fetch session details from Plex: TypeError: Cannot read properties of undefined (reading 'state')"].
Proof. repeat split; reflexivity. Qed.

Lemma prevState_updated_witness :
  js_field (notification_of "buffering") "sessionKey" = Ok (JStr "7") /\
  heap (world_of record_buffering) !! 0%nat = Some record_buffering /\
  js_strict_eq (prevState_of record_buffering) (JStr "buffering") = false /\
  matchesFilters (new_PlayingNode (Some [by_player_state])) (JObj record_buffering)
  = Ok (JBool false) /\
  heap (exec (onPlaying (new_PlayingNode (Some [by_player_state])) (JStr "buffering")
                (notification_of "buffering") (Resolved (Some 0%nat)))
             (world_of record_buffering)) !! 0%nat
  = Some [("Player", JObj [("state", JStr "buffering")]); ("prevState", JStr "buffering")].
Proof.
  repeat (split; [reflexivity |]).
  apply (prevState_updated (new_PlayingNode (Some [by_player_state])) (JStr "buffering")
           (notification_of "buffering") (JStr "7") 0%nat record_buffering (JBool false)
           (world_of record_buffering));
    reflexivity.
Defined.

(** C10 as stated fails: the fetch resolved, to a session whose [prevState]
    is not [stopped], and the filter on [Player.state] throws on it; the
    [then] callback is left before its last statement and
    [sessions.delete] is never called. *)
Lemma stopped_without_delete :
  js_strict_eq (prevState_of session_without_player) (JStr "stopped") = false /\
  deleted (exec (onPlaying (new_PlayingNode (Some [by_player_state])) (JStr "stopped")
                   (notification_of "stopped") (Resolved (Some 0%nat)))
                (world_of session_without_player))
  = [].
Proof. split; reflexivity. Qed.

Lemma stopped_always_deletes_witness :
  js_field (notification_of "stopped") "sessionKey" = Ok (JStr "7") /\
  deleted (exec (onPlaying (new_PlayingNode (Some [by_player_state])) (JStr "stopped")
                   (notification_of "stopped") (Resolved None))
                (world_of session_without_player))
  = [JStr "7"].
Proof.
  split; [reflexivity |].
  exact (proj1 (stopped_always_deletes (new_PlayingNode (Some [by_player_state]))
                  (notification_of "stopped") (JStr "7")
                  (world_of session_without_player) eq_refl)).
Defined.

End ProcessorProps.

(** ** The transport *)

Module TransportProps.
Import JS Eff Transport Samples.
Local Open Scope eff_scope.

(** *** What a handler leaves alone *)

Section Stable.
Context {B : Type} (f : PlexSocket -> B).

Lemma stable_ret {A} (a : A) : stable f (ret a).
Proof. intros st. reflexivity. Qed.

Lemma stable_throw {A} (e : exn) : stable f (@throw PlexSocket A e).
Proof. intros st. reflexivity. Qed.

Lemma stable_lift {A} (r : result A) : stable f (lift r).
Proof. intros st. reflexivity. Qed.

Lemma stable_gets {A} (g : PlexSocket -> A) : stable f (gets g).
Proof. intros st. reflexivity. Qed.

Lemma stable_modify (g : PlexSocket -> PlexSocket) :
  (forall st, f (g st) = f st) -> stable f (modify g).
Proof. intros Hg st. apply Hg. Qed.

Lemma stable_bind {A C} (m : M PlexSocket A) (k : A -> M PlexSocket C) :
  stable f m -> (forall a, stable f (k a)) -> stable f (bind m k).
Proof.
  intros Hm Hk st. unfold exec, bind.
  specialize (Hm st). unfold exec in Hm.
  destruct (m st) as [st' [a | e]]; simpl in *.
  - rewrite <- Hm. apply Hk.
  - exact Hm.
Qed.

Lemma stable_when (b : bool) (m : M PlexSocket unit) :
  stable f m -> stable f (when b m).
Proof. destruct b; [auto | intros _; apply stable_ret]. Qed.

Lemma stable_forEach {A} (g : A -> M PlexSocket unit) (l : list A) :
  (forall a, stable f (g a)) -> stable f (forEach g l).
Proof.
  intros Hg. induction l as [| a l IH]; simpl.
  - apply stable_ret.
  - apply stable_bind; auto.
Qed.

End Stable.

Create HintDb stable discriminated.
#[export] Hint Resolve stable_ret stable_throw stable_lift stable_gets
  stable_when stable_forEach : stable.
#[export] Hint Extern 1 (stable _ (bind _ _)) =>
  apply stable_bind; [| intros ?] : stable.
#[export] Hint Extern 1 (stable _ (modify _)) =>
  apply stable_modify; intros ?; reflexivity : stable.
#[export] Hint Extern 5 (stable _ (match ?x with _ => _ end)) => destruct x : stable.
#[export] Hint Extern 5 (stable _ (if ?x then _ else _)) => destruct x : stable.

Ltac stable_auto := repeat (intros; auto 20 with stable).

(** Unfolding a handler on a state. *)
Ltac run_handler :=
  unfold step, handle, exec, outcome, onMessage, parseData, onNotification, onOpen,
    onClose, onPong, onPing, onError, connect, close, ping, pongTimeout, fire,
    setTimeout, clearTimeout, set_readyState, on_socket, emit,
    when, bind, ret, throw, lift, get, gets, modify;
  simpl.

Section Handlers.
Context `{Builtins}.

Lemma stable_emit {B} (f : PlexSocket -> B) (ev : Event) :
  (forall e st, f (log_event e st) = f st) -> stable f (emit ev).
Proof.
  intros Hf. unfold emit.
  apply stable_bind; [apply stable_modify; intros; apply Hf |].
  intros _. apply stable_bind; [apply stable_gets |].
  intros heard. destruct ev; auto with stable.
Qed.

Lemma emit_stable_core (ev : Event) : stable core (emit ev).
Proof. apply stable_emit. reflexivity. Qed.

Lemma emit_stable_calls (ev : Event) : stable calls (emit ev).
Proof. apply stable_emit. reflexivity. Qed.

Lemma emit_stable_shouldClose (ev : Event) : stable shouldClose (emit ev).
Proof. apply stable_emit. reflexivity. Qed.

(** Only [close] writes [shouldClose]. *)
Lemma setTimeout_stable_shouldClose cb delay : stable shouldClose (setTimeout cb delay).
Proof. unfold setTimeout. stable_auto. Qed.

Lemma clearTimeout_stable_shouldClose t : stable shouldClose (clearTimeout t).
Proof. unfold clearTimeout. stable_auto. Qed.

Lemma set_readyState_stable_shouldClose s r : stable shouldClose (set_readyState s r).
Proof. unfold set_readyState. stable_auto. Qed.

Lemma begin_closing_stable_shouldClose s : stable shouldClose (begin_closing s).
Proof.
  unfold begin_closing. apply stable_bind; [stable_auto |].
  intros ss. pose proof (set_readyState_stable_shouldClose s CLOSING).
  destruct (ss !! s) as [[] |]; stable_auto.
Qed.

Local Hint Resolve emit_stable_shouldClose setTimeout_stable_shouldClose
  clearTimeout_stable_shouldClose set_readyState_stable_shouldClose
  begin_closing_stable_shouldClose : stable.

Lemma ping_stable_shouldClose : stable shouldClose ping.
Proof. unfold ping, on_socket. stable_auto. Qed.

Lemma onClose_stable_shouldClose code reason : stable shouldClose (onClose code reason).
Proof. unfold onClose. stable_auto. Qed.

Local Hint Resolve ping_stable_shouldClose onClose_stable_shouldClose : stable.

Lemma connect_stable_shouldClose ctor : stable shouldClose (connect ctor).
Proof. unfold connect. stable_auto. Qed.

Lemma onPlaying_stable_shouldClose notif : stable shouldClose (onPlaying notif).
Proof. unfold onPlaying. stable_auto. Qed.

Local Hint Resolve connect_stable_shouldClose onPlaying_stable_shouldClose : stable.

Lemma onMessage_stable_shouldClose data : stable shouldClose (onMessage data).
Proof. unfold onMessage, parseData, onNotification. stable_auto. Qed.

Lemma handle_stable_shouldClose (i : Input) :
  i <> CallClose -> stable shouldClose (handle i).
Proof.
  pose proof onMessage_stable_shouldClose.
  destruct i; intros Hi; try contradiction;
    unfold handle, fire, run_callback, onOpen, onPing, onPong, onError,
      onUnexpectedResponse, pongTimeout, on_socket;
    stable_auto.
Qed.

Lemma close_sets_shouldClose (st : PlexSocket) : shouldClose (exec close st) = true.
Proof.
  unfold close, on_socket, exec, bind, modify, gets, throw. simpl.
  destruct (socket st) as [s |]; simpl; [| reflexivity].
  pose proof (begin_closing_stable_shouldClose s
                (log_call (SocketClose s) (with_shouldClose true st))) as Hs.
  unfold exec in Hs.
  destruct (begin_closing s _) as [st' [[] | e]]; simpl in *; exact Hs.
Qed.

Lemma step_keeps_shouldClose (i : Input) (st : PlexSocket) :
  shouldClose st = true -> shouldClose (step i st) = true.
Proof.
  intros Hst.
  destruct i;
    try (unfold step; rewrite handle_stable_shouldClose by discriminate; exact Hst).
  apply close_sets_shouldClose.
Qed.

Lemma run_keeps_shouldClose (inputs : list Input) (st : PlexSocket) :
  shouldClose st = true -> shouldClose (run inputs st) = true.
Proof.
  revert st. induction inputs as [| i inputs IH]; intros st Hst; simpl; [exact Hst |].
  apply IH. by apply step_keeps_shouldClose.
Qed.


#[local] Arguments has_listener : simpl never.

Lemma has_listener_log_event (name : string) (ev : Event) (st : PlexSocket) :
  has_listener name (log_event ev st) = has_listener name st.
Proof. reflexivity. Qed.

Lemma timeouts_set_snoc (cs : list Call) (c : Call) :
  timeouts_set (cs ++ [c])
  = timeouts_set cs ++ match c with
                       | SetTimeout cb delay _ => [(cb, delay)]
                       | _ => []
                       end.
Proof. unfold timeouts_set. rewrite omap_app. destruct c; reflexivity. Qed.

(** What [onClose] does to the timers: both handles are cleared, and a
    reconnect is set unless the close was asked for. *)
Lemma onClose_timers code reason (st : PlexSocket) :
  let st' := exec (onClose code reason) st in
  timers st'
  = drop_handle (awaitPong st) (drop_handle (pinger st) (timers st))
    ++ (if shouldClose st then []
        else [(next_timer st, (ConnectCallback, reconnectInterval (options st)))]) /\
  timeouts_set (calls st')
  = timeouts_set (calls st)
    ++ (if shouldClose st then []
        else [(ConnectCallback, reconnectInterval (options st))]) /\
  pinger st' = None /\ awaitPong st' = None /\
  sockets st' = sockets st /\ socket st' = socket st /\
  shouldClose st' = shouldClose st /\
  next_timer st' = (if shouldClose st then next_timer st else S (next_timer st)).
Proof.
  destruct st as [o sc r so p a ls ss ts n ev cs].
  run_handler.
  destruct p as [p |], a as [a |], sc;
    simpl; rewrite ?timeouts_set_snoc, ?app_nil_r; simpl;
    rewrite ?app_nil_r; repeat split; reflexivity.
Qed.

(** C2.  When the underlying socket closes: if the intentional-close flag
    is set, no timer is set at all; otherwise exactly one timer is set, the
    reconnect, with the configured reconnect interval as its delay.  In
    both cases the two heartbeat timers are cleared.  The flag is set in
    every state that follows a call of [close()]. *)
Theorem close_reconnect_policy
    (st : PlexSocket) (s : socket_id) (code reason : jsval) :
  let st' := step (SocketCloses s code reason) st in
  let cleared := drop_handle (awaitPong st) (drop_handle (pinger st) (timers st)) in
  (shouldClose st = true ->
     timeouts_set (calls st') = timeouts_set (calls st) /\
     timers st' = cleared) /\
  (shouldClose st = false ->
     timeouts_set (calls st')
     = timeouts_set (calls st) ++ [(ConnectCallback, reconnectInterval (options st))] /\
     timers st'
     = cleared ++ [(next_timer st, (ConnectCallback, reconnectInterval (options st)))]) /\
  (forall st0 inputs, st = run inputs (step CallClose st0) -> shouldClose st = true).
Proof.
  intros st' cleared.
  assert (st' = exec (onClose (CloseVal code) (CloseVal reason))
                  (with_sockets (<[s := CLOSED]> (sockets st)) st)) as ->
    by reflexivity.
  destruct (onClose_timers (CloseVal code) (CloseVal reason)
              (with_sockets (<[s := CLOSED]> (sockets st)) st))
    as (Ht & Hc & _).
  simpl in Ht, Hc. fold cleared in Ht.
  split; [| split].
  - intros Hsc. rewrite Hsc in Ht, Hc. rewrite app_nil_r in Ht, Hc. by split.
  - intros Hsc. rewrite Hsc in Ht, Hc. by split.
  - intros st0 inputs ->. apply run_keeps_shouldClose, close_sets_shouldClose.
Qed.

(** C1, at the inputs where it fails.  When a frame does not parse and the
    ['error'] event has a listener, [parseData] returns what [emit]
    returned, [true], and [onMessage] takes it for the payload: after the
    ['error'] event a ['message'] event is emitted, carrying [true].  No
    ['notification'] and no ['playing'] event follows. *)
Theorem parse_failure_emits_message (data : string) (st : PlexSocket) :
  JSON_parse data = None ->
  has_listener "error" st = true ->
  emitted (exec (onMessage data) st)
  = emitted st ++ [EvError (SyntaxError data); EvMessage (JBool true)] /\
  outcome (onMessage data) st = Ok tt.
Proof.
  intros Hparse Hheard. run_handler. rewrite Hparse. simpl.
  rewrite has_listener_log_event, Hheard. simpl.
  split; [by rewrite <- app_assoc | reflexivity].
Qed.

(** X26.  Without a listener the ['error'] event of a frame that does not
    parse is thrown out of [onMessage], and nothing else is emitted. *)
Lemma parse_failure_unheard (data : string) (st : PlexSocket) :
  JSON_parse data = None ->
  has_listener "error" st = false ->
  emitted (exec (onMessage data) st) = emitted st ++ [EvError (SyntaxError data)] /\
  outcome (onMessage data) st = Throw (SyntaxError data).
Proof.
  intros Hparse Hheard. run_handler. rewrite Hparse. simpl.
  rewrite has_listener_log_event, Hheard. simpl.
  split; reflexivity.
Qed.


(** *** Every ['playing'] event is well formed *)

Lemma keeps_ret {A} P (a : A) : keeps P (ret a).
Proof. intros st Hst. exact Hst. Qed.

Lemma keeps_throw {A} P (e : exn) : keeps P (@throw PlexSocket A e).
Proof. intros st Hst. exact Hst. Qed.

Lemma keeps_gets {A} P (g : PlexSocket -> A) : keeps P (gets g).
Proof. intros st Hst. exact Hst. Qed.

Lemma keeps_modify P (g : PlexSocket -> PlexSocket) :
  (forall st, P st -> P (g st)) -> keeps P (modify g).
Proof. intros Hg st Hst. by apply Hg. Qed.

Lemma keeps_bind {A C} P (m : M PlexSocket A) (k : A -> M PlexSocket C) :
  keeps P m -> (forall a, keeps P (k a)) -> keeps P (bind m k).
Proof.
  intros Hm Hk st Hst. unfold exec, bind.
  specialize (Hm st Hst). unfold exec in Hm.
  destruct (m st) as [st' [a | e]]; simpl in *; [by apply Hk | exact Hm].
Qed.

(** After [lift r] the continuation runs on what [r] returned. *)
Lemma keeps_lift_bind {A C} P (r : result A) (k : A -> M PlexSocket C) :
  (forall a, r = Ok a -> keeps P (k a)) -> keeps P (bind (lift r) k).
Proof.
  intros Hk st Hst. unfold exec, bind, lift.
  destruct r as [a | e]; simpl; [by apply Hk | exact Hst].
Qed.

Lemma keeps_when P (b : bool) (m : M PlexSocket unit) :
  keeps P m -> keeps P (when b m).
Proof. destruct b; [auto | intros _; apply keeps_ret]. Qed.

Lemma keeps_forEach {A} P (g : A -> M PlexSocket unit) (l : list A) :
  (forall a, keeps P (g a)) -> keeps P (forEach g l).
Proof.
  intros Hg. induction l as [| a l IH]; simpl;
    [apply keeps_ret | apply keeps_bind; auto].
Qed.

Lemma emit_keeps_events (ev : Event) :
  well_formed_event ev -> keeps events_well_formed (emit ev).
Proof.
  intros Hev st Hst.
  assert (events_well_formed (log_event ev st)) as Hlog.
  { unfold events_well_formed in *. simpl. apply Forall_app. split; [exact Hst |].
    by constructor. }
  unfold exec, emit, bind, modify, gets. simpl.
  destruct ev; simpl; try exact Hlog.
  destruct (has_listener _ _); exact Hlog.
Qed.

(** A handler that emits nothing keeps the events as they are. *)
Lemma stable_keeps_events {A} (m : M PlexSocket A) :
  stable emitted m -> keeps events_well_formed m.
Proof. intros Hm st Hst. unfold events_well_formed. by rewrite Hm. Qed.

Lemma onPlaying_keeps_events (notif : jsval) :
  keeps events_well_formed (onPlaying notif).
Proof.
  unfold onPlaying.
  apply keeps_lift_bind. intros payload _.
  apply keeps_lift_bind. intros nonempty _.
  destruct nonempty.
  - destruct payload; try apply keeps_throw.
    apply keeps_forEach. intros playingNotif.
    apply keeps_lift_bind. intros state Hstate.
    apply keeps_bind; [by apply emit_keeps_events | intros; apply keeps_ret].
  - apply keeps_bind; [by apply emit_keeps_events | intros; apply keeps_ret].
Qed.

Lemma onMessage_keeps_events (data : string) :
  keeps events_well_formed (onMessage data).
Proof.
  unfold onMessage, parseData, onNotification.
  apply keeps_bind.
  - destruct (JSON_parse data); [apply keeps_ret |].
    apply keeps_bind; [by apply emit_keeps_events | intros; apply keeps_ret].
  - intros payload. apply keeps_when.
    apply keeps_bind; [by apply emit_keeps_events |]. intros _.
    apply keeps_lift_bind. intros notif _. apply keeps_when.
    apply keeps_bind; [by apply emit_keeps_events |]. intros _.
    apply keeps_lift_bind. intros type _. apply keeps_when.
    apply onPlaying_keeps_events.
Qed.

Lemma setTimeout_stable_emitted cb delay : stable emitted (setTimeout cb delay).
Proof. unfold setTimeout. stable_auto. Qed.

Lemma clearTimeout_stable_emitted t : stable emitted (clearTimeout t).
Proof. unfold clearTimeout. stable_auto. Qed.

Lemma begin_closing_stable_emitted s : stable emitted (begin_closing s).
Proof.
  unfold begin_closing, set_readyState. apply stable_bind; [stable_auto |].
  intros ss. destruct (ss !! s) as [[] |]; stable_auto.
Qed.

Lemma ping_keeps_events : keeps events_well_formed ping.
Proof.
  apply stable_keeps_events.
  pose proof setTimeout_stable_emitted.
  unfold ping, on_socket. stable_auto.
Qed.

Lemma onClose_keeps_events code reason :
  keeps events_well_formed (onClose code reason).
Proof.
  unfold onClose.
  apply keeps_bind; [apply keeps_gets |]. intros p.
  apply keeps_bind.
  { apply stable_keeps_events. pose proof clearTimeout_stable_emitted.
    destruct p; stable_auto. }
  intros _. apply keeps_bind; [apply keeps_gets |]. intros a.
  apply keeps_bind.
  { apply stable_keeps_events. pose proof clearTimeout_stable_emitted.
    destruct a; stable_auto. }
  intros _. apply keeps_bind; [apply keeps_gets |]. intros closing.
  destruct closing; simpl.
  - apply keeps_bind; [by apply emit_keeps_events | intros; apply keeps_ret].
  - apply stable_keeps_events. pose proof setTimeout_stable_emitted. stable_auto.
Qed.

Lemma connect_keeps_events ctor : keeps events_well_formed (connect ctor).
Proof.
  unfold connect.
  apply keeps_bind; [apply keeps_gets |]. intros r.
  apply keeps_bind; [apply keeps_modify; auto |]. intros _.
  apply keeps_bind; [apply keeps_gets |]. intros max.
  apply keeps_bind.
  { apply keeps_when.
    apply keeps_bind; [by apply emit_keeps_events | intros; apply keeps_ret]. }
  intros _. apply keeps_bind; [apply keeps_gets |]. intros [address | err0].
  - apply keeps_bind; [apply keeps_gets |]. intros tok.
    apply keeps_bind; [apply keeps_modify; auto |]. intros _.
    destruct ctor.
    + apply keeps_bind; [apply onClose_keeps_events | intros; apply keeps_throw].
    + apply stable_keeps_events. stable_auto.
  - apply keeps_bind; [apply onClose_keeps_events | intros; apply keeps_throw].
Qed.

Lemma handle_keeps_events (i : Input) : keeps events_well_formed (handle i).
Proof.
  destruct i; simpl.
  - apply connect_keeps_events.
  - apply stable_keeps_events. pose proof begin_closing_stable_emitted.
    unfold close, on_socket. stable_auto.
  - apply stable_keeps_events. stable_auto.
  - apply keeps_bind; [apply stable_keeps_events; unfold set_readyState; stable_auto |].
    intros _. unfold onOpen.
    apply keeps_bind; [apply keeps_modify; auto |]. intros _.
    apply keeps_bind; [by apply emit_keeps_events |]. intros _.
    apply ping_keeps_events.
  - apply stable_keeps_events. unfold onPing, on_socket. stable_auto.
  - unfold onPong.
    apply keeps_bind; [apply keeps_gets |]. intros a.
    apply keeps_bind.
    { apply stable_keeps_events. pose proof clearTimeout_stable_emitted.
      destruct a; stable_auto. }
    intros _. apply keeps_bind; [apply keeps_gets |]. intros delay.
    apply keeps_bind; [apply stable_keeps_events, setTimeout_stable_emitted |].
    intros t. apply keeps_bind; [apply keeps_modify; auto |]. intros _.
    apply keeps_bind; [by apply emit_keeps_events | intros; apply keeps_ret].
  - apply onMessage_keeps_events.
  - unfold onError.
    apply keeps_bind; [by apply emit_keeps_events | intros; apply keeps_ret].
  - unfold onUnexpectedResponse.
    apply keeps_lift_bind. intros unauthorized _.
    destruct unauthorized;
      (apply keeps_bind; [by apply emit_keeps_events | intros; apply keeps_ret]).
  - apply keeps_bind; [apply stable_keeps_events; unfold set_readyState; stable_auto |].
    intros _. apply onClose_keeps_events.
  - unfold fire.
    apply keeps_bind; [apply keeps_gets |]. intros ts.
    apply keeps_bind; [apply keeps_gets |]. intros n.
    destruct (list_find _ ts) as [[? [? [cb ?]]] |]; [| apply keeps_ret].
    apply keeps_bind; [apply keeps_modify; auto |]. intros _.
    destruct cb; simpl.
    + apply ping_keeps_events.
    + unfold pongTimeout.
      apply keeps_bind; [by apply emit_keeps_events |]. intros _.
      apply stable_keeps_events. pose proof begin_closing_stable_emitted.
      unfold on_socket. stable_auto.
    + apply connect_keeps_events.
Qed.

(** X27.  In every state the transport can reach, each ['playing'] event
    it has emitted carries the [state] of its entry. *)
Lemma reachable_playing_events (o : Options) (st : PlexSocket)
    (state playingNotif : jsval) :
  reachable o st ->
  EvPlaying state playingNotif ∈ emitted st ->
  js_field playingNotif "state" = Ok state.
Proof.
  intros Hst Hin.
  assert (events_well_formed st) as Hwf.
  { clear Hin. induction Hst as [ctor | st i _ IH _].
    - unfold new_PlexSocket.
      apply (keeps_when _ (autoConnect o) _ (connect_keeps_events ctor)).
      constructor.
    - by apply handle_keeps_events. }
  unfold events_well_formed in Hwf. rewrite Forall_forall in Hwf.
  exact (Hwf _ Hin).
Qed.

End Handlers.

(** *** The heartbeat invariant, on the tables alone *)

Section HeartbeatInv.
Implicit Types (ts : list (timer_id * (Callback * Z))) (n t : timer_id).
Implicit Types (p a : option timer_id) (ss : list ReadyState).
Implicit Types (e : timer_id * (Callback * Z)).

Lemma elem_of_drop_timer t e ts : e ∈ drop_timer t ts <-> e.1 <> t /\ e ∈ ts.
Proof. unfold drop_timer. by rewrite list_elem_of_filter. Qed.

Lemma elem_of_drop_handle h e ts : e ∈ drop_handle h ts -> e ∈ ts.
Proof. destruct h; simpl; [rewrite elem_of_drop_timer; tauto | auto]. Qed.

Lemma heartbeat_inv_shrink ts ts' n p a ss :
  heartbeat_inv ts n p a ss ->
  (forall e, e ∈ ts' -> e ∈ ts) ->
  heartbeat_inv ts' n p a ss.
Proof. intros [] Hsub. split; eauto 8. Qed.

(** Once both handles are cleared, no heartbeat timer is left. *)
Lemma cleared_no_heartbeat ts n p a ss e :
  heartbeat_inv ts n p a ss ->
  e ∈ drop_handle a (drop_handle p ts) ->
  is_heartbeat e = false.
Proof.
  intros Hinv He.
  assert (e ∈ ts) as Hin by eauto using elem_of_drop_handle.
  destruct e as [t [[] d]]; [| | reflexivity]; exfalso.
  - rewrite (ping_referenced _ _ _ _ _ Hinv _ _ Hin) in He.
    apply elem_of_drop_handle in He.
    apply elem_of_drop_timer in He as [Hne _]. by apply Hne.
  - rewrite (pong_referenced _ _ _ _ _ Hinv _ _ Hin) in He.
    apply elem_of_drop_timer in He as [Hne _]. by apply Hne.
Qed.

Lemma heartbeat_inv_onClose ts n p a ss ss' (closing : bool) d :
  heartbeat_inv ts n p a ss ->
  (forall s r, ss' !! s = Some r -> is_live r = true -> ss !! s = Some r) ->
  (closing = false ->
     (forall e, e ∈ ts -> is_reconnect e = false) /\
     (forall s r, ss' !! s = Some r -> is_live r = false)) ->
  heartbeat_inv
    (drop_handle a (drop_handle p ts)
     ++ (if closing then [] else [(n, (ConnectCallback, d))]))
    (if closing then n else S n) None None ss'.
Proof.
  intros Hinv Hlive Hre.
  assert (forall e, e ∈ drop_handle a (drop_handle p ts) -> e ∈ ts) as Hsub
    by eauto using elem_of_drop_handle.
  assert (forall e, e ∈ drop_handle a (drop_handle p ts) -> is_heartbeat e = false)
    as Hnohb by eauto using cleared_no_heartbeat.
  assert (forall e,
            e ∈ drop_handle a (drop_handle p ts)
                ++ (if closing then [] else [(n, (ConnectCallback, d))]) ->
            is_heartbeat e = false) as Hnohb'.
  { intros e [He | He]%elem_of_app; [eauto |].
    destruct closing; [by apply not_elem_of_nil in He |].
    apply list_elem_of_singleton in He. by subst. }
  split.
  - intros e1 e2 H1 _ Hb1 _. apply Hnohb' in H1. congruence.
  - intros t d' Hin. apply Hnohb' in Hin. discriminate.
  - intros t d' Hin. apply Hnohb' in Hin. discriminate.
  - discriminate.
  - discriminate.
  - intros t x [Hin | Hin]%elem_of_app.
    + pose proof (timers_fresh _ _ _ _ _ Hinv t x (Hsub _ Hin)).
      destruct closing; lia.
    + destruct closing; [by apply not_elem_of_nil in Hin |].
      apply list_elem_of_singleton in Hin. injection Hin as -> _. lia.
  - discriminate.
  - discriminate.
  - intros s1 s2 r1 r2 H1 H2 Hl1 Hl2.
    eapply (one_live _ _ _ _ _ Hinv); eauto.
  - intros e s r [Hin | Hin]%elem_of_app Hrec Hs.
    + destruct (is_live r) eqn:Hl; [| reflexivity].
      rewrite <- Hl.
      eapply (reconnect_alone _ _ _ _ _ Hinv); eauto.
    + destruct closing; [by apply not_elem_of_nil in Hin |].
      destruct (Hre eq_refl) as [_ Hdead]. eauto.
  - intros e1 e2 H1 H2 Hr1 Hr2.
    destruct closing.
    + rewrite app_nil_r in H1, H2.
      eapply (one_reconnect _ _ _ _ _ Hinv); eauto.
    + destruct (Hre eq_refl) as [Hnone _].
      apply elem_of_app in H1 as [H1 | H1];
        [apply Hsub, Hnone in H1; congruence |].
      apply elem_of_app in H2 as [H2 | H2];
        [apply Hsub, Hnone in H2; congruence |].
      apply list_elem_of_singleton in H1, H2. congruence.
  - intros e Hin Hb. apply Hnohb' in Hin. congruence.
Qed.

(** Arming a heartbeat timer when none is pending. *)
Lemma heartbeat_inv_arm_pong ts n p a ss d :
  heartbeat_inv ts n p a ss ->
  (forall e, e ∈ ts -> is_heartbeat e = false) ->
  (exists s r, ss !! s = Some r /\ closing_or_open r = true) ->
  heartbeat_inv (ts ++ [(n, (PongTimeoutCallback, d))]) (S n) p (Some n) ss.
Proof.
  intros Hinv Hnone Hsock.
  assert (forall e, e ∈ ts ++ [(n, (PongTimeoutCallback, d))] ->
                    is_heartbeat e = true -> e = (n, (PongTimeoutCallback, d))) as Hnew.
  { intros e [He | He]%elem_of_app Hb.
    - apply Hnone in He. congruence.
    - by apply list_elem_of_singleton in He. }
  split.
  - intros e1 e2 H1 H2 Hb1 Hb2. rewrite (Hnew e1), (Hnew e2); auto.
  - intros t d' Hin. apply Hnew in Hin; [discriminate | reflexivity].
  - intros t d' Hin. apply Hnew in Hin; [congruence | reflexivity].
  - intros t cb d' [Hin | Hin]%elem_of_app Hp.
    + eapply (pinger_kind _ _ _ _ _ Hinv); eauto.
    + apply list_elem_of_singleton in Hin. injection Hin as -> _ _.
      apply (pinger_fresh _ _ _ _ _ Hinv) in Hp. lia.
  - intros t cb d' [Hin | Hin]%elem_of_app [= <-].
    + apply (timers_fresh _ _ _ _ _ Hinv) in Hin. lia.
    + apply list_elem_of_singleton in Hin. congruence.
  - intros t x [Hin | Hin]%elem_of_app.
    + apply (timers_fresh _ _ _ _ _ Hinv) in Hin. lia.
    + apply list_elem_of_singleton in Hin. injection Hin as -> _. lia.
  - intros t Hp. apply (pinger_fresh _ _ _ _ _ Hinv) in Hp. lia.
  - intros t [= <-]. lia.
  - apply (one_live _ _ _ _ _ Hinv).
  - intros e s r [Hin | Hin]%elem_of_app Hrec.
    + eapply (reconnect_alone _ _ _ _ _ Hinv); eauto.
    + apply list_elem_of_singleton in Hin. subst. discriminate.
  - intros e1 e2 [H1 | H1]%elem_of_app [H2 | H2]%elem_of_app Hr1 Hr2;
      try (apply list_elem_of_singleton in H1; subst; discriminate);
      try (apply list_elem_of_singleton in H2; subst; discriminate).
    eapply (one_reconnect _ _ _ _ _ Hinv); eauto.
  - intros. exact Hsock.
Qed.

Lemma heartbeat_inv_arm_ping ts n p a ss d :
  heartbeat_inv ts n p a ss ->
  (forall e, e ∈ ts -> is_heartbeat e = false) ->
  (exists s r, ss !! s = Some r /\ closing_or_open r = true) ->
  heartbeat_inv (ts ++ [(n, (PingCallback, d))]) (S n) (Some n) a ss.
Proof.
  intros Hinv Hnone Hsock.
  assert (forall e, e ∈ ts ++ [(n, (PingCallback, d))] ->
                    is_heartbeat e = true -> e = (n, (PingCallback, d))) as Hnew.
  { intros e [He | He]%elem_of_app Hb.
    - apply Hnone in He. congruence.
    - by apply list_elem_of_singleton in He. }
  split.
  - intros e1 e2 H1 H2 Hb1 Hb2. rewrite (Hnew e1), (Hnew e2); auto.
  - intros t d' Hin. apply Hnew in Hin; [congruence | reflexivity].
  - intros t d' Hin. apply Hnew in Hin; [discriminate | reflexivity].
  - intros t cb d' [Hin | Hin]%elem_of_app [= <-].
    + apply (timers_fresh _ _ _ _ _ Hinv) in Hin. lia.
    + apply list_elem_of_singleton in Hin. congruence.
  - intros t cb d' [Hin | Hin]%elem_of_app Ha.
    + eapply (awaitPong_kind _ _ _ _ _ Hinv); eauto.
    + apply list_elem_of_singleton in Hin. injection Hin as -> _ _.
      apply (awaitPong_fresh _ _ _ _ _ Hinv) in Ha. lia.
  - intros t x [Hin | Hin]%elem_of_app.
    + apply (timers_fresh _ _ _ _ _ Hinv) in Hin. lia.
    + apply list_elem_of_singleton in Hin. injection Hin as -> _. lia.
  - intros t [= <-]. lia.
  - intros t Ha. apply (awaitPong_fresh _ _ _ _ _ Hinv) in Ha. lia.
  - apply (one_live _ _ _ _ _ Hinv).
  - intros e s r [Hin | Hin]%elem_of_app Hrec.
    + eapply (reconnect_alone _ _ _ _ _ Hinv); eauto.
    + apply list_elem_of_singleton in Hin. subst. discriminate.
  - intros e1 e2 [H1 | H1]%elem_of_app [H2 | H2]%elem_of_app Hr1 Hr2;
      try (apply list_elem_of_singleton in H1; subst; discriminate);
      try (apply list_elem_of_singleton in H2; subst; discriminate).
    eapply (one_reconnect _ _ _ _ _ Hinv); eauto.
  - intros. exact Hsock.
Qed.

(** Firing or clearing the one heartbeat timer leaves none. *)
Lemma drop_heartbeat ts n p a ss t cb d e :
  heartbeat_inv ts n p a ss ->
  (t, (cb, d)) ∈ ts -> is_heartbeat (t, (cb, d)) = true ->
  e ∈ drop_timer t ts -> is_heartbeat e = false.
Proof.
  intros Hinv Hin Hb [Hne He]%elem_of_drop_timer.
  destruct (is_heartbeat e) eqn:Hbe; [| reflexivity].
  rewrite (one_heartbeat _ _ _ _ _ Hinv e _ He Hin Hbe Hb) in Hne. by destruct Hne.
Qed.

(** Likewise for the one reconnect timer. *)
Lemma drop_reconnect ts n p a ss t cb d e :
  heartbeat_inv ts n p a ss ->
  (t, (cb, d)) ∈ ts -> is_reconnect (t, (cb, d)) = true ->
  e ∈ drop_timer t ts -> is_reconnect e = false.
Proof.
  intros Hinv Hin Hr [Hne He]%elem_of_drop_timer.
  destruct (is_reconnect e) eqn:Hre; [| reflexivity].
  rewrite (one_reconnect _ _ _ _ _ Hinv e _ He Hin Hre Hr) in Hne. by destruct Hne.
Qed.

(** A live socket opens or starts closing. *)
Lemma heartbeat_inv_set_state ts n p a ss s r r' :
  heartbeat_inv ts n p a ss ->
  ss !! s = Some r -> is_live r = true -> closing_or_open r' = true ->
  heartbeat_inv ts n p a (<[s := r']> ss).
Proof.
  intros Hinv Hs Hl Hr'.
  assert (forall s1 r1, <[s := r']> ss !! s1 = Some r1 -> is_live r1 = true ->
                        exists r0, ss !! s1 = Some r0 /\ is_live r0 = true) as Hwas.
  { intros s1 r1 H1 Hl1. destruct (decide (s = s1)) as [<- | Hne].
    - eauto.
    - rewrite list_lookup_insert_ne in H1 by done. eauto. }
  destruct Hinv. split; auto.
  - intros s1 s2 r1 r2 H1 H2 Hl1 Hl2.
    destruct (Hwas _ _ H1 Hl1) as (? & ? & ?), (Hwas _ _ H2 Hl2) as (? & ? & ?). eauto.
  - intros e s1 r1 Hin Hrec H1.
    rewrite (reconnect_alone0 e s r Hin Hrec Hs) in Hl. discriminate.
  - intros e Hin Hb. destruct (heartbeat_socket0 e Hin Hb) as (s0 & r0 & H0 & Hco).
    destruct (decide (s = s0)) as [<- | Hne].
    + exists s, r'. split; [| exact Hr'].
      apply list_lookup_insert_eq. by eapply lookup_lt_Some.
    + exists s0, r0. by rewrite list_lookup_insert_ne.
Qed.

(** A socket is built while none is live and no reconnect is pending. *)
Lemma heartbeat_inv_new_socket ts n p a ss :
  heartbeat_inv ts n p a ss ->
  (forall s r, ss !! s = Some r -> is_live r = false) ->
  (forall e, e ∈ ts -> is_reconnect e = false) ->
  heartbeat_inv ts n p a (ss ++ [CONNECTING]).
Proof.
  intros Hinv Hdead Hnone. destruct Hinv. split; auto.
  - intros s1 s2 r1 r2 H1 H2 Hl1 Hl2.
    apply lookup_app_Some in H1 as [H1 | [? H1]];
      [apply Hdead in H1; congruence |].
    apply lookup_app_Some in H2 as [H2 | [? H2]];
      [apply Hdead in H2; congruence |].
    apply lookup_lt_Some in H1, H2. simpl in *. lia.
  - intros e s r Hin Hrec. apply Hnone in Hin. congruence.
  - intros e Hin Hb. destruct (heartbeat_socket0 e Hin Hb) as (s0 & r0 & H0 & Hco).
    exists s0, r0. split; [| exact Hco].
    rewrite lookup_app_l; [exact H0 | by eapply lookup_lt_Some].
Qed.

End HeartbeatInv.

(** *** Orderly runs keep the invariant *)

Section Orderly.
Context `{Builtins}.

#[local] Arguments isReady : simpl never.

Lemma Inv_core (st st' : PlexSocket) : core st' = core st -> Inv st -> Inv st'.
Proof. unfold core, Inv. intros [= _ _ _ -> -> -> -> ->]. auto. Qed.

Lemma quiet_handle_stable (i : Input) :
  match i with
  | CallOn _ | SocketPinged _ | SocketMessage _ _ | SocketError _ _
  | SocketUnexpected _ _ _ => stable core (handle i)
  | _ => True
  end.
Proof.
  pose proof emit_stable_core.
  destruct i; try exact I;
    unfold handle, onPing, onMessage, parseData, onNotification, onPlaying, onError,
      onUnexpectedResponse, on_socket;
    stable_auto.
Qed.

Lemma readyState_is_Some (s : socket_id) (f : ReadyState -> bool) (st : PlexSocket) :
  readyState_is s f st = true -> exists r, sockets st !! s = Some r /\ f r = true.
Proof. unfold readyState_is. destruct (sockets st !! s); [eauto | discriminate]. Qed.

Lemma timer_pending_elem (t : timer_id) (st : PlexSocket) :
  timer_pending t st = true -> exists x, (t, x) ∈ timers st.
Proof.
  unfold timer_pending. intros Hex. apply existsb_exists in Hex as (t' & Hin & Heq).
  apply Nat.eqb_eq in Heq as <-.
  apply in_map_iff in Hin as ([t' x] & Heq & Hin). simpl in Heq. subst t'.
  exists x. by apply list_elem_of_In.
Qed.

Lemma isReady_open (st : PlexSocket) :
  isReady st = true -> exists s r, sockets st !! s = Some r /\ closing_or_open r = true.
Proof.
  unfold isReady. destruct (socket st) as [s |]; [| discriminate].
  destruct (sockets st !! s) as [[] |] eqn:Hs; try discriminate. eauto.
Qed.

(** [ping], as it acts on the tables. *)
Lemma ping_Inv (st : PlexSocket) :
  Inv st ->
  (forall e, e ∈ timers st -> is_heartbeat e = false) ->
  Inv (exec ping st).
Proof.
  intros Hinv Hnone.
  pose proof (isReady_open st) as Hopen.
  destruct st as [o sc r so p a ls ss ts n ev cs].
  unfold exec, ping, on_socket, setTimeout, when, bind, ret, throw, gets, modify.
  destruct (isReady _) eqn:Hready; simpl; [| exact Hinv].
  specialize (Hopen eq_refl).
  unfold isReady in Hready. simpl in *.
  destruct so as [s |]; [| discriminate]. simpl.
  unfold Inv in *. simpl in *.
  eapply heartbeat_inv_arm_pong; eauto.
Qed.

(** [onClose], as it acts on the tables. *)
Lemma onClose_Inv code reason (st : PlexSocket) (ss0 : list ReadyState) :
  heartbeat_inv (timers st) (next_timer st) (pinger st) (awaitPong st) ss0 ->
  (forall s r, sockets st !! s = Some r -> is_live r = true -> ss0 !! s = Some r) ->
  (shouldClose st = false ->
     (forall e, e ∈ timers st -> is_reconnect e = false) /\
     (forall s r, sockets st !! s = Some r -> is_live r = false)) ->
  Inv (exec (onClose code reason) st).
Proof.
  intros Hinv Hlive Hre.
  destruct (onClose_timers code reason st)
    as (Ht & _ & Hp & Ha & Hss & _ & _ & Hn).
  unfold Inv. rewrite Ht, Hp, Ha, Hss, Hn.
  by apply (heartbeat_inv_onClose _ _ _ _ ss0).
Qed.

(** The invariant reads the tables only. *)
Lemma Inv_tables (st st' : PlexSocket) :
  timers st' = timers st -> next_timer st' = next_timer st ->
  pinger st' = pinger st -> awaitPong st' = awaitPong st ->
  sockets st' = sockets st ->
  Inv st -> Inv st'.
Proof. unfold Inv. by intros -> -> -> -> ->. Qed.

Lemma begin_closing_Inv (s : socket_id) (st : PlexSocket) :
  Inv st -> Inv (exec (begin_closing s) st).
Proof.
  intros Hinv. destruct st as [o sc r so p a ls ss ts n ev cs].
  unfold exec, begin_closing, set_readyState, bind, gets, modify, ret. simpl.
  destruct (ss !! s) as [r0 |] eqn:Hs; [| exact Hinv].
  destruct r0; simpl; try exact Hinv;
    unfold Inv in *; simpl in *;
    by eapply heartbeat_inv_set_state.
Qed.

Lemma connect_Inv (ctor : option exn) (st : PlexSocket) :
  Inv st ->
  (forall s r, sockets st !! s = Some r -> is_live r = false) ->
  (forall e, e ∈ timers st -> is_reconnect e = false) ->
  Inv (exec (connect ctor) st).
Proof.
  intros Hinv Hdead Hnone.
  destruct st as [o sc r so p a ls ss ts n ev cs].
  unfold Inv in Hinv. simpl in *.
  unfold connect, exec, when, bind, gets, modify, ret, throw, emit, buildAddress.
  simpl.
  destruct (limit_reached r (reconnectMaxRetries o)); simpl;
    (destruct (ToString (hostname o)) as [host | err0]; simpl;
     [destruct (ToString (port o)) as [prt | err0]; simpl |]);
    destruct ctor as [err |]; simpl;
    first
      [ match goal with
        | |- Inv (let (_, _) := onClose ?c ?r ?s0 in _).1 =>
            pose proof (onClose_Inv c r s0 ss) as Hclose;
            unfold exec in Hclose; destruct (onClose c r s0) as [st3 [[] | e]]
        end; simpl in *; apply Hclose; by auto
      | unfold Inv; simpl; by apply heartbeat_inv_new_socket ].
Qed.

Lemma open_Inv (s : socket_id) (data : jsval) (st : PlexSocket) :
  Inv st -> enabled (SocketOpens s data) st = true ->
  Inv (step (SocketOpens s data) st).
Proof.
  intros Hinv (r & Hs & Hr)%readyState_is_Some. destruct r; try discriminate.
  assert (forall e, e ∈ timers st -> is_heartbeat e = false) as Hnone.
  { intros e Hin. destruct (is_heartbeat e) eqn:Hb; [| reflexivity].
    destruct (heartbeat_socket _ _ _ _ _ Hinv e Hin Hb) as (s0 & r0 & H0 & Hco).
    assert (s0 = s) as ->
      by (eapply (one_live _ _ _ _ _ Hinv); eauto; by destruct r0).
    pose proof (eq_trans (eq_sym H0) Hs) as Heq. injection Heq as ->. discriminate. }
  assert (step (SocketOpens s data) st
          = exec ping (log_event (EvOpen data)
                         (with_retries 0 (with_sockets (<[s := OPEN]> (sockets st)) st))))
    as -> by reflexivity.
  apply ping_Inv; [| exact Hnone].
  unfold Inv. simpl. by eapply heartbeat_inv_set_state.
Qed.

Lemma pong_Inv (s : socket_id) (st : PlexSocket) :
  Inv st -> expected (SocketPonged s) st = true ->
  Inv (step (SocketPonged s) st).
Proof.
  intros Hinv Hexp. simpl in Hexp. unfold awaitPong_active, handle_pending in Hexp.
  destruct (awaitPong st) as [t0 |] eqn:Ha; [| discriminate].
  apply timer_pending_elem in Hexp as [[cb d0] Hin].
  assert (cb = PongTimeoutCallback) as ->
    by (eapply (awaitPong_kind _ _ _ _ _ Hinv); eauto).
  assert (timers (step (SocketPonged s) st)
          = drop_timer t0 (timers st)
            ++ [(next_timer st, (PingCallback, pingInterval (options st)))]
          /\ next_timer (step (SocketPonged s) st) = S (next_timer st)
          /\ pinger (step (SocketPonged s) st) = Some (next_timer st)
          /\ awaitPong (step (SocketPonged s) st) = awaitPong st
          /\ sockets (step (SocketPonged s) st) = sockets st)
    as (Hts & Hn & Hp & Ha' & Hss).
  { destruct st as [o sc r so p a ls ss ts n ev cs]. simpl in Ha. subst a.
    run_handler. repeat split; reflexivity. }
  unfold Inv. rewrite Hts, Hn, Hp, Ha', Hss.
  apply (heartbeat_inv_arm_ping _ _ (pinger st)).
  - eapply heartbeat_inv_shrink; [exact Hinv |].
    by intros e [_ He]%elem_of_drop_timer.
  - intros e He. by eapply drop_heartbeat.
  - by eapply (heartbeat_socket _ _ _ _ _ Hinv).
Qed.

Lemma closes_Inv (s : socket_id) (code reason : jsval) (st : PlexSocket) :
  Inv st -> enabled (SocketCloses s code reason) st = true ->
  Inv (step (SocketCloses s code reason) st).
Proof.
  intros Hinv (r & Hs & Hr)%readyState_is_Some.
  assert (step (SocketCloses s code reason) st
          = exec (onClose (CloseVal code) (CloseVal reason))
              (with_sockets (<[s := CLOSED]> (sockets st)) st)) as -> by reflexivity.
  assert (forall s1 r1, <[s := CLOSED]> (sockets st) !! s1 = Some r1 ->
                        is_live r1 = true -> sockets st !! s1 = Some r1 /\ s1 <> s)
    as Hlive.
  { intros s1 r1 H1 Hl1. destruct (decide (s = s1)) as [<- | Hne].
    - rewrite list_lookup_insert_eq in H1 by (by eapply lookup_lt_Some).
      injection H1 as <-. discriminate.
    - rewrite list_lookup_insert_ne in H1 by done. auto. }
  apply (onClose_Inv _ _ _ (sockets st)); simpl.
  - exact Hinv.
  - intros s1 r1 H1 Hl1. by apply Hlive.
  - intros _. split.
    + intros e Hin. destruct (is_reconnect e) eqn:Hre; [| reflexivity].
      rewrite (reconnect_alone _ _ _ _ _ Hinv e s r Hin Hre Hs) in Hr. discriminate.
    + intros s1 r1 H1. destruct (is_live r1) eqn:Hl1; [| reflexivity].
      destruct (Hlive _ _ H1 Hl1) as [H1' Hne]. destruct Hne.
      eapply (one_live _ _ _ _ _ Hinv); eauto.
Qed.

Lemma begin_closing_returns (s : socket_id) (st : PlexSocket) :
  begin_closing s st = (exec (begin_closing s) st, Ok tt).
Proof.
  unfold exec, begin_closing, set_readyState, bind, gets, modify, ret.
  destruct (sockets st !! s) as [[] |]; reflexivity.
Qed.

Lemma pongTimeout_Inv (st : PlexSocket) : Inv st -> Inv (exec pongTimeout st).
Proof.
  intros Hinv. destruct (socket st) as [s |] eqn:Hso.
  - assert (exec pongTimeout st
            = exec (begin_closing s)
                (log_call (SocketTerminate s) (log_event EvPongTimeout st))) as ->.
    { destruct st. simpl in Hso. subst. reflexivity. }
    by apply begin_closing_Inv.
  - assert (exec pongTimeout st = log_event EvPongTimeout st) as ->.
    { destruct st. simpl in Hso. subst. reflexivity. }
    exact Hinv.
Qed.

Lemma fire_Inv (t : timer_id) (ctor : option exn) (st : PlexSocket) :
  Inv st -> Inv (step (TimerFires t ctor) st).
Proof.
  intros Hinv.
  destruct (list_find (fun e => e.1 = t) (timers st)) as [[i [t' [cb d]]] |] eqn:Hfind.
  - assert (step (TimerFires t ctor) st
            = exec (run_callback cb ctor)
                (with_timers (drop_timer t (timers st)) (next_timer st) st)) as ->.
    { unfold step, handle, fire, exec, bind, gets, modify. simpl. by rewrite Hfind. }
    apply list_find_Some in Hfind as (Hi & Ht & _). simpl in Ht. subst t'.
    assert ((t, (cb, d)) ∈ timers st) as Hin by (by eapply list_elem_of_lookup_2).
    assert (Inv (with_timers (drop_timer t (timers st)) (next_timer st) st)) as Hinv1.
    { unfold Inv. simpl. eapply heartbeat_inv_shrink; [exact Hinv |].
      by intros e [_ He]%elem_of_drop_timer. }
    destruct cb; simpl.
    + apply ping_Inv; [exact Hinv1 |]. simpl.
      intros e He. exact (drop_heartbeat _ _ _ _ _ _ _ _ e Hinv Hin eq_refl He).
    + by apply pongTimeout_Inv.
    + apply connect_Inv; [exact Hinv1 | |]; simpl.
      * intros s r Hs. exact (reconnect_alone _ _ _ _ _ Hinv _ s r Hin eq_refl Hs).
      * intros e He. exact (drop_reconnect _ _ _ _ _ _ _ _ e Hinv Hin eq_refl He).
  - assert (step (TimerFires t ctor) st = st) as ->; [| exact Hinv].
    unfold step, handle, fire, exec, bind, gets, modify. simpl. by rewrite Hfind.
Qed.

Lemma close_Inv (st : PlexSocket) : Inv st -> Inv (step CallClose st).
Proof.
  intros Hinv. destruct (socket st) as [s |] eqn:Hso.
  - assert (step CallClose st
            = with_socket None
                (exec (begin_closing s)
                   (log_call (SocketClose s) (with_shouldClose true st)))) as ->.
    { unfold step, handle, close, on_socket, exec, bind, gets, modify. simpl.
      rewrite Hso. simpl. by rewrite begin_closing_returns. }
    eapply Inv_tables; [reflexivity .. |].
    by apply begin_closing_Inv.
  - assert (step CallClose st = with_shouldClose true st) as ->; [| exact Hinv].
    unfold step, handle, close, on_socket, exec, bind, gets, modify, throw. simpl.
    by rewrite Hso.
Qed.

Lemma call_connect_Inv (ctor : option exn) (st : PlexSocket) :
  Inv st -> expected (CallConnect ctor) st = true ->
  Inv (step (CallConnect ctor) st).
Proof.
  intros Hinv [Hdead Hnone]%andb_prop.
  rewrite forallb_forall in Hdead, Hnone.
  apply connect_Inv; [exact Hinv | |].
  - intros s r Hs. apply negb_true_iff, Hdead, list_elem_of_In.
    by eapply list_elem_of_lookup_2.
  - intros e He. by apply negb_true_iff, Hnone, list_elem_of_In.
Qed.

Lemma step_Inv (i : Input) (st : PlexSocket) :
  Inv st -> enabled i st = true -> expected i st = true -> Inv (step i st).
Proof.
  intros Hinv Hen Hexp.
  pose proof (quiet_handle_stable i) as Hquiet.
  destruct i;
    try (apply (Inv_core st); [apply Hquiet | exact Hinv]).
  - by apply call_connect_Inv.
  - by apply close_Inv.
  - by apply open_Inv.
  - by apply pong_Inv.
  - by apply closes_Inv.
  - by apply fire_Inv.
Qed.

Lemma new_Inv (o : Options) (ctor : option exn) : Inv (fst (new_PlexSocket o ctor)).
Proof.
  unfold new_PlexSocket.
  match goal with
  | |- Inv (when _ _ ?this).1 => assert (Inv this) as Hthis
  end.
  { split; simpl; intros;
      solve [ discriminate
            | match goal with H : _ ∈ [] |- _ => by apply not_elem_of_nil in H end
            | match goal with H : [] !! _ = Some _ |- _ => by rewrite lookup_nil in H end ]. }
  unfold when. destruct (autoConnect o); [| exact Hthis].
  apply connect_Inv; [exact Hthis | |]; simpl.
  - intros s r Hs. by rewrite lookup_nil in Hs.
  - intros e He. by apply not_elem_of_nil in He.
Qed.

Lemma orderly_Inv (o : Options) (st : PlexSocket) : orderly o st -> Inv st.
Proof.
  induction 1 as [ctor | st i _ IH Hen Hexp].
  - apply new_Inv.
  - by apply step_Inv.
Qed.

Lemma Inv_exclusive (st : PlexSocket) : Inv st -> both_active st = false.
Proof.
  intros Hinv. unfold both_active, pinger_active, awaitPong_active, handle_pending.
  destruct (pinger st) as [p |] eqn:Hp; [| reflexivity].
  destruct (awaitPong st) as [a |] eqn:Ha; [| apply andb_false_r].
  destruct (timer_pending p st) eqn:Hpp; [| reflexivity].
  destruct (timer_pending a st) eqn:Hpa; [| reflexivity].
  apply timer_pending_elem in Hpp as [[cb1 d1] H1], Hpa as [[cb2 d2] H2].
  assert (cb1 = PingCallback) as ->
    by (eapply (pinger_kind _ _ _ _ _ Hinv); eauto).
  assert (cb2 = PongTimeoutCallback) as ->
    by (eapply (awaitPong_kind _ _ _ _ _ Hinv); eauto).
  pose proof (one_heartbeat _ _ _ _ _ Hinv _ _ H1 H2 eq_refl eq_refl).
  discriminate.
Qed.

(** What [onPong] does to the timers, in any state. *)
Lemma onPong_timers (st : PlexSocket) :
  timers (exec onPong st)
  = drop_handle (awaitPong st) (timers st)
    ++ [(next_timer st, (PingCallback, pingInterval (options st)))] /\
  calls (exec onPong st)
  = calls st
    ++ match awaitPong st with Some a => [ClearTimeout a] | None => [] end
    ++ [SetTimeout PingCallback (pingInterval (options st)) (next_timer st)].
Proof.
  destruct st as [o sc r so p a ls ss ts n ev cs]. run_handler.
  destruct a as [a |]; simpl; rewrite <- ?app_assoc; split; reflexivity.
Qed.

End Orderly.

(** C8 (as amended).  In any state, [onPong] clears the timer behind
    [awaitPong] and only then sets the new ping timer.  In every state of
    an orderly run (each pong arrives while the pong-timeout timer is
    pending, [connect()] is called from outside only when no socket is live
    and no reconnect is pending) the timer behind [pinger] and the timer
    behind [awaitPong] are not both pending; indeed at most one heartbeat
    timer is pending at all. *)
Theorem heartbeat_timers_exclusive `{Builtins} :
  (forall st : PlexSocket,
     timers (exec onPong st)
     = drop_handle (awaitPong st) (timers st)
       ++ [(next_timer st, (PingCallback, pingInterval (options st)))] /\
     calls (exec onPong st)
     = calls st
       ++ match awaitPong st with Some a => [ClearTimeout a] | None => [] end
       ++ [SetTimeout PingCallback (pingInterval (options st)) (next_timer st)]) /\
  (forall (o : Options) (st : PlexSocket),
     orderly o st ->
     both_active st = false /\
     forall e1 e2, e1 ∈ timers st -> e2 ∈ timers st ->
                   is_heartbeat e1 = true -> is_heartbeat e2 = true -> e1 = e2).
Proof.
  split.
  - apply onPong_timers.
  - intros o st Hst. apply orderly_Inv in Hst. split.
    + by apply Inv_exclusive.
    + apply (one_heartbeat _ _ _ _ _ Hst).
Qed.

Lemma beating_transport_orderly : orderly sample_options beating_transport.
Proof.
  change beating_transport
    with (step (TimerFires 1%nat None)
            (step (SocketPonged 0%nat)
               (step (SocketOpens 0%nat JUndefined)
                  (fst (new_PlexSocket sample_options None))))).
  repeat (apply orderly_step; [| reflexivity | reflexivity]).
  apply orderly_new.
Qed.

Lemma heartbeat_timers_exclusive_witness :
  orderly sample_options beating_transport /\
  awaitPong_active beating_transport = true /\
  both_active beating_transport = false.
Proof.
  split; [exact beating_transport_orderly |].
  split; [reflexivity |].
  exact (proj1 (proj2 heartbeat_timers_exclusive sample_options beating_transport
                  beating_transport_orderly)).
Defined.

(** C8 as stated fails.  A second pong, which answers no ping, sets a second
    ping timer without clearing the first; when the first fires, [ping]
    arms the pong-timeout timer while the second ping timer is still
    pending.  The same happens, with every pong answering a ping, when
    [connect()] is called while a socket is open: the sockets it builds
    open in turn, and [ping] arms the pong-timeout timer while the ping
    timer of an earlier round is pending. *)
Lemma heartbeat_timers_overlap :
  (reachable sample_options overlapping_transport /\
   pinger_active overlapping_transport = true /\
   awaitPong_active overlapping_transport = true /\
   timers overlapping_transport
   = [(2%nat, (PingCallback, 10000%Z)); (3%nat, (PongTimeoutCallback, 5000%Z))]) /\
  (reachable sample_options reconnected_transport /\
   pinger_active reconnected_transport = true /\
   awaitPong_active reconnected_transport = true /\
   timers reconnected_transport
   = [(0%nat, (PongTimeoutCallback, 5000%Z)); (2%nat, (PingCallback, 10000%Z));
      (3%nat, (PongTimeoutCallback, 5000%Z))]).
Proof.
  split; (split; [| repeat split; reflexivity]).
  - change overlapping_transport
      with (step (TimerFires 1%nat None)
              (step (SocketPonged 0%nat)
                 (step (SocketPonged 0%nat)
                    (step (SocketOpens 0%nat JUndefined)
                       (fst (new_PlexSocket sample_options None)))))).
    repeat (apply reachable_step; [| reflexivity]).
    apply reachable_new.
  - change reconnected_transport
      with (step (SocketOpens 2%nat JUndefined)
              (step (CallConnect None)
                 (step (SocketPonged 1%nat)
                    (step (SocketOpens 1%nat JUndefined)
                       (step (CallConnect None)
                          (step (SocketOpens 0%nat JUndefined)
                             (fst (new_PlexSocket sample_options None)))))))).
    repeat (apply reachable_step; [| reflexivity]).
    apply reachable_new.
Qed.

Lemma parse_failure_emits_message_witness :
  JSON_parse "{" = None /\
  has_listener "error" listening_transport = true /\
  emitted (exec (onMessage "{") listening_transport)
  = [EvOpen JUndefined; EvError (SyntaxError "{"); EvMessage (JBool true)] /\
  outcome (onMessage "{") listening_transport = Ok tt.
Proof.
  split; [reflexivity |]. split; [reflexivity |].
  destruct (parse_failure_emits_message (H := sample_builtins) "{" listening_transport)
    as [-> ->]; [reflexivity | reflexivity |].
  split; reflexivity.
Defined.

Lemma close_reconnect_policy_witness :
  shouldClose beating_transport = false /\
  timers (step (SocketCloses 0%nat JUndefined JUndefined) beating_transport)
  = [(3%nat, (ConnectCallback, 10000%Z))] /\
  shouldClose (step CallClose beating_transport) = true /\
  timers (step (SocketCloses 0%nat JUndefined JUndefined)
            (step CallClose beating_transport))
  = [].
Proof.
  split; [reflexivity |].
  destruct (close_reconnect_policy beating_transport 0%nat JUndefined JUndefined)
    as (_ & Hunasked & _).
  destruct (Hunasked eq_refl) as [_ ->].
  split; [reflexivity |].
  destruct (close_reconnect_policy (step CallClose beating_transport) 0%nat
              JUndefined JUndefined) as (Hasked & _ & Hflag).
  split; [exact (Hflag beating_transport [] eq_refl) |].
  destruct (Hasked (Hflag beating_transport [] eq_refl)) as [_ ->].
  reflexivity.
Defined.



End TransportProps.

(** * Further properties of the code *)

(** ** The filters of the node *)

Module FilterEngineMore.
Import JS FilterEngine JSFacts FilterEngineProps Samples.

(** A list already in ascending [idx] order goes through the sort as it
    is. *)
Lemma Array_sort_sorted_id (l : list Filter) :
  StronglySorted idx_le l -> Array_sort compareIdx l = l.
Proof.
  induction 1 as [| f l Hl IH Hf]; [reflexivity |].
  simpl. rewrite IH. destruct l as [| g l']; [reflexivity |].
  simpl. destruct (compareIdx f g >? 0)%Z eqn:Hc; [| reflexivity].
  apply compareIdx_pos in Hc. inversion_clear Hf as [| ? ? Hfg _].
  unfold idx_le in Hfg. lia.
Qed.

(** X1.  The constructor's [sort] is a stable sort by [idx]: the node's
    filters are the configured ones in ascending [idx] order, filters with
    the same [idx] keep the order of the configuration, and a configuration
    that is in order already is kept as it is. *)
Theorem constructor_sort_is_stable (cfg : list Filter) :
  let fs := filters (new_PlayingNode (Some cfg)) in
  StronglySorted idx_le fs /\
  fs ≡ₚ cfg /\
  (forall i : Z, filter (fun g => idx g = i) fs = filter (fun g => idx g = i) cfg) /\
  (StronglySorted idx_le cfg -> fs = cfg).
Proof.
  simpl. repeat split.
  - apply Array_sort_sorted.
  - apply Array_sort_perm.
  - intros i. apply Array_sort_stable.
  - apply Array_sort_sorted_id.
Qed.

Section Evaluation.
Context `{Builtins}.

Lemma compare_unknown (op : string) (l r : jsany) :
  operator_of op = None -> compare op l r = Ok JUndefined.
Proof.
  unfold operator_of, compare.
  repeat match goal with
         | |- context [String.eqb op ?s] => destruct (String.eqb op s)
         end; intros; try discriminate; reflexivity.
Qed.

(** The evaluation of a filter returns when its key path resolves in the
    data and its operands can be coerced and printed, whatever its operator
    is. *)
Lemma evaluates_plain (session : jsval) (f : Filter) :
  path_resolves session f -> operands_print session f -> evaluates session f.
Proof.
  intros Hp [Hl Hr].
  destruct (spec_coerce_prints (valueType_of (valueType f)) _ Hl) as (l' & Hl' & Hpl).
  destruct (spec_coerce_prints (valueType_of (valueType f)) _ Hr) as (r' & Hr' & Hpr).
  assert (exists c, compare (operator f) (Data l') (Data r') = Ok c) as [c Hc].
  { destruct (operator_of (operator f)) as [o |] eqn:Ho.
    - rewrite (compare_known _ o) by exact Ho.
      destruct (spec_apply_returns o l' r' Hpl Hpr) as [b ->]. simpl. eauto.
    - rewrite compare_unknown by exact Ho. eauto. }
  exists c. unfold evalFilter. rewrite (walk_plain _ _ Hp). simpl.
  fold (spec_resolve session (key f)).
  rewrite !coerce_spec, Hr'. simpl. rewrite Hl'. simpl. rewrite Hc. simpl.
  destruct Hpl as [s1 ->], Hpr as [s2 ->]. reflexivity.
Qed.

Lemma forEachFilter_returns_iff (session : jsval) (fs : list Filter) (acc : jsval) :
  (exists m, forEachFilter fs session acc = Ok m) <-> Forall (evaluates session) fs.
Proof.
  revert acc. induction fs as [| f fs IH]; intros acc; simpl.
  - split; [constructor | eauto].
  - rewrite Forall_cons. unfold evaluates at 1. split.
    + intros [m Hm]. destruct (evalFilter session f) as [c | e]; [| discriminate].
      simpl in Hm. split; [eauto |]. apply (IH (js_and acc c)). eauto.
    + intros [[c Hc] Hfs]. rewrite Hc. simpl. by apply IH.
Qed.

(** The first filter whose evaluation throws ends the loop with what it
    threw, whatever the filters before it answered. *)
Lemma forEachFilter_throws (session : jsval) (before after : list Filter) (f : Filter)
    (e : exn) (acc : jsval) :
  Forall (evaluates session) before ->
  evalFilter session f = Throw e ->
  forEachFilter (before ++ f :: after) session acc = Throw e.
Proof.
  intros Hb Hf. revert acc.
  induction Hb as [| g before [c Hg] _ IH]; intros acc; simpl.
  - by rewrite Hf.
  - rewrite Hg. simpl. apply IH.
Qed.

(** X2.  [matchesFilters] returns (rather than throws) exactly when the
    evaluation of every filter returns: it evaluates every filter, with no
    way out of the loop once the answer is [false], so that the first
    filter whose evaluation throws makes it throw the same, whatever the
    filters before that one answered.  The evaluation of a filter returns
    in particular when its key path resolves in the data of the session
    and both its operands can be coerced and printed (each has a string
    representation, or the [valueType] is [bool]). *)
Theorem matchesFilters_returns_iff (node : PlayingNode) (session : jsval) :
  ((exists m, matchesFilters node session = Ok m)
   <-> Forall (evaluates session) (filters node)) /\
  (forall before f after e,
     filters node = before ++ f :: after ->
     Forall (evaluates session) before ->
     evalFilter session f = Throw e ->
     matchesFilters node session = Throw e) /\
  (forall f, path_resolves session f -> operands_print session f ->
             evaluates session f).
Proof.
  split; [apply forEachFilter_returns_iff |]. split.
  - intros before f after e Hfs Hb Hf. unfold matchesFilters. rewrite Hfs.
    by apply forEachFilter_throws.
  - apply evaluates_plain.
Qed.

Lemma forEachFilter_falsy (session : jsval) (fs : list Filter) (acc : jsval) :
  ToBoolean acc = false ->
  Forall (evaluates session) fs ->
  forEachFilter fs session acc = Ok acc.
Proof.
  intros Hacc. induction 1 as [| f fs [c Hf] _ IH]; simpl; [reflexivity |].
  rewrite Hf. simpl. unfold js_and. rewrite Hacc. exact IH.
Qed.

Lemma evalFilter_unknown (session : jsval) (f : Filter) (c : jsval) :
  operator_of (operator f) = None -> evalFilter session f = Ok c -> c = JUndefined.
Proof.
  intros Ho. unfold evalFilter.
  destruct (walk _ _) as [sv |]; [| discriminate]. simpl.
  destruct (coerce _ sv) as [sv' |]; [| discriminate]. simpl.
  destruct (coerce _ (Data _)) as [fv' |]; [| discriminate]. simpl.
  rewrite compare_unknown by exact Ho. simpl.
  destruct (js_String fv'); [| discriminate]. simpl.
  destruct (js_String sv'); [| discriminate]. simpl.
  by intros [= <-].
Qed.

Lemma forEachFilter_unknown (session : jsval) (fs : list Filter) (acc : jsval) :
  Forall (evaluates session) fs ->
  Exists (fun f => operator_of (operator f) = None) fs ->
  exists m, forEachFilter fs session acc = Ok m /\ ToBoolean m = false.
Proof.
  intros Hp Hex. revert acc.
  induction Hex as [f fs Hf | f fs _ IH]; intros acc;
    apply Forall_cons in Hp as [[c Hc] Hpfs]; simpl; rewrite Hc; simpl.
  - rewrite (evalFilter_unknown _ _ _ Hf Hc).
    assert (ToBoolean (js_and acc JUndefined) = false) as Hfalsy.
    { unfold js_and. destruct (ToBoolean acc) eqn:Hacc; [reflexivity | exact Hacc]. }
    rewrite forEachFilter_falsy by assumption. eauto.
  - by apply IH.
Qed.

(** X3.  The second [switch] has no default: a filter whose operator is
    none of the six leaves [comparison] undefined, and then, whatever the
    other filters answer, [matchesFilters] returns a falsy value (provided
    the evaluation of every filter returns, so that it returns at all). *)
Theorem unknown_operator_never_matches (node : PlayingNode) (session : jsval) :
  Forall (evaluates session) (filters node) ->
  Exists (fun f => operator_of (operator f) = None) (filters node) ->
  exists m, matchesFilters node session = Ok m /\ ToBoolean m = false.
Proof. apply forEachFilter_unknown. Qed.

Lemma split_on_no_separator (sep : ascii) (s : string) :
  (forall i, String.get i s <> Some sep) -> split_on sep s = [s].
Proof.
  induction s as [| c s IH]; intros Hs; [reflexivity |].
  simpl. destruct (Ascii.eqb_spec c sep) as [-> | Hne].
  - by destruct (Hs 0%nat).
  - rewrite IH; [reflexivity |]. intros i. exact (Hs (S i)).
Qed.

(** X4.  A [str] filter on a top-level name that the session has neither
    as a field nor from its prototype compares the literal with the text
    ["undefined"]: under [eq] it holds exactly when the literal prints as
    ["undefined"]. *)
Theorem str_filter_on_missing_field
    (fields : list (string * jsval)) (f : Filter) (text : string) :
  valueType f = "str" ->
  operator f = "eq" ->
  (forall i, String.get i (key f) <> Some "."%char) ->
  lookup_field (key f) fields = None ->
  inherited KObject (key f) = None ->
  ToString (value f) = Ok text ->
  evalFilter (JObj fields) f = Ok (JBool (text =? "undefined")%string).
Proof.
  intros Hvt Hop Hkey Hmiss Hlib Htext. unfold evalFilter.
  rewrite (split_on_no_separator _ _ Hkey). cbn [walk rbind].
  assert (js_get (Data (JObj fields)) (key f) = Ok (Data JUndefined)) as ->.
  { unfold js_get. simpl. by rewrite Hmiss, Hlib. }
  cbn [rbind]. rewrite Hvt, Hop. unfold coerce, compare, js_String.
  cbn -[ToString]. rewrite Htext. reflexivity.
Qed.

End Evaluation.

Lemma unknown_operator_never_matches_witness :
  Forall (evaluates session_titled)
    (filters (new_PlayingNode (Some [by_title_contains; by_player_state]))) /\
  Exists (fun f => operator_of (operator f) = None)
    (filters (new_PlayingNode (Some [by_title_contains; by_player_state]))) /\
  exists m,
    matchesFilters (new_PlayingNode (Some [by_title_contains; by_player_state]))
      session_titled = Ok m /\
    ToBoolean m = false.
Proof.
  assert (Forall (evaluates session_titled)
            (filters (new_PlayingNode (Some [by_title_contains; by_player_state]))))
    as Hp by (repeat (apply Forall_cons; split); try (by constructor);
              eexists; reflexivity).
  assert (Exists (fun f => operator_of (operator f) = None)
            (filters (new_PlayingNode (Some [by_title_contains; by_player_state]))))
    as Hex by (apply Exists_cons_tl, Exists_cons_hd; reflexivity).
  split; [exact Hp |]. split; [exact Hex |].
  exact (unknown_operator_never_matches _ _ Hp Hex).
Defined.

Lemma str_filter_on_missing_field_witness :
  valueType by_user_name = "str" /\
  operator by_user_name = "eq" /\
  lookup_field (key by_user_name) session_without_player = None /\
  inherited KObject (key by_user_name) = None /\
  ToString (value by_user_name) = Ok "undefined" /\
  evalFilter (JObj session_without_player) by_user_name = Ok (JBool true).
Proof.
  repeat (split; [reflexivity |]).
  apply (str_filter_on_missing_field session_without_player by_user_name "undefined");
    try reflexivity.
  intros i. do 5 (destruct i as [| i]; [discriminate |]). discriminate.
Defined.

(** A key can leave the data and come back: [session.constructor] is the
    function [Object], whose [name] is a string again, and the filter
    holds.  The walk of the specification finds no field [constructor]. *)
Example constructor_name_filter :
  matchesFilters (new_PlayingNode (Some [by_constructor_name]))
    (JObj session_without_player)
  = Ok (JBool true) /\
  spec_resolve (JObj session_without_player) (key by_constructor_name) = JUndefined /\
  spec_matches (JObj session_without_player) [by_constructor_name] = Ok false.
Proof. repeat split; reflexivity. Qed.

End FilterEngineMore.

(** ** The playing listener *)

Module ProcessorMore.
Import JS Eff FilterEngine Processor ProcessorProps Views Samples.

Section ListenerMore.
Context `{Builtins}.

(** The listener, case by case, as a function of the world. *)
Lemma onPlaying_unreadable node state notification fetched e (w : World) :
  js_field notification "sessionKey" = Throw e ->
  exec (onPlaying node state notification fetched) w = w.
Proof. intros Hk. unfold exec, onPlaying, bind, lift. by rewrite Hk. Qed.

(** What the [catch] callback leaves: one more warning, or nothing when the
    reason cannot be printed. *)
Lemma onRejected_world (reason : exn) (w : World) :
  exec (onRejected reason) w
  = match exn_text reason with
    | Ok text => warn ("failed to fetch session details from Plex: " ++ text)%string w
    | Throw _ => w
    end.
Proof. unfold exec, onRejected, bind, lift. by destruct (exn_text reason). Qed.

Lemma onPlaying_rejected node state notification sessionKey reason (w : World) :
  js_field notification "sessionKey" = Ok sessionKey ->
  exec (onPlaying node state notification (FetchRejected reason)) w
  = match exn_text reason with
    | Ok text => warn ("failed to fetch session details from Plex: " ++ text)%string w
    | Throw _ => w
    end.
Proof.
  intros Hk. rewrite <- onRejected_world. unfold exec, onPlaying, bind, lift.
  by rewrite Hk.
Qed.

Lemma onPlaying_cases node state notification sessionKey session (w : World) :
  js_field notification "sessionKey" = Ok sessionKey ->
  let w' := exec (onPlaying node state notification (Resolved session)) w in
  match session with
  | None => w' = finish state sessionKey w
  | Some l =>
      if js_strict_eq (prevState_of (record_at l w)) state
      then w' = finish state sessionKey w
      else match matchesFilters node (JObj (record_at l w)) with
           | Ok matched =>
               w' = finish state sessionKey
                      (write_field l "prevState" state
                         (if ToBoolean matched
                          then send {| payload := state; plex := notification;
                                       session := Some l |} w
                          else w))
           | Throw e =>
               w' = match exn_text e with
                    | Ok text =>
                        warn ("failed to fetch session details from Plex: "
                              ++ text)%string w
                    | Throw _ => w
                    end
           end
  end.
Proof.
  intros Hk. simpl. unfold exec.
  rewrite (onPlaying_resolved _ _ _ sessionKey) by exact Hk. unfold catch, finish.
  destruct session as [l |].
  - destruct (js_strict_eq (prevState_of (record_at l w)) state) eqn:Heq.
    + rewrite onFetched_same_state by exact Heq.
      by destruct (js_strict_eq state (JStr "stopped")).
    + destruct (matchesFilters node (JObj (record_at l w))) as [matched | e] eqn:Hm.
      * rewrite (onFetched_new_state _ _ _ _ _ _ matched) by assumption.
        by destruct (js_strict_eq state (JStr "stopped")).
      * rewrite (onFetched_throws _ _ _ _ _ _ e) by assumption.
        apply onRejected_world.
  - rewrite onFetched_no_session. by destruct (js_strict_eq state (JStr "stopped")).
Qed.

Ltac listener_cases Hk session :=
  let Hc := fresh "Hc" in
  match goal with
  | |- context [exec (onPlaying ?node ?state ?notification (Resolved session)) ?w] =>
      pose proof (onPlaying_cases node state notification _ session w Hk) as Hc;
      simpl in Hc;
      destruct session as [?l |];
      [ destruct (js_strict_eq (prevState_of (record_at _ w)) state) eqn:?Heq;
        [| destruct (matchesFilters node (JObj (record_at _ w))) as [?matched | ?e]
             eqn:?Hm ]
      |];
      rewrite Hc; unfold finish;
      try match goal with
          | |- context [exn_text ?e] => destruct (exn_text e)
          end
  end.

(** X5.  An event that ends in a warning changes nothing else: when the
    fetch rejects, or the filter evaluation throws inside the [then]
    callback, no message has been sent, no record written and nothing
    deleted. *)
Theorem failed_event_changes_nothing
    (node : PlayingNode) (state notification : jsval) (fetched : Fetched) (w : World) :
  let w' := exec (onPlaying node state notification fetched) w in
  warnings w' <> warnings w ->
  heap w' = heap w /\ sessions w' = sessions w /\
  deleted w' = deleted w /\ sent w' = sent w.
Proof.
  simpl. intros Hwarn.
  destruct (js_field notification "sessionKey") as [sessionKey | e0] eqn:Hk.
  - destruct fetched as [session | reason].
    + revert Hwarn. listener_cases Hk session;
        try destruct (js_strict_eq state (JStr "stopped"));
        try destruct (ToBoolean matched); simpl; intros Hwarn;
        try (by destruct Hwarn); repeat split; reflexivity.
    + rewrite (onPlaying_rejected _ _ _ sessionKey) by exact Hk.
      destruct (exn_text reason); repeat split; reflexivity.
  - rewrite (onPlaying_unreadable _ _ _ _ e0) in Hwarn by exact Hk. by destruct Hwarn.
Qed.

(** X6.  Only a [stopped] event deletes: for any other state the store and
    the calls of [sessions.delete] are as before, however the fetch
    settles. *)
Theorem only_stopped_deletes
    (node : PlayingNode) (state notification : jsval) (fetched : Fetched) (w : World) :
  js_strict_eq state (JStr "stopped") = false ->
  let w' := exec (onPlaying node state notification fetched) w in
  sessions w' = sessions w /\ deleted w' = deleted w.
Proof.
  intros Hstate. simpl.
  destruct (js_field notification "sessionKey") as [sessionKey | e0] eqn:Hk.
  - destruct fetched as [session | reason].
    + listener_cases Hk session; rewrite ?Hstate;
        try destruct (ToBoolean matched); split; reflexivity.
    + rewrite (onPlaying_rejected _ _ _ sessionKey) by exact Hk.
      destruct (exn_text reason); split; reflexivity.
  - rewrite (onPlaying_unreadable _ _ _ _ e0) by exact Hk. split; reflexivity.
Qed.

(** X7.  At most one message is sent for an event, and exactly then: the
    fetch resolved to a session whose [prevState] differs from the state
    and on which [matchesFilters] returned a truthy value.  The message
    carries the state, the notification and the session. *)
Theorem emission_exactly_when
    (node : PlayingNode) (state notification sessionKey : jsval)
    (session : option loc) (w : World) :
  js_field notification "sessionKey" = Ok sessionKey ->
  sent (exec (onPlaying node state notification (Resolved session)) w)
  = sent w
    ++ match session with
       | Some l =>
           if js_strict_eq (prevState_of (record_at l w)) state then []
           else match matchesFilters node (JObj (record_at l w)) with
                | Ok matched =>
                    if ToBoolean matched
                    then [ {| payload := state; plex := notification;
                              session := Some l |} ]
                    else []
                | Throw _ => []
                end
       | None => []
       end.
Proof.
  intros Hk.
  listener_cases Hk session;
    try destruct (js_strict_eq state (JStr "stopped"));
    try destruct (ToBoolean matched); simpl; by rewrite ?app_nil_r.
Qed.

Lemma record_at_write_field (l l' : loc) (k : string) (v : jsval) (w : World) :
  record_at l' (write_field l k v w)
  = if decide (l = l') then set_field k v (record_at l w) else record_at l' w.
Proof.
  unfold record_at, write_field. simpl. rewrite lookup_insert.
  by destruct (decide (l = l')).
Qed.

(** X8.  The listener writes nothing but [prevState]: every other field of
    every session record reads after the event as it did before. *)
Theorem only_prevState_written
    (node : PlayingNode) (state notification : jsval) (fetched : Fetched) (w : World)
    (l' : loc) (k : string) :
  k <> "prevState" ->
  lookup_field k (record_at l' (exec (onPlaying node state notification fetched) w))
  = lookup_field k (record_at l' w).
Proof.
  intros Hk'.
  destruct (js_field notification "sessionKey") as [sessionKey | e0] eqn:Hk.
  - destruct fetched as [session | reason].
    + listener_cases Hk session;
        try destruct (js_strict_eq state (JStr "stopped"));
        try destruct (ToBoolean matched); try reflexivity;
        change (record_at l' (store_delete sessionKey ?x)) with (record_at l' x);
        rewrite record_at_write_field;
        (destruct (decide (l = l')) as [<- | _]; [| reflexivity]);
        rewrite lookup_set_field_ne by (intros ?; by subst); reflexivity.
    + rewrite (onPlaying_rejected _ _ _ sessionKey) by exact Hk.
      by destruct (exn_text reason).
  - by rewrite (onPlaying_unreadable _ _ _ _ e0).
Qed.

(** X9.  Deduplication: when the same event is delivered twice and the
    fetch resolves to the same record, the record's [prevState] equals
    ([===]) the state after the first delivery and the second delivery
    sends nothing (provided the state equals itself under [===], as every
    state that is a string does, and the filters can be evaluated the first
    time). *)
Theorem repeated_event_sends_once
    (node : PlayingNode) (state notification sessionKey : jsval) (l : loc) (w : World) :
  js_field notification "sessionKey" = Ok sessionKey ->
  js_strict_eq state state = true ->
  filters_evaluate node (Some l) w ->
  let w1 := exec (onPlaying node state notification (Resolved (Some l))) w in
  let w2 := exec (onPlaying node state notification (Resolved (Some l))) w1 in
  js_strict_eq (prevState_of (record_at l w1)) state = true /\ sent w2 = sent w1.
Proof.
  intros Hk Hrefl [matched Hm]. simpl.
  set (w1 := exec (onPlaying node state notification (Resolved (Some l))) w).
  assert (js_strict_eq (prevState_of (record_at l w1)) state = true) as Hsame.
  { pose proof (onPlaying_cases node state notification _ (Some l) w Hk) as Hc.
    simpl in Hc. fold w1 in Hc.
    destruct (js_strict_eq (prevState_of (record_at l w)) state) eqn:Heq.
    - rewrite Hc. unfold finish.
      by destruct (js_strict_eq state (JStr "stopped")).
    - rewrite Hm in Hc. rewrite Hc. unfold finish.
      destruct (js_strict_eq state (JStr "stopped"));
        change (record_at l (store_delete sessionKey ?x)) with (record_at l x);
        rewrite record_at_write_field; rewrite decide_True by done;
        unfold prevState_of; by rewrite lookup_set_field. }
  split; [exact Hsame |].
  pose proof (onPlaying_cases node state notification _ (Some l) w1 Hk) as Hc.
  simpl in Hc. rewrite Hsame in Hc. rewrite Hc. unfold finish.
  by destruct (js_strict_eq state (JStr "stopped")).
Qed.

End ListenerMore.

Lemma throwing_event_warns :
  warnings (exec (onPlaying (new_PlayingNode (Some [by_player_state])) (JStr "stopped")
                    (notification_of "stopped") (Resolved (Some 0%nat)))
                 (world_of session_without_player))
  <> warnings (world_of session_without_player).
Proof. intros Heq. vm_compute in Heq. discriminate Heq. Qed.

Lemma failed_event_changes_nothing_witness :
  warnings (exec (onPlaying (new_PlayingNode (Some [by_player_state])) (JStr "stopped")
                    (notification_of "stopped") (Resolved (Some 0%nat)))
                 (world_of session_without_player))
  <> warnings (world_of session_without_player) /\
  sent (exec (onPlaying (new_PlayingNode (Some [by_player_state])) (JStr "stopped")
                (notification_of "stopped") (Resolved (Some 0%nat)))
             (world_of session_without_player))
  = sent (world_of session_without_player).
Proof.
  split; [exact throwing_event_warns |].
  exact (proj2 (proj2 (proj2
           (failed_event_changes_nothing (new_PlayingNode (Some [by_player_state]))
              (JStr "stopped") (notification_of "stopped") (Resolved (Some 0%nat))
              (world_of session_without_player) throwing_event_warns)))).
Defined.

Lemma only_stopped_deletes_witness :
  js_strict_eq (JStr "paused") (JStr "stopped") = false /\
  sessions (exec (onPlaying (new_PlayingNode (Some [by_player_state])) (JStr "paused")
                    (notification_of "paused") (Resolved (Some 0%nat)))
                 (world_of record_playing))
  = sessions (world_of record_playing).
Proof.
  split; [reflexivity |].
  exact (proj1 (only_stopped_deletes (new_PlayingNode (Some [by_player_state]))
                  (JStr "paused") (notification_of "paused") (Resolved (Some 0%nat))
                  (world_of record_playing) eq_refl)).
Defined.

Lemma emission_exactly_when_witness :
  js_field (notification_of "playing") "sessionKey" = Ok (JStr "7") /\
  sent (exec (onPlaying (new_PlayingNode (Some [by_player_state])) (JStr "playing")
                (notification_of "playing") (Resolved (Some 0%nat)))
             (world_of record_paused))
  = [ {| payload := JStr "playing"; plex := notification_of "playing";
         session := Some 0%nat |} ].
Proof.
  split; [reflexivity |].
  rewrite (emission_exactly_when (new_PlayingNode (Some [by_player_state]))
             (JStr "playing") (notification_of "playing") (JStr "7") (Some 0%nat)
             (world_of record_paused) eq_refl).
  reflexivity.
Defined.

Lemma only_prevState_written_witness :
  "Player" <> "prevState" /\
  lookup_field "Player"
    (record_at 0%nat
       (exec (onPlaying (new_PlayingNode (Some [by_player_state])) (JStr "playing")
                (notification_of "playing") (Resolved (Some 0%nat)))
             (world_of record_paused)))
  = Some (JObj [("state", JStr "playing")]).
Proof.
  assert ("Player" <> "prevState") as Hne by discriminate.
  split; [exact Hne |].
  rewrite (only_prevState_written (new_PlayingNode (Some [by_player_state]))
             (JStr "playing") (notification_of "playing") (Resolved (Some 0%nat))
             (world_of record_paused) 0%nat "Player" Hne).
  reflexivity.
Defined.

Lemma repeated_event_sends_once_witness :
  js_field (notification_of "playing") "sessionKey" = Ok (JStr "7") /\
  js_strict_eq (JStr "playing") (JStr "playing") = true /\
  filters_evaluate (new_PlayingNode (Some [by_player_state])) (Some 0%nat)
    (world_of record_paused) /\
  sent (exec (onPlaying (new_PlayingNode (Some [by_player_state])) (JStr "playing")
                (notification_of "playing") (Resolved (Some 0%nat)))
          (exec (onPlaying (new_PlayingNode (Some [by_player_state])) (JStr "playing")
                   (notification_of "playing") (Resolved (Some 0%nat)))
                (world_of record_paused)))
  = sent (exec (onPlaying (new_PlayingNode (Some [by_player_state])) (JStr "playing")
                  (notification_of "playing") (Resolved (Some 0%nat)))
               (world_of record_paused)).
Proof.
  assert (filters_evaluate (new_PlayingNode (Some [by_player_state])) (Some 0%nat)
            (world_of record_paused)) as Hev
    by (exists (JBool true); reflexivity).
  split; [reflexivity |]. split; [reflexivity |]. split; [exact Hev |].
  exact (proj2 (repeated_event_sends_once (new_PlayingNode (Some [by_player_state]))
                  (JStr "playing") (notification_of "playing") (JStr "7") 0%nat
                  (world_of record_paused) eq_refl eq_refl Hev)).
Defined.

End ProcessorMore.

(** ** Numbers that count *)

Module JSMore.
Import JS.

Lemma digits2_pos_iter_xO (p d : positive) :
  Zpos (digits2_pos (Pos.iter xO p d)) = (Zpos (digits2_pos p) + Zpos d)%Z.
Proof.
  induction d as [| d IH] using Pos.peano_ind.
  - simpl. lia.
  - rewrite Pos.iter_succ. simpl. lia.
Qed.

Lemma digits2_pos_bound (p : positive) (n : Z) :
  (0 <= n)%Z -> (Zpos p < 2 ^ n)%Z -> (Zpos (digits2_pos p) <= n)%Z.
Proof.
  revert n. induction p as [p IH | p IH |]; intros n Hn Hp; simpl.
  - assert (1 <= n)%Z by (destruct (Z.eq_dec n 0) as [-> |]; [simpl in Hp; lia | lia]).
    replace n with (Z.succ (n - 1)) in Hp by lia. rewrite Z.pow_succ_r in Hp by lia.
    specialize (IH (n - 1)%Z). lia.
  - assert (1 <= n)%Z by (destruct (Z.eq_dec n 0) as [-> |]; [simpl in Hp; lia | lia]).
    replace n with (Z.succ (n - 1)) in Hp by lia. rewrite Z.pow_succ_r in Hp by lia.
    specialize (IH (n - 1)%Z). lia.
  - destruct (Z.eq_dec n 0) as [-> |]; [simpl in Hp; lia | lia].
Qed.

(** A mantissa of 53 bits is kept as it is. *)
Lemma binary_round_aux_canonical (m : positive) (e : Z) :
  Zpos (digits2_pos m) = 53%Z -> (-52 <= e)%Z ->
  binary_round_aux prec emax false (Zpos m) e loc_Exact
  = if (e <=? emax - prec)%Z then S754_finite false m e else S754_infinity false.
Proof.
  intros Hd He. unfold binary_round_aux.
  assert (shr_fexp prec emax (Zpos m) e loc_Exact
          = ({| shr_m := Zpos m; shr_r := false; shr_s := false |}, e)) as Hshr.
  { unfold shr_fexp, shr, fexp, emin. simpl Zdigits2. rewrite Hd.
    replace (Z.max (53 + e - prec) (3 - emax - prec) - e)%Z with 0%Z
      by (unfold prec, emax; lia).
    reflexivity. }
  rewrite Hshr. simpl. rewrite Hshr. reflexivity.
Qed.

(** A positive integer below 2^53 is a finite, non-zero number. *)
Lemma number_of_Z_pos (p : positive) :
  (Zpos p < 2 ^ 53)%Z ->
  exists m e, number_of_Z (Zpos p) = S754_finite false m e.
Proof.
  intros Hp. unfold number_of_Z, binary_normalize, binary_round.
  pose proof (digits2_pos_bound p 53 ltac:(lia) Hp) as Hd.
  unfold shl_align, fexp, emin.
  replace (Z.max (Zpos (digits2_pos p) + 0 - prec) (3 - emax - prec) - 0)%Z
    with (Zpos (digits2_pos p) - 53)%Z by (unfold prec, emax; lia).
  destruct (Zpos (digits2_pos p) - 53)%Z as [| q | q] eqn:Hq; try lia.
  - rewrite binary_round_aux_canonical by lia. simpl. eauto.
  - rewrite binary_round_aux_canonical.
    + replace (Z.max (Zpos (digits2_pos p) + 0 - prec) (3 - emax - prec))%Z
        with (Z.neg q) by (unfold prec, emax; lia).
      destruct (Z.neg q <=? emax - prec)%Z eqn:Hle; [eauto |].
      apply Z.leb_gt in Hle. unfold emax, prec in Hle. lia.
    + rewrite digits2_pos_iter_xO. lia.
    + unfold prec, emax. lia.
Qed.

(** The [length] of a non-empty array is truthy. *)
Lemma length_truthy `{Builtins} {A} (l : list A) :
  l <> [] -> (Z.of_nat (length l) < 2 ^ 53)%Z ->
  ToBoolean (JNum (number_of_Z (Z.of_nat (length l)))) = true.
Proof.
  intros Hl Hlen. destruct l as [| x l]; [done |].
  destruct (Z.of_nat (length (x :: l))) as [| p | p] eqn:Hz; try (simpl in Hz; lia).
  destruct (number_of_Z_pos p Hlen) as (m & e & ->). reflexivity.
Qed.

End JSMore.


(** ** The transport: what a frame becomes *)

Module TransportMore.
Import JS Eff Transport Views JSFacts JSMore TransportProps Samples.
Local Open Scope eff_scope.

#[local] Arguments has_listener : simpl never.
#[local] Arguments isReady : simpl never.

Section Dispatch.
Context `{Builtins}.

Lemma emitted_log_events (evs : list Event) (st : PlexSocket) :
  emitted (log_events evs st) = emitted st ++ evs.
Proof.
  revert st. induction evs as [| ev evs IH]; intros st.
  - simpl. by rewrite app_nil_r.
  - change (log_events (ev :: evs) st) with (log_events evs (log_event ev st)).
    rewrite IH. simpl. by rewrite <- app_assoc.
Qed.

Lemma core_log_events (evs : list Event) (st : PlexSocket) :
  core (log_events evs st) = core st /\ calls (log_events evs st) = calls st.
Proof.
  revert st. induction evs as [| ev evs IH]; intros st; [done |].
  change (log_events (ev :: evs) st) with (log_events evs (log_event ev st)).
  destruct (IH (log_event ev st)) as [-> ->]. done.
Qed.

(** An event other than ['error'] is logged and [emit] returns. *)
Lemma emit_plain (ev : Event) (st : PlexSocket) :
  event_name ev <> "error" ->
  emit ev st = (log_event ev st, Ok (has_listener (event_name ev) st)).
Proof. destruct ev; try reflexivity. intros Hne. by contradiction Hne. Qed.

Lemma emit_error (err : exn) (st : PlexSocket) :
  emit (EvError err) st
  = (log_event (EvError err) st,
     if has_listener "error" st then Ok true else Throw err).
Proof.
  unfold emit, bind, modify, gets, ret, throw. simpl.
  rewrite has_listener_log_event. by destruct (has_listener "error" st).
Qed.

Lemma truthy_defined (v : jsval) (k : string) :
  ToBoolean v = true -> exists x, js_field v k = Ok x.
Proof.
  destruct v; try discriminate; intros _; unfold js_field; eauto;
    destruct (k =? "length")%string; eauto; destruct (index_of_key k); eauto.
Qed.

Lemma present_state (entry : jsval) :
  absent entry = false -> js_field entry "state" = Ok (entry_state entry).
Proof.
  intros Hentry. unfold entry_state.
  destruct entry; try discriminate; reflexivity.
Qed.

(** The loop over the entries: one event per entry. *)
Lemma forEach_entries (entries : list jsval) (st : PlexSocket) :
  Forall (fun entry => absent entry = false) entries ->
  forEach (fun playingNotif =>
             state <- lift (js_field playingNotif "state") ;;
             _ <- emit (EvPlaying state playingNotif) ;;
             ret tt) entries st
  = (log_events (playing_events entries) st, Ok tt).
Proof.
  intros Hall. revert st. induction Hall as [| entry entries Hentry _ IH]; intros st.
  - reflexivity.
  - simpl forEach. unfold bind at 1. unfold bind at 1, lift at 1.
    rewrite (present_state _ Hentry).
    unfold bind at 1. rewrite emit_plain by discriminate.
    unfold ret at 1. apply IH.
Qed.

Lemma onPlaying_entries (notif : jsval) (entries : list jsval) (st : PlexSocket) :
  js_field notif "PlaySessionStateNotification" = Ok (JArr entries) ->
  entries <> [] ->
  (Z.of_nat (length entries) < 2 ^ 53)%Z ->
  Forall (fun entry => absent entry = false) entries ->
  onPlaying notif st = (log_events (playing_events entries) st, Ok tt).
Proof.
  intros Hlist Hne Hlen Hall.
  unfold onPlaying. unfold bind at 1, lift at 1. rewrite Hlist.
  unfold bind at 1, lift at 1.
  change (js_field (JArr entries) "length")
    with (Ok (A := jsval) (JNum (number_of_Z (Z.of_nat (length entries))))).
  change (ToBoolean (JArr entries)) with true. cbn [rbind].
  rewrite (length_truthy entries Hne Hlen).
  by apply forEach_entries.
Qed.

(** X10.  A playing notification with a non-empty list whose entries are
    not [null]: [onPlaying] emits one ['playing'] event per entry, in the
    order of the list, each with the [state] of its entry, and nothing
    else; it returns, and the fields of the object and its calls are as
    before. *)
Theorem onPlaying_emits_each_entry
    (notif : jsval) (entries : list jsval) (st : PlexSocket) :
  js_field notif "PlaySessionStateNotification" = Ok (JArr entries) ->
  entries <> [] ->
  (Z.of_nat (length entries) < 2 ^ 53)%Z ->
  Forall (fun entry => absent entry = false) entries ->
  emitted (exec (onPlaying notif) st) = emitted st ++ playing_events entries /\
  outcome (onPlaying notif) st = Ok tt /\
  core (exec (onPlaying notif) st) = core st /\
  calls (exec (onPlaying notif) st) = calls st.
Proof.
  intros Hlist Hne Hlen Hall. unfold exec, outcome.
  rewrite (onPlaying_entries _ _ _ Hlist Hne Hlen Hall). simpl.
  rewrite emitted_log_events.
  destruct (core_log_events (playing_events entries) st) as [-> ->]. done.
Qed.

Lemma forEach_null_entry (before after : list jsval) (st : PlexSocket) :
  Forall (fun entry => absent entry = false) before ->
  forEach (fun playingNotif =>
             state <- lift (js_field playingNotif "state") ;;
             _ <- emit (EvPlaying state playingNotif) ;;
             ret tt) (before ++ JNull :: after) st
  = (log_events (playing_events before) st,
     Throw (TypeError "Cannot read properties of null (reading 'state')")).
Proof.
  intros Hall. revert st. induction Hall as [| entry before Hentry _ IH]; intros st.
  - reflexivity.
  - simpl app. simpl forEach. unfold bind at 1. unfold bind at 1, lift at 1.
    rewrite (present_state _ Hentry).
    unfold bind at 1. rewrite emit_plain by discriminate.
    unfold ret at 1. apply IH.
Qed.

(** X11.  A [null] entry in the list stops the loop: the entries before it
    are emitted, then reading [state] of [null] throws a [TypeError] out of
    [onPlaying], and the entries after it are never emitted. *)
Theorem onPlaying_null_entry_throws
    (notif : jsval) (before after : list jsval) (st : PlexSocket) :
  js_field notif "PlaySessionStateNotification" = Ok (JArr (before ++ JNull :: after)) ->
  (Z.of_nat (length (before ++ JNull :: after)) < 2 ^ 53)%Z ->
  Forall (fun entry => absent entry = false) before ->
  emitted (exec (onPlaying notif) st) = emitted st ++ playing_events before /\
  outcome (onPlaying notif) st
  = Throw (TypeError "Cannot read properties of null (reading 'state')").
Proof.
  intros Hlist Hlen Hall.
  assert (before ++ JNull :: after <> []) as Hne by (by destruct before).
  assert (onPlaying notif st
          = (log_events (playing_events before) st,
             Throw (TypeError "Cannot read properties of null (reading 'state')")))
    as Hrun.
  { unfold onPlaying. unfold bind at 1, lift at 1. rewrite Hlist.
    unfold bind at 1, lift at 1.
    change (js_field (JArr (before ++ JNull :: after)) "length")
      with (Ok (A := jsval)
              (JNum (number_of_Z (Z.of_nat (length (before ++ JNull :: after)))))).
    change (ToBoolean (JArr (before ++ JNull :: after))) with true. cbn [rbind].
    rewrite (length_truthy _ Hne Hlen).
    by apply forEach_null_entry. }
  unfold exec, outcome. rewrite Hrun. simpl.
  by rewrite emitted_log_events.
Qed.

(** X12.  A playing notification without entries (the field is missing,
    [null] or otherwise falsy, or it is the empty array): [onPlaying] emits
    one ['error'] event and no ['playing'] event; the error is thrown out
    of [onPlaying] exactly when ['error'] has no listener. *)
Theorem onPlaying_without_entries (notif payload : jsval) (st : PlexSocket) :
  js_field notif "PlaySessionStateNotification" = Ok payload ->
  ToBoolean payload = false \/ payload = JArr [] ->
  let err := Error "expected playing notification to have PlaySessionStateNotification" in
  emitted (exec (onPlaying notif) st) = emitted st ++ [EvError err] /\
  outcome (onPlaying notif) st
  = (if has_listener "error" st then Ok tt else Throw err) /\
  core (exec (onPlaying notif) st) = core st /\
  calls (exec (onPlaying notif) st) = calls st.
Proof.
  intros Hpayload Hnone err.
  assert (onPlaying notif st
          = (log_event (EvError err) st,
             if has_listener "error" st then Ok tt else Throw err)) as Hrun.
  { unfold onPlaying. unfold bind at 1, lift at 1. rewrite Hpayload.
    unfold bind at 1, lift at 1.
    assert ((if ToBoolean payload
             then rbind (js_field payload "length") (fun n => Ok (ToBoolean n))
             else Ok false) = Ok false) as ->.
    { destruct Hnone as [-> | ->]; reflexivity. }
    unfold bind at 1. rewrite emit_error. fold err.
    by destruct (has_listener "error" st). }
  unfold exec, outcome. rewrite Hrun. done.
Qed.

Lemma container_truthy (notif : jsval) :
  js_field notif "type" = Ok (JStr "playing") -> ToBoolean notif = true.
Proof. destruct notif; try discriminate; reflexivity. Qed.

Lemma payload_truthy (payload notif : jsval) :
  js_field payload "NotificationContainer" = Ok notif ->
  ToBoolean notif = true -> ToBoolean payload = true.
Proof.
  destruct payload; try discriminate; try reflexivity;
    intros [= <-]; discriminate.
Qed.

(** X13.  A frame that parses to a falsy value ([null], [false], [0], the
    empty string) is dropped: [onMessage] emits nothing, not even
    ['message'], and changes nothing. *)
Theorem onMessage_falsy_frame_dropped (data : string) (payload : jsval) (st : PlexSocket) :
  JSON_parse data = Some payload ->
  ToBoolean payload = false ->
  exec (onMessage data) st = st /\ outcome (onMessage data) st = Ok tt.
Proof.
  intros Hparse Hfalsy.
  assert (onMessage data st = (st, Ok tt)) as Hrun.
  { unfold onMessage, parseData.
    rewrite Hparse. unfold bind at 1, ret at 1. by rewrite Hfalsy. }
  unfold exec, outcome. rewrite Hrun. done.
Qed.

(** X14.  A frame that parses to a truthy value whose notification
    container is not of type ['playing']: [onMessage] emits ['message']
    with the parsed value, then ['notification'] with the container when
    there is one, and nothing else; it returns. *)
Theorem onMessage_other_notification
    (data : string) (payload notif : jsval) (st : PlexSocket) :
  JSON_parse data = Some payload ->
  ToBoolean payload = true ->
  js_field payload "NotificationContainer" = Ok notif ->
  (forall type, js_field notif "type" = Ok type ->
                js_strict_eq type (JStr "playing") = false) ->
  emitted (exec (onMessage data) st)
  = emitted st ++ EvMessage payload
                  :: (if ToBoolean notif then [EvNotification notif] else []) /\
  outcome (onMessage data) st = Ok tt /\
  core (exec (onMessage data) st) = core st /\
  calls (exec (onMessage data) st) = calls st.
Proof.
  intros Hparse Htruthy Hnotif Htype.
  assert (onMessage data st
          = (log_events (EvMessage payload
                         :: (if ToBoolean notif then [EvNotification notif] else [])) st,
             Ok tt)) as Hrun.
  { unfold onMessage, parseData.
    rewrite Hparse. unfold bind at 1, ret at 1. rewrite Htruthy.
    unfold when at 1. unfold bind at 1. rewrite emit_plain by discriminate.
    unfold notification. rewrite Htruthy, Hnotif.
    unfold bind at 1, lift at 1.
    destruct (ToBoolean notif) eqn:Hcontainer; [| done].
    unfold when at 1, onNotification. unfold bind at 1.
    rewrite emit_plain by discriminate.
    destruct (truthy_defined notif "type" Hcontainer) as [type Hget].
    unfold bind at 1, lift at 1. rewrite Hget, (Htype _ Hget). done. }
  unfold exec, outcome. rewrite Hrun. cbn [fst snd].
  rewrite emitted_log_events.
  destruct (core_log_events
              (EvMessage payload
               :: (if ToBoolean notif then [EvNotification notif] else [])) st)
    as [-> ->].
  done.
Qed.

(** X15.  A frame with a playing notification goes all the way: [onMessage]
    emits ['message'] with the parsed value, ['notification'] with the
    container, and then one ['playing'] event per entry, in this order and
    nothing else. *)
Theorem onMessage_playing_dispatch
    (data : string) (payload notif : jsval) (entries : list jsval) (st : PlexSocket) :
  JSON_parse data = Some payload ->
  js_field payload "NotificationContainer" = Ok notif ->
  js_field notif "type" = Ok (JStr "playing") ->
  js_field notif "PlaySessionStateNotification" = Ok (JArr entries) ->
  entries <> [] ->
  (Z.of_nat (length entries) < 2 ^ 53)%Z ->
  Forall (fun entry => absent entry = false) entries ->
  emitted (exec (onMessage data) st)
  = emitted st ++ EvMessage payload :: EvNotification notif :: playing_events entries /\
  outcome (onMessage data) st = Ok tt /\
  core (exec (onMessage data) st) = core st /\
  calls (exec (onMessage data) st) = calls st.
Proof.
  intros Hparse Hnotif Htype Hlist Hne Hlen Hall.
  pose proof (container_truthy _ Htype) as Hcontainer.
  pose proof (payload_truthy _ _ Hnotif Hcontainer) as Htruthy.
  assert (onMessage data st
          = (log_events (EvMessage payload :: EvNotification notif
                         :: playing_events entries) st,
             Ok tt)) as Hrun.
  { unfold onMessage, parseData.
    rewrite Hparse. unfold bind at 1, ret at 1. rewrite Htruthy.
    unfold when at 1. unfold bind at 1. rewrite emit_plain by discriminate.
    unfold notification. rewrite Htruthy, Hnotif.
    unfold bind at 1, lift at 1. rewrite Hcontainer.
    unfold when at 1, onNotification. unfold bind at 1.
    rewrite emit_plain by discriminate.
    unfold bind at 1, lift at 1. rewrite Htype.
    change (js_strict_eq (JStr "playing") (JStr "playing")) with true.
    unfold when. by rewrite (onPlaying_entries _ _ _ Hlist Hne Hlen Hall). }
  unfold exec, outcome. rewrite Hrun. cbn [fst snd].
  rewrite emitted_log_events.
  destruct (core_log_events
              (EvMessage payload :: EvNotification notif :: playing_events entries) st)
    as [-> ->].
  done.
Qed.

End Dispatch.

(** *** Closing *)

Section Closing.
Context `{Builtins}.

(** What [close()] leaves behind, on any state. *)
Lemma close_effect (st : PlexSocket) :
  socket (step CallClose st) = None /\
  shouldClose (step CallClose st) = true /\
  timers (step CallClose st) = timers st /\
  next_timer (step CallClose st) = next_timer st /\
  pinger (step CallClose st) = pinger st /\
  awaitPong (step CallClose st) = awaitPong st /\
  emitted (step CallClose st) = emitted st /\
  listeners (step CallClose st) = listeners st /\
  calls (step CallClose st)
  = calls st ++ match socket st with Some s => [SocketClose s] | None => [] end.
Proof.
  destruct (socket st) as [s |] eqn:Hso.
  - assert (step CallClose st
            = with_socket None
                (exec (begin_closing s)
                   (log_call (SocketClose s) (with_shouldClose true st)))) as ->.
    { unfold step, handle, close, on_socket, exec, bind, gets, modify. simpl.
      rewrite Hso. simpl. by rewrite begin_closing_returns. }
    unfold exec, begin_closing, set_readyState, bind, gets, modify, ret. simpl.
    destruct (sockets st !! s) as [[] |]; simpl; done.
  - assert (step CallClose st = with_shouldClose true st) as ->.
    { unfold step, handle, close, on_socket, exec, bind, gets, modify, throw. simpl.
      by rewrite Hso. }
    simpl. by rewrite app_nil_r.
Qed.



(** The frames sent so far. *)
Lemma frames_log_call (c : Call) (st : PlexSocket) :
  is_frame c = false ->
  frames_sent (calls (log_call c st)) = frames_sent (calls st).
Proof.
  intros Hc. unfold frames_sent. simpl. rewrite List.filter_app. simpl.
  rewrite Hc. by rewrite app_nil_r.
Qed.

Local Hint Extern 0 (stable _ (modify (log_call _))) =>
  apply stable_modify; intros ?; apply frames_log_call; reflexivity : stable.

Lemma emit_stable_frames (ev : Event) :
  stable (fun st => frames_sent (calls st)) (emit ev).
Proof. apply stable_emit. reflexivity. Qed.

Lemma setTimeout_stable_frames cb delay :
  stable (fun st => frames_sent (calls st)) (setTimeout cb delay).
Proof. unfold setTimeout. stable_auto. Qed.

Lemma clearTimeout_stable_frames t :
  stable (fun st => frames_sent (calls st)) (clearTimeout t).
Proof. unfold clearTimeout. stable_auto. Qed.

Lemma begin_closing_stable_frames s :
  stable (fun st => frames_sent (calls st)) (begin_closing s).
Proof.
  unfold begin_closing, set_readyState. apply stable_bind; [stable_auto |].
  intros ss. destruct (ss !! s) as [[] |]; stable_auto.
Qed.

Local Hint Resolve emit_stable_frames setTimeout_stable_frames
  clearTimeout_stable_frames begin_closing_stable_frames : stable.

Lemma onClose_stable_frames code reason :
  stable (fun st => frames_sent (calls st)) (onClose code reason).
Proof. unfold onClose. stable_auto. Qed.

Local Hint Resolve onClose_stable_frames : stable.

Lemma connect_stable_frames ctor :
  stable (fun st => frames_sent (calls st)) (connect ctor).
Proof. unfold connect. stable_auto. Qed.

Lemma onMessage_stable_frames data :
  stable (fun st => frames_sent (calls st)) (onMessage data).
Proof. unfold onMessage, parseData, onNotification, onPlaying. stable_auto. Qed.

Lemma closed_not_ready (st : PlexSocket) : shouldClose st = true -> isReady st = false.
Proof.
  intros Hsc. unfold isReady. rewrite Hsc.
  destruct (socket st) as [s |]; [| reflexivity].
  by destruct (sockets st !! s) as [[] |].
Qed.

Lemma ping_closed (st : PlexSocket) : shouldClose st = true -> ping st = (st, Ok tt).
Proof.
  intros Hsc. unfold ping, bind, gets. simpl. by rewrite (closed_not_ready _ Hsc).
Qed.

Lemma onPing_closed (st : PlexSocket) : shouldClose st = true -> onPing st = (st, Ok tt).
Proof.
  intros Hsc. unfold onPing, bind, gets. simpl. by rewrite (closed_not_ready _ Hsc).
Qed.

(** Once the flag is set, a step sends no frame. *)
Lemma quiet_keeps {A} (x : list Call) (m : M PlexSocket A) :
  stable shouldClose m ->
  stable (fun st => frames_sent (calls st)) m ->
  keeps (fun st => shouldClose st = true /\ frames_sent (calls st) = x) m.
Proof. intros Hsc Hfr st [Hst Hx]. by rewrite Hsc, Hfr. Qed.

Lemma ping_keeps_closed (x : list Call) :
  keeps (fun st => shouldClose st = true /\ frames_sent (calls st) = x) ping.
Proof. intros st [Hst Hx]. unfold exec. by rewrite (ping_closed _ Hst). Qed.

Lemma handle_keeps_closed (x : list Call) (i : Input) :
  keeps (fun st => shouldClose st = true /\ frames_sent (calls st) = x) (handle i).
Proof.
  pose proof emit_stable_shouldClose. pose proof setTimeout_stable_shouldClose.
  pose proof clearTimeout_stable_shouldClose.
  pose proof set_readyState_stable_shouldClose.
  pose proof begin_closing_stable_shouldClose.
  destruct i; simpl.
  - apply quiet_keeps; [apply connect_stable_shouldClose | apply connect_stable_frames].
  - intros st [Hst Hx].
    destruct (close_effect st) as (_ & Hsc & _ & _ & _ & _ & _ & _ & Hcalls).
    change (exec close st) with (step CallClose st).
    split; [exact Hsc |]. rewrite Hcalls. unfold frames_sent in *.
    rewrite List.filter_app. destruct (socket st); simpl; by rewrite app_nil_r.
  - apply quiet_keeps; stable_auto.
  - apply keeps_bind; [apply quiet_keeps; unfold set_readyState; stable_auto |].
    intros _. unfold onOpen.
    apply keeps_bind; [apply quiet_keeps; stable_auto |]. intros _.
    apply keeps_bind; [apply quiet_keeps; stable_auto |]. intros _.
    apply ping_keeps_closed.
  - intros st [Hst Hx]. unfold exec. by rewrite (onPing_closed _ Hst).
  - apply quiet_keeps; unfold onPong; stable_auto.
  - apply quiet_keeps; [apply onMessage_stable_shouldClose | apply onMessage_stable_frames].
  - apply quiet_keeps; unfold onError; stable_auto.
  - apply quiet_keeps; unfold onUnexpectedResponse; stable_auto.
  - apply keeps_bind; [apply quiet_keeps; unfold set_readyState; stable_auto |].
    intros _.
    apply quiet_keeps; [apply onClose_stable_shouldClose | apply onClose_stable_frames].
  - unfold fire.
    apply keeps_bind; [apply keeps_gets |]. intros ts.
    apply keeps_bind; [apply keeps_gets |]. intros n.
    destruct (list_find _ ts) as [[? [? [cb ?]]] |]; [| apply keeps_ret].
    apply keeps_bind; [apply quiet_keeps; stable_auto |]. intros _.
    destruct cb; simpl.
    + apply ping_keeps_closed.
    + apply quiet_keeps; unfold pongTimeout, on_socket; stable_auto.
    + apply quiet_keeps; [apply connect_stable_shouldClose | apply connect_stable_frames].
Qed.

(** X17.  After [close()] the object never sends a frame again: whatever
    comes later (sockets opening, pings of the server, timers firing, even
    a new [connect()]), no [socket.ping] and no [socket.pong] is called,
    since the intentional-close flag is never reset. *)
Theorem no_frame_after_close (st : PlexSocket) (inputs : list Input) :
  frames_sent (calls (run inputs (step CallClose st)))
  = frames_sent (calls (step CallClose st)).
Proof.
  assert (forall st0,
            shouldClose st0 = true ->
            frames_sent (calls (run inputs st0)) = frames_sent (calls st0)) as Hrun.
  { induction inputs as [| i inputs IH]; intros st0 Hst0; [reflexivity |].
    simpl.
    destruct (handle_keeps_closed (frames_sent (calls st0)) i st0 (conj Hst0 eq_refl))
      as [Hsc Hfr].
    change (exec (handle i) st0) with (step i st0) in Hsc, Hfr.
    by rewrite (IH _ Hsc). }
  apply Hrun. by destruct (close_effect st) as (_ & Hsc & _).
Qed.

End Closing.

(** *** The heartbeat *)

Section Heartbeat.
Context `{Builtins}.

(** While a heartbeat timer is pending in an orderly state, it is the only
    timer. *)
Lemma heartbeat_alone (st : PlexSocket) (e : timer_id * (Callback * Z)) :
  Inv st -> e ∈ timers st -> is_heartbeat e = true ->
  forall e', e' ∈ timers st -> e' = e.
Proof.
  intros Hinv Hin Hb e' Hin'.
  destruct (heartbeat_socket _ _ _ _ _ Hinv e Hin Hb) as (s & r & Hs & Hr).
  destruct (is_heartbeat e') eqn:Hb'.
  - by apply (one_heartbeat _ _ _ _ _ Hinv).
  - assert (is_reconnect e' = true) as Hre by (by destruct e' as [? [[] ?]]).
    pose proof (reconnect_alone _ _ _ _ _ Hinv e' s r Hin' Hre Hs) as Hdead.
    by destruct r.
Qed.

Lemma fire_heartbeat (st : PlexSocket) (t : timer_id) (cb : Callback) (d : Z)
    (ctor : option exn) :
  Inv st -> (t, (cb, d)) ∈ timers st -> is_heartbeat (t, (cb, d)) = true ->
  fire t ctor st = run_callback cb ctor (with_timers [] (next_timer st) st).
Proof.
  intros Hinv Hin Hb.
  pose proof (heartbeat_alone st _ Hinv Hin Hb) as Halone.
  assert (drop_timer t (timers st) = []) as Hdrop.
  { apply elem_of_nil_inv. intros e' [Hne Hin']%elem_of_drop_timer.
    rewrite (Halone _ Hin') in Hne. by apply Hne. }
  unfold fire, bind, gets, modify. simpl.
  destruct (list_find (fun e => e.1 = t) (timers st)) as [[i e'] |] eqn:Hfind.
  - apply list_find_Some in Hfind as (Hi & _ & _).
    rewrite (Halone e') by (by eapply list_elem_of_lookup_2).
    by rewrite Hdrop.
  - apply list_find_None in Hfind. rewrite Forall_forall in Hfind.
    by destruct (Hfind _ Hin).
Qed.

Lemma pending_pong_timeout (st : PlexSocket) (t : timer_id) :
  Inv st -> awaitPong st = Some t -> timer_pending t st = true ->
  exists d, (t, (PongTimeoutCallback, d)) ∈ timers st.
Proof.
  intros Hinv Ha [[cb d] Hin]%timer_pending_elem.
  assert (cb = PongTimeoutCallback) as ->
    by (eapply (awaitPong_kind _ _ _ _ _ Hinv); eauto).
  eauto.
Qed.

Lemma pongTimeout_run (st : PlexSocket) :
  pongTimeout st
  = match socket st with
    | Some s =>
        (exec (begin_closing s)
           (log_call (SocketTerminate s) (log_event EvPongTimeout st)), Ok tt)
    | None =>
        (log_event EvPongTimeout st,
         Throw (TypeError "Cannot read properties of null (reading 'terminate')"))
    end.
Proof.
  unfold pongTimeout, on_socket. unfold bind at 1. rewrite emit_plain by discriminate.
  unfold bind at 1, gets at 1. simpl.
  destruct (socket st) as [s |]; [| reflexivity].
  unfold bind, modify. simpl. by rewrite begin_closing_returns.
Qed.

Lemma begin_closing_fields (s : socket_id) (st : PlexSocket) :
  let st' := exec (begin_closing s) st in
  timers st' = timers st /\ next_timer st' = next_timer st /\
  pinger st' = pinger st /\ awaitPong st' = awaitPong st /\
  shouldClose st' = shouldClose st /\ socket st' = socket st /\
  emitted st' = emitted st /\ calls st' = calls st /\ options st' = options st.
Proof.
  unfold exec, begin_closing, set_readyState, bind, gets, modify, ret. simpl.
  destruct (sockets st !! s) as [[] |]; simpl; done.
Qed.

(** X18.  [close()] does not cancel the pong timeout.  When it is called
    while a ping is outstanding and the timeout fires before the socket's
    ['close'] event, the timer callback emits ['pong-timeout'] and then
    throws a [TypeError], since it calls [terminate] on [this.socket],
    which [close()] has set to [null]. *)
Theorem pong_timeout_after_close_throws
    (o : Options) (st : PlexSocket) (t : timer_id) (ctor : option exn) :
  orderly o st ->
  awaitPong st = Some t ->
  timer_pending t st = true ->
  let closed := step CallClose st in
  enabled (TimerFires t ctor) closed = true /\
  outcome (handle (TimerFires t ctor)) closed
  = Throw (TypeError "Cannot read properties of null (reading 'terminate')") /\
  emitted (step (TimerFires t ctor) closed) = emitted st ++ [EvPongTimeout] /\
  calls (step (TimerFires t ctor) closed) = calls closed.
Proof.
  intros Hst Ha Hpending closed.
  apply orderly_Inv in Hst.
  destruct (close_effect st) as (Hso & _ & Hts & _ & _ & Ha' & Hev & _).
  fold closed in Hso, Hts, Ha', Hev.
  assert (timer_pending t closed = true) as Hpending'
    by (unfold timer_pending; by rewrite Hts).
  assert (Inv closed) as Hinv by (by apply close_Inv).
  destruct (pending_pong_timeout closed t Hinv (eq_trans Ha' Ha) Hpending') as [d Hin].
  assert (handle (TimerFires t ctor) closed
          = (log_event EvPongTimeout (with_timers [] (next_timer closed) closed),
             Throw (TypeError "Cannot read properties of null (reading 'terminate')")))
    as Hrun.
  { simpl handle. rewrite (fire_heartbeat _ _ _ _ _ Hinv Hin eq_refl). simpl.
    rewrite pongTimeout_run. simpl. by rewrite Hso. }
  split; [exact Hpending' |].
  unfold step, exec, outcome. rewrite Hrun. simpl. by rewrite Hev.
Qed.

(** What [onClose] emits: ['close'] when the close was asked for, nothing
    otherwise; it returns. *)
Lemma onClose_events code reason (st : PlexSocket) :
  emitted (exec (onClose code reason) st)
  = emitted st ++ (if shouldClose st then [EvClose code reason] else []) /\
  outcome (onClose code reason) st = Ok tt.
Proof.
  destruct st as [o sc r so p a ls ss ts n ev cs].
  run_handler.
  destruct p as [p |], a as [a |], sc; simpl; rewrite ?app_nil_r; done.
Qed.

(** X19.  ['close'] is emitted only for a close that was asked for: when
    the socket closes after [close()] the event is emitted with the code
    and the reason of the socket; when it closes on its own nothing is
    emitted (the reconnect is set instead).  The handler returns in both
    cases. *)
Theorem close_event_only_when_asked
    (st : PlexSocket) (s : socket_id) (code reason : jsval) :
  emitted (step (SocketCloses s code reason) st)
  = emitted st
    ++ (if shouldClose st then [EvClose (CloseVal code) (CloseVal reason)] else []) /\
  outcome (handle (SocketCloses s code reason)) st = Ok tt.
Proof.
  destruct (onClose_events (CloseVal code) (CloseVal reason)
              (with_sockets (<[s := CLOSED]> (sockets st)) st)) as [Hev Hout].
  split; [exact Hev | exact Hout].
Qed.

(** X20.  A missed pong, in an orderly run with the transport not closed:
    when the pong timeout fires, ['pong-timeout'] is emitted and the
    socket is terminated, with no timer left pending; when that socket
    then closes, the reconnect is the one pending timer, set with the
    configured interval, and nothing more is emitted. *)
Theorem missed_pong_reconnects
    (o : Options) (st : PlexSocket) (t : timer_id) (s : socket_id)
    (ctor : option exn) (code reason : jsval) :
  orderly o st ->
  awaitPong st = Some t ->
  timer_pending t st = true ->
  socket st = Some s ->
  shouldClose st = false ->
  let st1 := step (TimerFires t ctor) st in
  let st2 := step (SocketCloses s code reason) st1 in
  emitted st1 = emitted st ++ [EvPongTimeout] /\
  calls st1 = calls st ++ [SocketTerminate s] /\
  timers st1 = [] /\
  timers st2 = [(next_timer st, (ConnectCallback, reconnectInterval (options st)))] /\
  emitted st2 = emitted st1.
Proof.
  intros Hst Ha Hpending Hso Hsc st1 st2.
  apply orderly_Inv in Hst.
  destruct (pending_pong_timeout st t Hst Ha Hpending) as [d Hin].
  assert (st1 = exec (begin_closing s)
                  (log_call (SocketTerminate s)
                     (log_event EvPongTimeout (with_timers [] (next_timer st) st))))
    as Hst1.
  { unfold st1, step, exec. simpl handle.
    rewrite (fire_heartbeat _ _ _ _ _ Hst Hin eq_refl). simpl.
    rewrite pongTimeout_run. simpl. by rewrite Hso. }
  destruct (begin_closing_fields s
              (log_call (SocketTerminate s)
                 (log_event EvPongTimeout (with_timers [] (next_timer st) st))))
    as (Hts & Hn & Hp & Ha1 & Hsc1 & _ & Hev & Hcs & Hopt).
  rewrite <- Hst1 in Hts, Hn, Hp, Ha1, Hsc1, Hev, Hcs, Hopt. simpl in *.
  split; [exact Hev |]. split; [exact Hcs |]. split; [exact Hts |].
  destruct (onClose_timers (CloseVal code) (CloseVal reason)
              (with_sockets (<[s := CLOSED]> (sockets st1)) st1)) as (Ht2 & _).
  destruct (onClose_events (CloseVal code) (CloseVal reason)
              (with_sockets (<[s := CLOSED]> (sockets st1)) st1)) as [Hev2 _].
  simpl in Ht2, Hev2.
  split.
  - unfold st2, step. simpl handle.
    change (exec (set_readyState s CLOSED;; onClose (CloseVal code) (CloseVal reason)) st1)
      with (exec (onClose (CloseVal code) (CloseVal reason))
              (with_sockets (<[s := CLOSED]> (sockets st1)) st1)).
    rewrite Ht2, Hts, Hsc1, Hsc, Hn, Hopt.
    by destruct (pinger st1), (awaitPong st1).
  - unfold st2, step. simpl handle.
    change (exec (set_readyState s CLOSED;; onClose (CloseVal code) (CloseVal reason)) st1)
      with (exec (onClose (CloseVal code) (CloseVal reason))
              (with_sockets (<[s := CLOSED]> (sockets st1)) st1)).
    rewrite Hev2, Hsc1, Hsc. by rewrite app_nil_r.
Qed.

(** [ping] on a transport that is ready. *)
Lemma ping_ready (st : PlexSocket) (s : socket_id) :
  isReady st = true -> socket st = Some s ->
  ping st
  = (with_awaitPong (Some (next_timer st))
       (log_call (SetTimeout PongTimeoutCallback (pingTimeout (options st)) (next_timer st))
          (with_timers
             (timers st ++ [(next_timer st, (PongTimeoutCallback, pingTimeout (options st)))])
             (S (next_timer st))
             (log_call (SocketPing s "Hi?") st))),
     Ok tt).
Proof.
  intros Hready Hso.
  unfold ping, bind at 1, gets at 1. rewrite Hready.
  unfold when, on_socket, setTimeout, bind, gets, modify, ret. simpl.
  by rewrite Hso.
Qed.

Lemma ready_socket (st : PlexSocket) :
  isReady st = true ->
  exists s, socket st = Some s /\ sockets st !! s = Some OPEN /\ shouldClose st = false.
Proof.
  unfold isReady. destruct (socket st) as [s |]; [| discriminate].
  destruct (sockets st !! s) as [[] |] eqn:Hs; try discriminate.
  intros Hsc%negb_true_iff. eauto.
Qed.

(** X21.  When the current socket opens (and [close()] was not called):
    the retry counter is back at 0, ['open'] is emitted with the data of
    the socket, a ping is sent, and the pong timeout is armed with the
    configured [pingTimeout], its handle kept in [awaitPong]. *)
Theorem open_starts_heartbeat (st : PlexSocket) (s : socket_id) (data : jsval) :
  socket st = Some s ->
  (s < length (sockets st))%nat ->
  shouldClose st = false ->
  let st' := step (SocketOpens s data) st in
  retries st' = 0%Z /\
  emitted st' = emitted st ++ [EvOpen data] /\
  calls st'
  = calls st ++ [SocketPing s "Hi?";
                 SetTimeout PongTimeoutCallback (pingTimeout (options st)) (next_timer st)] /\
  timers st'
  = timers st ++ [(next_timer st, (PongTimeoutCallback, pingTimeout (options st)))] /\
  awaitPong st' = Some (next_timer st) /\
  outcome (handle (SocketOpens s data)) st = Ok tt.
Proof.
  intros Hso Hlt Hsc st'.
  set (st0 := log_event (EvOpen data)
                (with_retries 0 (with_sockets (<[s := OPEN]> (sockets st)) st))).
  assert (handle (SocketOpens s data) st = ping st0) as Hrun by reflexivity.
  assert (isReady st0 = true) as Hready.
  { unfold isReady, st0. simpl. rewrite Hso, Hsc.
    by rewrite list_lookup_insert_eq. }
  unfold st', step, exec, outcome. rewrite Hrun, (ping_ready st0 s Hready Hso).
  simpl. rewrite <- app_assoc. done.
Qed.

(** X22.  One round of the heartbeat, in an orderly run on a ready
    transport with a ping outstanding: the pong cancels the pong timeout,
    sets the ping timer with the configured [pingInterval] and emits
    ['pong']; when that timer fires the next ping is sent and the pong
    timeout is armed again, the only timer pending. *)
Theorem heartbeat_round
    (o : Options) (st : PlexSocket) (s s' : socket_id) (a : timer_id)
    (ctor : option exn) :
  orderly o st ->
  isReady st = true ->
  socket st = Some s ->
  awaitPong st = Some a ->
  timer_pending a st = true ->
  let n := next_timer st in
  let st' := run [SocketPonged s'; TimerFires n ctor] st in
  calls st'
  = calls st ++ [ClearTimeout a;
                 SetTimeout PingCallback (pingInterval (options st)) n;
                 SocketPing s "Hi?";
                 SetTimeout PongTimeoutCallback (pingTimeout (options st)) (S n)] /\
  emitted st' = emitted st ++ [EvPong] /\
  timers st' = [(S n, (PongTimeoutCallback, pingTimeout (options st)))] /\
  awaitPong st' = Some (S n) /\
  pinger st' = Some n.
Proof.
  intros Hst Hready Hso Ha Hpending n st'.
  pose proof (orderly_Inv _ _ Hst) as Hinv.
  destruct (pending_pong_timeout st a Hinv Ha Hpending) as [d Hin].
  assert (drop_timer a (timers st) = []) as Hdrop.
  { apply elem_of_nil_inv. intros e' [Hne Hin']%elem_of_drop_timer.
    rewrite (heartbeat_alone st _ Hinv Hin eq_refl _ Hin') in Hne. by apply Hne. }
  set (st1 := step (SocketPonged s') st).
  assert (st1 = log_event EvPong
                  (with_pinger (Some n)
                     (log_call (SetTimeout PingCallback (pingInterval (options st)) n)
                        (with_timers [(n, (PingCallback, pingInterval (options st)))] (S n)
                           (log_call (ClearTimeout a) st))))) as Hst1.
  { unfold st1, n. destruct st as [o0 sc r so p a0 ls ss ts n0 ev cs].
    simpl in Ha, Hdrop. subst a0.
    run_handler. by rewrite Hdrop. }
  assert (Inv st1) as Hinv1.
  { apply pong_Inv; [exact Hinv |]. simpl.
    unfold awaitPong_active, handle_pending. by rewrite Ha. }
  assert (isReady st1 = true) as Hready1 by (by rewrite Hst1).
  assert (socket st1 = Some s) as Hso1 by (by rewrite Hst1).
  assert ((n, (PingCallback, pingInterval (options st))) ∈ timers st1) as Hin1.
  { rewrite Hst1. simpl. apply list_elem_of_singleton. reflexivity. }
  assert (next_timer st1 = S n) as Hn1 by (by rewrite Hst1).
  assert (st' = exec ping (with_timers [] (S n) st1)) as Hst'.
  { unfold st'. simpl run. fold st1. unfold step, exec. simpl handle.
    rewrite (fire_heartbeat _ _ _ _ _ Hinv1 Hin1 eq_refl). by rewrite Hn1. }
  rewrite Hst'. unfold exec.
  rewrite (ping_ready (with_timers [] (S n) st1) s Hready1 Hso1).
  rewrite Hst1. simpl. rewrite <- !app_assoc. done.
Qed.

End Heartbeat.

(** *** Connecting *)

Section Connecting.
Context `{Builtins}.

(** X23.  When [new WebSocket(...)] throws, or [this.buildAddress()]
    before it, [connect()] hands the error to [onClose] and throws it
    again: the attempt is counted, both heartbeat handles are cleared, and
    unless [close()] was called the reconnect is set all the same, so the
    object goes on connecting after its constructor or a timer callback has
    thrown; after [close()] the error is emitted as the code of a
    ['close'] event instead.  [this.socket] keeps the socket it had. *)
Theorem connect_failure_reconnects (st : PlexSocket) (err : exn) :
  let st' := exec (connect (Some err)) st in
  let max := reconnectMaxRetries (options st) in
  let failure := match buildAddress st with Ok _ => err | Throw e => e end in
  outcome (connect (Some err)) st = Throw failure /\
  retries st' = (retries st + 1)%Z /\
  socket st' = socket st /\
  sockets st' = sockets st /\
  timers st'
  = drop_handle (awaitPong st) (drop_handle (pinger st) (timers st))
    ++ (if shouldClose st then []
        else [(next_timer st, (ConnectCallback, reconnectInterval (options st)))]) /\
  emitted st'
  = emitted st
    ++ (if limit_reached (retries st) max then [EvReconnectMaxRetries max] else [])
    ++ (if shouldClose st then [EvClose (CloseErr failure) (CloseVal JUndefined)]
        else []).
Proof.
  intros st' max failure. subst st' max failure.
  destruct st as [o sc r so p a ls ss ts n ev cs].
  run_handler. unfold buildAddress.
  destruct (limit_reached r (reconnectMaxRetries o)); simpl;
    (destruct (ToString (hostname o)) as [host | err0]; simpl;
     [destruct (ToString (port o)) as [port | err0]; simpl |]);
    run_handler;
    destruct p as [p |], a as [a |], sc; simpl;
    rewrite <- ?app_assoc, ?app_nil_r; simpl; done.
Qed.

(** X24.  An unexpected response makes the handler emit one event, unless
    its comparison throws.
    Without a response object (a falsy [res]) it is
    ['unexpected-response'] with the request and the response.  With one,
    [res.statusCode] can be read and is compared ([==]) with 401: the event
    is ['unauthorized'] (without arguments) when the comparison holds and
    ['unexpected-response'] with both arguments when it does not; for a
    status code that is a number, the comparison holds exactly when the
    number is 401.  Nothing is emitted only when the comparison itself
    throws (a status code that cannot be converted to a primitive value),
    and then the handler throws the same.  Nothing else changes. *)
Theorem unexpected_response_events (req res : jsval) (st : PlexSocket) :
  let st' := exec (onUnexpectedResponse req res) st in
  (ToBoolean res = false ->
     outcome (onUnexpectedResponse req res) st = Ok tt /\
     emitted st' = emitted st ++ [EvUnexpectedResponse req res]) /\
  (ToBoolean res = true ->
     exists c,
       js_field res "statusCode" = Ok c /\
       match js_loose_eq (Data c) (Data (JNum (number_of_Z 401))) with
       | Ok unauthorized =>
           outcome (onUnexpectedResponse req res) st = Ok tt /\
           emitted st'
           = emitted st ++ [if unauthorized then EvUnauthorized
                            else EvUnexpectedResponse req res]
       | Throw e =>
           outcome (onUnexpectedResponse req res) st = Throw e /\
           emitted st' = emitted st
       end) /\
  (forall n,
     ToBoolean res = true ->
     js_field res "statusCode" = Ok (JNum n) ->
     outcome (onUnexpectedResponse req res) st = Ok tt /\
     emitted st'
     = emitted st ++ [if SFeqb n (number_of_Z 401) then EvUnauthorized
                      else EvUnexpectedResponse req res]) /\
  core st' = core st /\ calls st' = calls st.
Proof.
  intros st'. subst st'.
  assert (forall unauthorized : bool,
            (if ToBoolean res
             then rbind (js_field res "statusCode") (fun c =>
                    js_loose_eq (Data c) (Data (JNum (number_of_Z 401))))
             else Ok false) = Ok unauthorized ->
            onUnexpectedResponse req res st
            = (log_event (if unauthorized then EvUnauthorized
                          else EvUnexpectedResponse req res) st, Ok tt)) as Hrun.
  { intros unauthorized Hcheck.
    unfold onUnexpectedResponse. unfold bind at 1, lift at 1. rewrite Hcheck.
    destruct unauthorized; unfold bind; rewrite emit_plain by discriminate; done. }
  assert (forall e,
            (if ToBoolean res
             then rbind (js_field res "statusCode") (fun c =>
                    js_loose_eq (Data c) (Data (JNum (number_of_Z 401))))
             else Ok false) = Throw e ->
            onUnexpectedResponse req res st = (st, Throw e)) as Hthrow.
  { intros e Hcheck.
    unfold onUnexpectedResponse. unfold bind at 1, lift at 1. by rewrite Hcheck. }
  unfold exec, outcome.
  destruct (ToBoolean res) eqn:Hres.
  - destruct (truthy_defined res "statusCode" Hres) as [c Hc].
    rewrite Hc in Hrun, Hthrow. cbn [rbind] in Hrun, Hthrow.
    split; [discriminate |]. split; [| split].
    + intros _. exists c. split; [exact Hc |].
      destruct (js_loose_eq (Data c) (Data (JNum (number_of_Z 401))))
        as [unauthorized | e].
      * rewrite (Hrun _ eq_refl). split; reflexivity.
      * rewrite (Hthrow _ eq_refl). split; reflexivity.
    + intros n _ Hn. rewrite Hc in Hn. injection Hn as ->.
      rewrite (Hrun (SFeqb n (number_of_Z 401))) by reflexivity.
      split; reflexivity.
    + destruct (js_loose_eq (Data c) (Data (JNum (number_of_Z 401))))
        as [unauthorized | e].
      * rewrite (Hrun _ eq_refl). split; reflexivity.
      * rewrite (Hthrow _ eq_refl). split; reflexivity.
  - rewrite (Hrun false eq_refl).
    split; [intros _; split; reflexivity |].
    split; [discriminate |]. split; [discriminate |]. split; reflexivity.
Qed.

End Connecting.

(** *** The options *)

Section Configured.
Context `{Builtins}.
Variable o : Options.

(** After [gets g] the continuation runs on a value read from a state in
    [P]. *)
Lemma keeps_gets_bind {A C} (P : PlexSocket -> Prop) (g : PlexSocket -> A)
    (k : A -> M PlexSocket C) :
  (forall a, (exists st, P st /\ g st = a) -> keeps P (k a)) ->
  keeps P (bind (gets g) k).
Proof. intros Hk st Hst. apply (Hk (g st)); eauto. Qed.

Lemma configured_stable {A} (m : M PlexSocket A) :
  stable options m -> stable calls m -> stable emitted m -> keeps (configured o) m.
Proof.
  intros Ho Hc He st Hst. unfold configured. by rewrite Ho, Hc, He.
Qed.

Lemma configured_field (g : PlexSocket -> PlexSocket) :
  (forall st, options (g st) = options st) ->
  (forall st, calls (g st) = calls st) ->
  (forall st, emitted (g st) = emitted st) ->
  keeps (configured o) (modify g).
Proof.
  intros Ho Hc He. apply configured_stable; by apply stable_modify.
Qed.

Lemma configured_log_call (c : Call) :
  call_configured o c -> keeps (configured o) (modify (log_call c)).
Proof.
  intros Hc st (Ho & Hcs & Hev). unfold configured, exec, modify. simpl.
  split; [exact Ho |]. split; [| exact Hev].
  apply Forall_app. split; [exact Hcs | by constructor].
Qed.

Lemma configured_emit (ev : Event) :
  event_configured o ev -> keeps (configured o) (emit ev).
Proof.
  intros Hev st (Ho & Hcs & Hevs).
  assert (configured o (log_event ev st)) as Hlog.
  { unfold configured. simpl. split; [exact Ho |]. split; [exact Hcs |].
    apply Forall_app. split; [exact Hevs | by constructor]. }
  unfold exec, emit, bind, modify, gets. simpl.
  destruct ev; simpl; try exact Hlog.
  destruct (has_listener _ _); exact Hlog.
Qed.

Lemma configured_emit_ret (ev : Event) :
  event_configured o ev -> keeps (configured o) (_ <- emit ev ;; ret tt).
Proof.
  intros Hev. apply keeps_bind; [by apply configured_emit | intros; apply keeps_ret].
Qed.

Lemma configured_setTimeout (cb : Callback) (delay : Z) :
  (forall t, call_configured o (SetTimeout cb delay t)) ->
  keeps (configured o) (setTimeout cb delay).
Proof.
  intros Hc. unfold setTimeout.
  apply keeps_bind; [apply keeps_gets |]. intros t.
  apply keeps_bind; [apply keeps_gets |]. intros ts.
  apply keeps_bind; [by apply configured_field |]. intros _.
  apply keeps_bind; [by apply configured_log_call |]. intros _.
  apply keeps_ret.
Qed.

Lemma configured_clearTimeout (t : timer_id) : keeps (configured o) (clearTimeout t).
Proof.
  unfold clearTimeout.
  apply keeps_bind; [apply keeps_gets |]. intros ts.
  apply keeps_bind; [apply keeps_gets |]. intros n.
  apply keeps_bind; [by apply configured_field |]. intros _.
  by apply configured_log_call.
Qed.

Lemma configured_set_readyState s r : keeps (configured o) (set_readyState s r).
Proof. apply configured_stable; unfold set_readyState; stable_auto. Qed.

Lemma configured_begin_closing s : keeps (configured o) (begin_closing s).
Proof.
  unfold begin_closing. apply keeps_bind; [apply keeps_gets |]. intros ss.
  destruct (ss !! s) as [[] |];
    first [apply keeps_ret | apply configured_set_readyState].
Qed.

Lemma configured_ping : keeps (configured o) ping.
Proof.
  unfold ping. apply keeps_bind; [apply keeps_gets |]. intros ready.
  apply keeps_when.
  apply keeps_bind.
  { unfold on_socket. apply keeps_bind; [apply keeps_gets |].
    intros [s |]; [by apply configured_log_call | apply keeps_throw]. }
  intros _. apply keeps_gets_bind. intros delay (st & (Ho & _) & <-).
  apply keeps_bind.
  { apply configured_setTimeout. intros t. simpl. by rewrite Ho. }
  intros t. by apply configured_field.
Qed.

Lemma configured_onClose code reason : keeps (configured o) (onClose code reason).
Proof.
  unfold onClose.
  apply keeps_bind; [apply keeps_gets |]. intros p.
  apply keeps_bind.
  { destruct p; [| apply keeps_ret].
    apply keeps_bind; [apply configured_clearTimeout |]. intros _.
    by apply configured_field. }
  intros _. apply keeps_bind; [apply keeps_gets |]. intros a.
  apply keeps_bind.
  { destruct a; [| apply keeps_ret].
    apply keeps_bind; [apply configured_clearTimeout |]. intros _.
    by apply configured_field. }
  intros _. apply keeps_bind; [apply keeps_gets |]. intros closing.
  destruct closing; simpl.
  - by apply configured_emit_ret.
  - apply keeps_gets_bind. intros delay (st & (Ho & _) & <-).
    apply keeps_bind; [| intros; apply keeps_ret].
    apply configured_setTimeout. intros t. simpl. by rewrite Ho.
Qed.

Lemma configured_connect ctor : keeps (configured o) (connect ctor).
Proof.
  unfold connect.
  apply keeps_bind; [apply keeps_gets |]. intros r.
  apply keeps_bind; [by apply configured_field |]. intros _.
  apply keeps_gets_bind. intros max (st & (Ho & _) & <-).
  apply keeps_bind.
  { destruct (limit_reached r (reconnectMaxRetries (options st))) eqn:Hlim;
      [| apply keeps_ret].
    simpl. apply configured_emit_ret. simpl. rewrite Ho. split; [reflexivity |].
    rewrite Ho in Hlim. destruct (reconnectMaxRetries o); [eauto | discriminate]. }
  intros _. apply keeps_gets_bind. intros built (st1 & (Ho1 & _) & Hbuilt).
  destruct built as [address | err0].
  - apply keeps_gets_bind. intros tok (st2 & (Ho2 & _) & <-).
    apply keeps_bind.
    { apply configured_log_call. simpl. unfold buildAddress in Hbuilt.
      rewrite Ho1 in Hbuilt. by rewrite Ho2. }
    intros _. destruct ctor.
    + apply keeps_bind; [apply configured_onClose | intros; apply keeps_throw].
    + apply keeps_bind; [apply keeps_gets |]. intros ss.
      apply keeps_bind; [by apply configured_field | intros _; by apply configured_field].
  - apply keeps_bind; [apply configured_onClose | intros; apply keeps_throw].
Qed.

Lemma configured_onMessage data : keeps (configured o) (onMessage data).
Proof.
  unfold onMessage, parseData, onNotification, onPlaying.
  apply keeps_bind.
  - destruct (JSON_parse data); [apply keeps_ret |].
    apply keeps_bind; [by apply configured_emit | intros; apply keeps_ret].
  - intros payload. apply keeps_when.
    apply keeps_bind; [by apply configured_emit |]. intros _.
    apply keeps_lift_bind. intros notif _. apply keeps_when.
    apply keeps_bind; [by apply configured_emit |]. intros _.
    apply keeps_lift_bind. intros type _. apply keeps_when.
    apply keeps_lift_bind. intros entries _.
    apply keeps_lift_bind. intros nonempty _.
    destruct nonempty; [| by apply configured_emit_ret].
    destruct entries; try apply keeps_throw.
    apply keeps_forEach. intros playingNotif.
    apply keeps_lift_bind. intros state _. by apply configured_emit_ret.
Qed.

Lemma configured_handle (i : Input) : keeps (configured o) (handle i).
Proof.
  destruct i; simpl.
  - apply configured_connect.
  - unfold close, on_socket.
    apply keeps_bind; [by apply configured_field |]. intros _.
    apply keeps_bind; [| intros _; by apply configured_field].
    apply keeps_bind; [apply keeps_gets |].
    intros [s0 |]; [| apply keeps_throw].
    apply keeps_bind; [by apply configured_log_call |]. intros _.
    apply configured_begin_closing.
  - apply keeps_bind; [apply keeps_gets |]. intros ls. by apply configured_field.
  - apply keeps_bind; [apply configured_set_readyState |]. intros _.
    unfold onOpen.
    apply keeps_bind; [by apply configured_field |]. intros _.
    apply keeps_bind; [by apply configured_emit |]. intros _.
    apply configured_ping.
  - unfold onPing, on_socket.
    apply keeps_bind; [apply keeps_gets |]. intros ready. apply keeps_when.
    apply keeps_bind; [apply keeps_gets |].
    intros [s0 |]; [by apply configured_log_call | apply keeps_throw].
  - unfold onPong.
    apply keeps_bind; [apply keeps_gets |]. intros a.
    apply keeps_bind.
    { destruct a; [apply configured_clearTimeout | apply keeps_ret]. }
    intros _. apply keeps_gets_bind. intros delay (st & (Ho & _) & <-).
    apply keeps_bind.
    { apply configured_setTimeout. intros t. simpl. by rewrite Ho. }
    intros t. apply keeps_bind; [by apply configured_field |]. intros _.
    by apply configured_emit_ret.
  - apply configured_onMessage.
  - unfold onError. by apply configured_emit_ret.
  - unfold onUnexpectedResponse.
    apply keeps_lift_bind. intros unauthorized _.
    destruct unauthorized; by apply configured_emit_ret.
  - apply keeps_bind; [apply configured_set_readyState |]. intros _.
    apply configured_onClose.
  - unfold fire.
    apply keeps_bind; [apply keeps_gets |]. intros ts.
    apply keeps_bind; [apply keeps_gets |]. intros n.
    destruct (list_find _ ts) as [[? [? [cb ?]]] |]; [| apply keeps_ret].
    apply keeps_bind; [by apply configured_field |]. intros _.
    destruct cb; simpl.
    + apply configured_ping.
    + unfold pongTimeout, on_socket.
      apply keeps_bind; [by apply configured_emit |]. intros _.
      apply keeps_bind; [apply keeps_gets |].
      intros [s0 |]; [| apply keeps_throw].
      apply keeps_bind; [by apply configured_log_call |]. intros _.
      apply configured_begin_closing.
    + apply configured_connect.
Qed.

Lemma reachable_configured (st : PlexSocket) : reachable o st -> configured o st.
Proof.
  induction 1 as [ctor | st i _ IH _].
  - unfold new_PlexSocket.
    apply (keeps_when _ (autoConnect o) _ (configured_connect ctor)).
    unfold configured. simpl. repeat split; constructor.
  - by apply configured_handle.
Qed.

End Configured.

(** X25.  The object uses its options as they were given, in every state
    it can reach: each socket is built with the address
    [ws://hostname:port/:/websockets/notifications] and the configured
    token (the protocol is [ws] whatever [secure] says, since
    [buildAddress] reads [this.https], which is never set); each timer is
    set with the delay of its kind ([pingInterval] for the ping,
    [pingTimeout] for the pong timeout, [reconnectInterval] for the
    reconnect); and ['reconnect-max-retries'] carries the configured
    ceiling, so it is never emitted with the default [Infinity]. *)
Theorem reachable_uses_options `{Builtins} (o : Options) (st : PlexSocket) :
  reachable o st ->
  (forall address tok,
     NewWebSocket address tok ∈ calls st ->
     address_of (with_secure false o) = Ok address /\ tok = token o) /\
  (forall cb delay t,
     SetTimeout cb delay t ∈ calls st ->
     delay = match cb with
             | PingCallback => pingInterval o
             | PongTimeoutCallback => pingTimeout o
             | ConnectCallback => reconnectInterval o
             end) /\
  (forall max,
     EvReconnectMaxRetries max ∈ emitted st ->
     max = reconnectMaxRetries o /\ exists n, max = Finite n) /\
  (reconnectMaxRetries o = Infinity ->
     forall max, EvReconnectMaxRetries max ∉ emitted st).
Proof.
  intros Hst. destruct (reachable_configured o st Hst) as (_ & Hcs & Hev).
  rewrite Forall_forall in Hcs. rewrite Forall_forall in Hev.
  assert (forall max, EvReconnectMaxRetries max ∈ emitted st ->
                      max = reconnectMaxRetries o /\ exists n, max = Finite n) as Hmax.
  { intros max Hin. exact (Hev _ Hin). }
  split; [| split; [| split]].
  - intros address tok Hin. exact (Hcs _ Hin).
  - intros cb delay t Hin. specialize (Hcs _ Hin). by destruct cb.
  - exact Hmax.
  - intros Hinf max Hin. destruct (Hmax _ Hin) as [-> [n Hn]]. congruence.
Qed.

(** *** The theorems above on the sample transports *)

Lemma onPlaying_emits_each_entry_witness :
  js_field playing_container "PlaySessionStateNotification" = Ok (JArr [playing_entry]) /\
  emitted (exec (onPlaying playing_container) listening_transport)
  = [EvOpen JUndefined; EvPlaying (JStr "playing") playing_entry] /\
  outcome (onPlaying playing_container) listening_transport = Ok tt.
Proof.
  split; [reflexivity |].
  destruct (onPlaying_emits_each_entry (H := sample_builtins)
              playing_container [playing_entry] listening_transport)
    as (-> & -> & _); [reflexivity | discriminate | reflexivity | |].
  - repeat constructor.
  - split; reflexivity.
Defined.

Lemma onPlaying_null_entry_throws_witness :
  let notif :=
    JObj [("PlaySessionStateNotification", JArr [playing_entry; JNull; playing_entry])] in
  emitted (exec (onPlaying notif) listening_transport)
  = [EvOpen JUndefined; EvPlaying (JStr "playing") playing_entry] /\
  outcome (onPlaying notif) listening_transport
  = Throw (TypeError "Cannot read properties of null (reading 'state')").
Proof.
  intros notif.
  destruct (onPlaying_null_entry_throws (H := sample_builtins)
              notif [playing_entry] [playing_entry] listening_transport)
    as (-> & ->); [reflexivity | reflexivity | |].
  - repeat constructor.
  - split; reflexivity.
Defined.

Lemma onPlaying_without_entries_witness :
  js_field (JObj [("type", JStr "playing")]) "PlaySessionStateNotification" = Ok JUndefined /\
  has_listener "error" fresh_transport = false /\
  emitted (exec (onPlaying (JObj [("type", JStr "playing")])) fresh_transport)
  = [EvError (Error "expected playing notification to have PlaySessionStateNotification")] /\
  outcome (onPlaying (JObj [("type", JStr "playing")])) fresh_transport
  = Throw (Error "expected playing notification to have PlaySessionStateNotification").
Proof.
  split; [reflexivity |]. split; [reflexivity |].
  destruct (onPlaying_without_entries
              (JObj [("type", JStr "playing")]) JUndefined fresh_transport)
    as (-> & -> & _); [reflexivity | by left |].
  split; reflexivity.
Defined.

Lemma onMessage_falsy_frame_dropped_witness :
  JSON_parse "null" = Some JNull /\
  exec (onMessage "null") listening_transport = listening_transport /\
  outcome (onMessage "null") listening_transport = Ok tt.
Proof.
  split; [reflexivity |].
  exact (onMessage_falsy_frame_dropped (H := sample_builtins)
           "null" JNull listening_transport eq_refl eq_refl).
Defined.

Lemma onMessage_other_notification_witness :
  JSON_parse (Builtins := frames_builtins) status_frame = Some status_payload /\
  emitted (exec (onMessage (H := frames_builtins) status_frame) listening_transport)
  = [EvOpen JUndefined; EvMessage status_payload; EvNotification status_container] /\
  outcome (onMessage (H := frames_builtins) status_frame) listening_transport = Ok tt.
Proof.
  split; [reflexivity |].
  destruct (onMessage_other_notification (H := frames_builtins)
              status_frame status_payload status_container listening_transport)
    as (-> & -> & _); [reflexivity | reflexivity | reflexivity | |].
  - intros type [= <-]. reflexivity.
  - split; reflexivity.
Defined.

Lemma onMessage_playing_dispatch_witness :
  JSON_parse (Builtins := frames_builtins) playing_frame = Some playing_payload /\
  emitted (exec (onMessage (H := frames_builtins) playing_frame) listening_transport)
  = [EvOpen JUndefined; EvMessage playing_payload; EvNotification playing_container;
     EvPlaying (JStr "playing") playing_entry] /\
  outcome (onMessage (H := frames_builtins) playing_frame) listening_transport = Ok tt.
Proof.
  split; [reflexivity |].
  destruct (onMessage_playing_dispatch (H := frames_builtins)
              playing_frame playing_payload playing_container [playing_entry]
              listening_transport)
    as (-> & -> & _);
    [reflexivity | reflexivity | reflexivity | reflexivity | discriminate | reflexivity | |].
  - repeat constructor.
  - split; reflexivity.
Defined.

Lemma beating_transport_reachable : reachable sample_options beating_transport.
Proof.
  change beating_transport
    with (step (TimerFires 1%nat None)
            (step (SocketPonged 0%nat)
               (step (SocketOpens 0%nat JUndefined)
                  (fst (new_PlexSocket sample_options None))))).
  repeat (apply reachable_step; [| reflexivity]).
  apply reachable_new.
Qed.

Lemma beating_transport_in_order : orderly sample_options beating_transport.
Proof.
  change beating_transport
    with (step (TimerFires 1%nat None)
            (step (SocketPonged 0%nat)
               (step (SocketOpens 0%nat JUndefined)
                  (fst (new_PlexSocket sample_options None))))).
  repeat (apply orderly_step; [| reflexivity | reflexivity]).
  apply orderly_new.
Qed.

Lemma pong_timeout_after_close_throws_witness :
  awaitPong beating_transport = Some 2%nat /\
  timer_pending 2%nat beating_transport = true /\
  outcome (handle (TimerFires 2%nat None)) (step CallClose beating_transport)
  = Throw (TypeError "Cannot read properties of null (reading 'terminate')").
Proof.
  split; [reflexivity |]. split; [reflexivity |].
  exact (proj1 (proj2 (pong_timeout_after_close_throws (H := sample_builtins)
                         sample_options beating_transport 2%nat None
                         beating_transport_in_order eq_refl eq_refl))).
Defined.

Lemma missed_pong_reconnects_witness :
  socket beating_transport = Some 0%nat /\
  shouldClose beating_transport = false /\
  timers (step (SocketCloses 0%nat JUndefined JUndefined)
            (step (TimerFires 2%nat None) beating_transport))
  = [(3%nat, (ConnectCallback, 10000%Z))].
Proof.
  split; [reflexivity |]. split; [reflexivity |].
  exact (proj1 (proj2 (proj2 (proj2
           (missed_pong_reconnects (H := sample_builtins)
              sample_options beating_transport 2%nat 0%nat None JUndefined JUndefined
              beating_transport_in_order eq_refl eq_refl eq_refl eq_refl))))).
Defined.

Lemma open_starts_heartbeat_witness :
  socket fresh_transport = Some 0%nat /\
  calls (step (SocketOpens 0%nat JUndefined) fresh_transport)
  = [NewWebSocket "ws://plex.local:32400/:/websockets/notifications" (JStr "secret");
     SocketPing 0%nat "Hi?"; SetTimeout PongTimeoutCallback 5000%Z 0%nat] /\
  awaitPong (step (SocketOpens 0%nat JUndefined) fresh_transport) = Some 0%nat.
Proof.
  split; [reflexivity |].
  destruct (open_starts_heartbeat (H := sample_builtins) fresh_transport 0%nat JUndefined)
    as (_ & _ & -> & _ & -> & _); [reflexivity | simpl; lia | reflexivity |].
  split; reflexivity.
Defined.

Lemma heartbeat_round_witness :
  isReady beating_transport = true /\
  timers (run [SocketPonged 0%nat; TimerFires 3%nat None] beating_transport)
  = [(4%nat, (PongTimeoutCallback, 5000%Z))] /\
  emitted (run [SocketPonged 0%nat; TimerFires 3%nat None] beating_transport)
  = emitted beating_transport ++ [EvPong].
Proof.
  split; [reflexivity |].
  destruct (heartbeat_round (H := sample_builtins)
              sample_options beating_transport 0%nat 0%nat 2%nat None
              beating_transport_in_order eq_refl eq_refl eq_refl eq_refl)
    as (_ & Hev & Hts & _).
  split; [exact Hts | exact Hev].
Defined.

Lemma reachable_uses_options_witness :
  reachable sample_options beating_transport /\
  (forall address tok,
     NewWebSocket address tok ∈ calls beating_transport ->
     address = "ws://plex.local:32400/:/websockets/notifications" /\
     tok = JStr "secret").
Proof.
  split; [exact beating_transport_reachable |].
  intros address tok Hin.
  destruct (proj1 (reachable_uses_options (H := sample_builtins)
                     sample_options beating_transport beating_transport_reachable)
              address tok Hin) as [Haddress ->].
  split; [| reflexivity].
  assert (address_of (H := sample_builtins) (with_secure false sample_options)
          = Ok "ws://plex.local:32400/:/websockets/notifications") as Hgo
    by reflexivity.
  rewrite Hgo in Haddress. by injection Haddress.
Defined.

Lemma unexpected_response_events_witness :
  emitted (exec (onUnexpectedResponse JNull response_forbidden) fresh_transport)
  = [EvUnexpectedResponse JNull response_forbidden] /\
  emitted (exec (onUnexpectedResponse JNull response_unauthorized) fresh_transport)
  = [EvUnauthorized] /\
  emitted (exec (onUnexpectedResponse JNull JUndefined) fresh_transport)
  = [EvUnexpectedResponse JNull JUndefined].
Proof.
  destruct (unexpected_response_events (H := sample_builtins)
              JNull response_forbidden fresh_transport) as (_ & _ & Hnumber & _).
  destruct (Hnumber _ eq_refl eq_refl) as [_ ->].
  split; [reflexivity |].
  destruct (unexpected_response_events (H := sample_builtins)
              JNull response_unauthorized fresh_transport) as (_ & Htruthy & _).
  destruct (Htruthy eq_refl) as (c & Hc & Hevent).
  injection Hc as <-. destruct Hevent as [_ ->].
  split; [reflexivity |].
  destruct (unexpected_response_events (H := sample_builtins)
              JNull JUndefined fresh_transport) as (Hfalsy & _).
  destruct (Hfalsy eq_refl) as [_ ->]. reflexivity.
Defined.

Lemma parse_failure_unheard_witness :
  JSON_parse "{" = None /\
  has_listener "error" fresh_transport = false /\
  emitted (exec (onMessage "{") fresh_transport) = [EvError (SyntaxError "{")] /\
  outcome (onMessage "{") fresh_transport = Throw (SyntaxError "{").
Proof.
  split; [reflexivity |]. split; [reflexivity |].
  destruct (parse_failure_unheard (H := sample_builtins) "{" fresh_transport)
    as [-> ->]; [reflexivity | reflexivity |].
  split; reflexivity.
Defined.

Lemma notified_transport_reachable :
  reachable (H := frames_builtins) sample_options notified_transport.
Proof.
  change notified_transport
    with (step (H := frames_builtins) (SocketMessage 0%nat playing_frame)
            (step (H := frames_builtins) (SocketOpens 0%nat JUndefined)
               (fst (new_PlexSocket (H := frames_builtins) sample_options None)))).
  repeat (apply reachable_step; [| reflexivity]).
  apply reachable_new.
Qed.

Lemma reachable_playing_events_witness :
  EvPlaying (JStr "playing") playing_entry ∈ emitted notified_transport /\
  js_field playing_entry "state" = Ok (JStr "playing").
Proof.
  assert (EvPlaying (JStr "playing") playing_entry ∈ emitted notified_transport) as Hin.
  { apply list_elem_of_In. vm_compute. tauto. }
  split; [exact Hin |].
  exact (reachable_playing_events (H := frames_builtins)
           sample_options notified_transport (JStr "playing") playing_entry
           notified_transport_reachable Hin).
Defined.

End TransportMore.

(** ** From the frame to the message *)

Module PipelineMore.
Import JS Eff Views.

Section Pipeline.
Context `{Builtins}.

Lemma reachable_events_well_formed (o : Transport.Options) (st : Transport.PlexSocket) :
  Transport.reachable o st -> Transport.events_well_formed st.
Proof.
  induction 1 as [ctor | st i _ IH _].
  - unfold Transport.new_PlexSocket.
    apply (TransportProps.keeps_when _ (Transport.autoConnect o) _
             (TransportProps.connect_keeps_events ctor)).
    constructor.
  - by apply TransportProps.handle_keeps_events.
Qed.

Lemma readable_anywhere (v x : jsval) (k k' : string) :
  js_field v k = Ok x -> exists y, js_field v k' = Ok y.
Proof.
  destruct v; try discriminate; intros _; unfold js_field; eauto;
    destruct (k' =? "length")%string; eauto; destruct (index_of_key k'); eauto.
Qed.

(** X28.  From the transport to the node: for each event a reachable
    transport has emitted, the node's listener sends at most one message,
    and a message it sends carries the two arguments of a ['playing']
    event, so that its payload is the [state] of the notification in its
    [plex] field. *)
Theorem sent_message_carries_entry_state
    (o : Transport.Options) (st : Transport.PlexSocket)
    (node : FilterEngine.PlayingNode) (ev : Transport.Event)
    (fetched : Processor.Fetched) (w : Processor.World) :
  Transport.reachable o st ->
  ev ∈ Transport.emitted st ->
  let w' := exec (hears node ev fetched) w in
  Processor.sent w' = Processor.sent w \/
  exists msg,
    Processor.sent w' = Processor.sent w ++ [msg] /\
    ev = Transport.EvPlaying (Processor.payload msg) (Processor.plex msg) /\
    js_field (Processor.plex msg) "state" = Ok (Processor.payload msg).
Proof.
  intros Hst Hin. simpl.
  pose proof (reachable_events_well_formed o st Hst) as Hwf.
  unfold Transport.events_well_formed in Hwf. rewrite Forall_forall in Hwf.
  specialize (Hwf _ Hin).
  destruct ev as [| | | | | state notification | | | | |]; try (by left).
  simpl in Hwf. simpl hears.
  destruct (readable_anywhere _ _ _ "sessionKey" Hwf) as [sessionKey Hk].
  destruct fetched as [session | reason].
  - pose proof (ProcessorMore.onPlaying_cases node state notification _ session w Hk)
      as Hc.
    simpl in Hc.
    destruct session as [l |]; [| left; rewrite Hc; unfold finish;
                                   by destruct (js_strict_eq state (JStr "stopped"))].
    destruct (js_strict_eq (Processor.prevState_of (Processor.record_at l w)) state).
    { left. rewrite Hc. unfold finish.
      by destruct (js_strict_eq state (JStr "stopped")). }
    destruct (FilterEngine.matchesFilters node (JObj (Processor.record_at l w)))
      as [matched | e].
    + destruct (ToBoolean matched).
      * right. eexists. rewrite Hc. unfold finish.
        split; [by destruct (js_strict_eq state (JStr "stopped")) |].
        split; [reflexivity | exact Hwf].
      * left. rewrite Hc. unfold finish.
        by destruct (js_strict_eq state (JStr "stopped")).
    + left. rewrite Hc. by destruct (Processor.exn_text e).
  - left. rewrite (ProcessorMore.onPlaying_rejected _ _ _ sessionKey) by exact Hk.
    by destruct (Processor.exn_text reason).
Qed.

End Pipeline.

Lemma sent_message_carries_entry_state_witness :
  let ev := Transport.EvPlaying (JStr "playing") Samples.playing_entry in
  let node := FilterEngine.new_PlayingNode (Some [Samples.by_player_state]) in
  let w := Samples.world_of Samples.record_paused in
  ev ∈ Transport.emitted Samples.notified_transport /\
  Processor.sent (exec (hears (H := Samples.frames_builtins) node ev
                          (Processor.Resolved (Some 0%nat))) w)
  = [ {| Processor.payload := JStr "playing"; Processor.plex := Samples.playing_entry;
         Processor.session := Some 0%nat |} ] /\
  (Processor.sent (exec (hears (H := Samples.frames_builtins) node ev
                           (Processor.Resolved (Some 0%nat))) w)
   = Processor.sent w \/
   exists msg,
     Processor.sent (exec (hears (H := Samples.frames_builtins) node ev
                             (Processor.Resolved (Some 0%nat))) w)
     = Processor.sent w ++ [msg] /\
     ev = Transport.EvPlaying (Processor.payload msg) (Processor.plex msg) /\
     js_field (Processor.plex msg) "state" = Ok (Processor.payload msg)).
Proof.
  intros ev node w.
  assert (ev ∈ Transport.emitted Samples.notified_transport) as Hin.
  { apply list_elem_of_In. vm_compute. tauto. }
  split; [exact Hin |]. split; [reflexivity |].
  exact (sent_message_carries_entry_state (H := Samples.frames_builtins)
           Samples.sample_options Samples.notified_transport node ev
           (Processor.Resolved (Some 0%nat)) w
           TransportMore.notified_transport_reachable Hin).
Defined.

End PipelineMore.
